(** * Visual regression engine of sitetester: DOM differ, pixel differ,
    snapshot extractor and the comparison run that drives them.

  The development embeds
  - [src/utils/dom_diff.py] ([compare_dom_elements]),
  - [src/main.py], [process_image_diff] and [compare_images_logic]
    (with the JavaScript [extraction_script] it evaluates in the page),
  and states the properties of the specification over these embeddings. *)

From Stdlib Require Import ZArith Lia.
From stdpp Require Import gmap strings list.

Local Open Scope Z_scope.

(** ** IEEE 754 binary64, as far as the program uses it

  Python floats are binary64.  The program divides two integers, multiplies
  a float by a float and truncates with [int()].  A finite float is kept as
  an integer significand and a binary exponent; every operation is the exact
  rational result rounded to nearest, ties to even, with the subnormal
  exponent floor and with overflow reported (Python raises on
  integer division overflow and on [int(inf)]). *)
Module Binary64.

Record float := mk { mant : Z; expo : Z }.

(** The real number [f] denotes is [mant f * 2 ^ expo f]. *)

Definition emin : Z := -1074.
Definition overflow_threshold : Z := 2 ^ 1024.

(** [floor (log2 (n / d))] for positive [n] and [d]. *)
Definition ilog2_ratio (n d : Z) : Z :=
  let k := Z.log2 n - Z.log2 d in
  if n * 2 ^ Z.log2 d <? d * 2 ^ Z.log2 n then k - 1 else k.

(** [n / d] rounded to the nearest integer, ties to even ([0 <= n], [0 < d]). *)
Definition round_half_even (n d : Z) : Z :=
  let q := n / d in
  match 2 * (n mod d) ?= d with
  | Lt => q
  | Gt => q + 1
  | Eq => if Z.even q then q else q + 1
  end.

(** Exponent of the unit in the last place of the binade of [n / d]. *)
Definition ulp_exp (n d : Z) : Z := Z.max (ilog2_ratio n d - 52) emin.

Definition round_pos (n d : Z) : option float :=
  let e := ulp_exp n d in
  let m := round_half_even (n * 2 ^ Z.max 0 (- e)) (d * 2 ^ Z.max 0 e) in
  if overflow_threshold <=? m * 2 ^ Z.max 0 e then None else Some (mk m e).

Definition fneg (f : float) : float := mk (- mant f) (expo f).

(** The rational [n / d] ([0 < d]) as a float; [None] is overflow. *)
Definition fround (n d : Z) : option float :=
  match n ?= 0 with
  | Eq => Some (mk 0 0)
  | Gt => round_pos n d
  | Lt => fneg <$> round_pos (- n) d
  end.

(** [float(n)] for a Python integer. *)
Definition of_int (n : Z) : option float := fround n 1.

(** [a / b] on Python integers: the correctly rounded quotient;
    [None] stands for [ZeroDivisionError] and [OverflowError]. *)
Definition fdiv_int (a b : Z) : option float :=
  if b =? 0 then None else fround (a * Z.sgn b) (Z.abs b).

(** [x * y] on floats; [None] stands for an infinite product. *)
Definition fmul (x y : float) : option float :=
  let e := expo x + expo y in
  fround (mant x * mant y * 2 ^ Z.max 0 e) (2 ^ Z.max 0 (- e)).

(** [x + y] on floats. *)
Definition fadd (x y : float) : option float :=
  let e := Z.min (expo x) (expo y) in
  fround ((mant x * 2 ^ (expo x - e) + mant y * 2 ^ (expo y - e)) * 2 ^ Z.max 0 e)
         (2 ^ Z.max 0 (- e)).

(** [int(x)]: truncation toward zero. *)
Definition to_int (f : float) : Z :=
  Z.quot (mant f * 2 ^ Z.max 0 (expo f)) (2 ^ Z.max 0 (- expo f)).

Definition is_zero (f : float) : bool := mant f =? 0.

(** A JavaScript number or Python float as data: finite, or one of the
    non-finite values (infinities, NaN), which the program never inspects. *)
Inductive number := finite (f : float) | non_finite.

(** [a + b] in JavaScript: an overflowing sum is an infinity, not an error. *)
Definition js_add (a b : number) : number :=
  match a, b with
  | finite fa, finite fb => from_option finite non_finite (fadd fa fb)
  | _, _ => non_finite
  end.

(** [a === 0] *)
Definition js_is_zero (a : number) : bool :=
  match a with
  | finite f => is_zero f
  | non_finite => false
  end.

(** The literal [0.3]: the double nearest to 3/10. *)
Definition f0_3 : float := mk 5404319552844595 (-54).

End Binary64.

(** ** The DOM differ, [src/utils/dom_diff.py] *)
Module DomDiff.

Import Binary64.

(** *** Data: element snapshots and diff entries

    An element is the dict the extraction script pushes.  [id] is read with
    [.get('id')], so it is optional; [styles] is read with
    [.get('styles', {})], so a missing entry is the empty map; [tag], [text]
    and [rect] are read with subscripts and are always present. *)

Record Rect := { x : number; y : number; width : number; height : number }.

Record Element := {
  tag : string;
  id : option string;
  classes : list string;
  text : string;
  rect : Rect;
  styles : gmap string string
}.

Record StyleDelta := { old : option string; new : option string }.

(** The three shapes of the dicts appended to [diffs], tagged by ['type']. *)
Inductive DiffEntry :=
| style_change (r : Rect) (diffs : list (string * StyleDelta)) (tg txt : string)
| added (r : Rect) (tg txt : string)
| removed (r : Rect) (tg txt : string).

Definition target_styles : list string :=
  [ "color"; "background-color"; "font-family"; "font-size"; "font-weight";
    "text-align" ]%string.

(** *** Operations *)

(** Truth value of [comp_el.get('id')]: present and not the empty string. *)
Definition truthy (v : option string) : bool :=
  match v with
  | Some s => bool_decide (s ≠ EmptyString)
  | None => false
  end.

(** [unmatched_base]: a dict keyed by the original index.  Python dicts
    iterate in insertion order and [pop] keeps the order of the rest, so the
    dict is the list of its items in that order. *)
Definition Unmatched := list (nat * Element).

Definition enumerate (base_elements : list Element) : Unmatched :=
  imap (λ i el, (i, el)) base_elements.

(** [for i, base_el in unmatched_base.items(): if p(base_el): match_index = i; break] *)
Fixpoint first_index (p : Element → bool) (items : Unmatched) : option nat :=
  match items with
  | [] => None
  | (i, base_el) :: rest => if p base_el then Some i else first_index p rest
  end.

Definition id_tag_eq (comp_el base_el : Element) : bool :=
  bool_decide (id base_el = id comp_el) && bool_decide (tag base_el = tag comp_el).

Definition tag_text_eq (comp_el base_el : Element) : bool :=
  bool_decide (tag base_el = tag comp_el) && bool_decide (text base_el = text comp_el).

(** The two searches of the loop body; [None] is [match_index == -1]. *)
Definition find_match (unmatched_base : Unmatched) (comp_el : Element) : option nat :=
  let match_index :=
    if truthy (id comp_el) then first_index (id_tag_eq comp_el) unmatched_base
    else None in
  match match_index with
  | Some i => Some i
  | None => first_index (tag_text_eq comp_el) unmatched_base
  end.

Fixpoint get (k : nat) (items : Unmatched) : option Element :=
  match items with
  | [] => None
  | (i, el) :: rest => if bool_decide (i = k) then Some el else get k rest
  end.

Fixpoint del (k : nat) (items : Unmatched) : Unmatched :=
  match items with
  | [] => []
  | (i, el) :: rest =>
      if bool_decide (i = k) then rest else (i, el) :: del k rest
  end.

(** [unmatched_base.pop(k)]; [None] is the [KeyError] of an absent key. *)
Definition pop (k : nat) (items : Unmatched) : option (Element * Unmatched) :=
  el ← get k items; Some (el, del k items).

(** The loop over [target_styles] filling the dict [style_diffs]. *)
Definition style_diffs (base_styles comp_styles : gmap string string)
  : list (string * StyleDelta) :=
  foldl (λ acc prop,
           let val1 := base_styles !! prop in
           let val2 := comp_styles !! prop in
           if bool_decide (val1 ≠ val2)
           then acc ++ [(prop, {| old := val1; new := val2 |})]
           else acc)
        [] target_styles.

(** What a matched pair appends to [diffs]. *)
Definition matched_entries (base_el comp_el : Element) : list DiffEntry :=
  match style_diffs (styles base_el) (styles comp_el) with
  | [] => []
  | sd => [style_change (rect comp_el) sd (tag comp_el) (text comp_el)]
  end.

Definition added_entry (comp_el : Element) : DiffEntry :=
  added (rect comp_el) (tag comp_el) (text comp_el).

Definition removed_entry (base_el : Element) : DiffEntry :=
  removed (rect base_el) (tag base_el) (text base_el).

Record State := { unmatched_base : Unmatched; diffs : list DiffEntry }.

(** One iteration of [for comp_el in compare_elements]. *)
Definition step (st : State) (comp_el : Element) : option State :=
  match find_match (unmatched_base st) comp_el with
  | Some match_index =>
      '(base_el, rest) ← pop match_index (unmatched_base st);
      Some {| unmatched_base := rest;
              diffs := diffs st ++ matched_entries base_el comp_el |}
  | None =>
      Some {| unmatched_base := unmatched_base st;
              diffs := diffs st ++ [added_entry comp_el] |}
  end.

Fixpoint run (st : State) (compare_elements : list Element) : option State :=
  match compare_elements with
  | [] => Some st
  | comp_el :: rest => st' ← step st comp_el; run st' rest
  end.

Definition init (base_elements : list Element) : State :=
  {| unmatched_base := enumerate base_elements; diffs := [] |}.

Definition compare_dom_elements (base_elements compare_elements : list Element)
  : option (list DiffEntry) :=
  st ← run (init base_elements) compare_elements;
  Some (diffs st ++ map (λ kv, removed_entry kv.2) (unmatched_base st)).

(** *** Vocabulary of the specification

    The matching rule as the specification words it, to be compared with
    [find_match] and [step]. *)

Definition nonempty_id (comp_el : Element) : Prop :=
  ∃ s, id comp_el = Some s ∧ s ≠ EmptyString.

Definition same_id_tag (comp_el base_el : Element) : Prop :=
  id base_el = id comp_el ∧ tag base_el = tag comp_el.

Definition same_tag_text (comp_el base_el : Element) : Prop :=
  tag base_el = tag comp_el ∧ text base_el = text comp_el.

Definition none_of (P : Element → Prop) (u : Unmatched) : Prop :=
  Forall (λ kv, ¬ P kv.2) u.

(** [(i, b)] is the first item of [u] whose element satisfies [P], and
    [rest] is [u] without it. *)
Definition first_of (P : Element → Prop) (u : Unmatched)
           (i : nat) (b : Element) (rest : Unmatched) : Prop :=
  ∃ l1 l2, u = l1 ++ (i, b) :: l2 ∧ P b ∧ none_of P l1 ∧ rest = l1 ++ l2.

(** The id search is skipped or finds nothing. *)
Definition id_search_fails (u : Unmatched) (comp_el : Element) : Prop :=
  ¬ nonempty_id comp_el ∨ none_of (same_id_tag comp_el) u.

Inductive Policy (u : Unmatched) (comp_el : Element)
  : option (nat * Element) → Unmatched → Prop :=
| by_id i b rest :
    nonempty_id comp_el →
    first_of (same_id_tag comp_el) u i b rest →
    Policy u comp_el (Some (i, b)) rest
| by_text i b rest :
    id_search_fails u comp_el →
    first_of (same_tag_text comp_el) u i b rest →
    Policy u comp_el (Some (i, b)) rest
| no_match :
    id_search_fails u comp_el →
    none_of (same_tag_text comp_el) u →
    Policy u comp_el None u.

(** What the iteration for [comp_el] appends, given the outcome of the match. *)
Definition entries_for (comp_el : Element) (m : option (nat * Element))
  : list DiffEntry :=
  match m with
  | Some (_, base_el) => matched_entries base_el comp_el
  | None => [added_entry comp_el]
  end.

(** The base index each compare element is matched to, in compare order. *)
Fixpoint trace (u : Unmatched) (compare_elements : list Element)
  : list (option nat) :=
  match compare_elements with
  | [] => []
  | comp_el :: rest =>
      match find_match u comp_el with
      | Some i => Some i :: trace (del i u) rest
      | None => None :: trace u rest
      end
  end.

Definition matching (base_elements compare_elements : list Element)
  : list (option nat) :=
  trace (enumerate base_elements) compare_elements.

Definition matched_indices (ms : list (option nat)) : list nat := omap (λ m, m) ms.

(** Entries of the compare element at a position, given its match, as the
    loop builds them. *)
Definition compare_entries (base_elements : list Element)
           (comp_el : Element) (m : option nat) : list DiffEntry :=
  match m with
  | Some i =>
      match base_elements !! i with
      | Some base_el => matched_entries base_el comp_el
      | None => []
      end
  | None => [added_entry comp_el]
  end.

(** Entries of the base element at index [i] in the final removal loop. *)
Definition base_entries (ms : list (option nat)) (i : nat) (base_el : Element)
  : list DiffEntry :=
  if bool_decide (i ∈ matched_indices ms) then [] else [removed_entry base_el].

(** Elements that agree on what the differ reads for matching and styles. *)
Definition same_snapshot (base_el comp_el : Element) : Prop :=
  tag base_el = tag comp_el ∧ id base_el = id comp_el ∧
  text base_el = text comp_el ∧ styles base_el = styles comp_el.

Definition differs_at (base_el comp_el : Element) (prop : string) : Prop :=
  styles base_el !! prop ≠ styles comp_el !! prop.

Definition is_added (e : DiffEntry) : bool :=
  match e with added _ _ _ => true | _ => false end.

Definition is_removed (e : DiffEntry) : bool :=
  match e with removed _ _ _ => true | _ => false end.

(** The added entry of a compare element, if its match is "none". *)
Definition added_if_unmatched (comp_el : Element) (m : option nat)
  : list DiffEntry :=
  match m with
  | Some _ => []
  | None => [added_entry comp_el]
  end.

(** The items of [u] whose key is not in [ks], in order. *)
Fixpoint without_keys (ks : list nat) (u : Unmatched) : Unmatched :=
  match u with
  | [] => []
  | (i, el) :: rest =>
      if bool_decide (i ∈ ks) then without_keys ks rest
      else (i, el) :: without_keys ks rest
  end.

(** The entries as the specification describes them, field by field. *)

(** The target properties on which a pair differs, in the order of the
    list, each with its old and its new value. *)
Definition changed_styles (base_el comp_el : Element)
  : list (string * StyleDelta) :=
  omap (λ prop,
          if bool_decide (styles base_el !! prop ≠ styles comp_el !! prop)
          then Some (prop, {| old := styles base_el !! prop;
                              new := styles comp_el !! prop |})
          else None)
       target_styles.

(** Block of a compare element: unmatched, one added entry with its own
    rect, tag and text; matched to the base element at [i], one
    style_change entry with the compare rect, tag and text and the changed
    properties when there are any, and nothing otherwise. *)
Definition compare_block (base_elements : list Element)
           (comp_el : Element) (m : option nat) : list DiffEntry :=
  match m with
  | Some i =>
      match base_elements !! i with
      | Some base_el =>
          match changed_styles base_el comp_el with
          | [] => []
          | sd => [style_change (rect comp_el) sd (tag comp_el) (text comp_el)]
          end
      | None => []
      end
  | None => [added (rect comp_el) (tag comp_el) (text comp_el)]
  end.

(** Block of the base element at index [i]: one removed entry with its own
    rect, tag and text when the index was never matched. *)
Definition base_block (ms : list (option nat)) (i : nat) (base_el : Element)
  : list DiffEntry :=
  if bool_decide (i ∈ matched_indices ms) then []
  else [removed (rect base_el) (tag base_el) (text base_el)].

Definition added_block (comp_el : Element) (m : option nat) : list DiffEntry :=
  match m with
  | Some _ => []
  | None => [added (rect comp_el) (tag comp_el) (text comp_el)]
  end.

(** What [same_snapshot] compares. *)
Definition snapshot_key (el : Element)
  : string * option string * string * gmap string string :=
  (tag el, id el, text el, styles el).

(** The same snapshots, in any order. *)
Definition reordered (base_elements compare_elements : list Element) : Prop :=
  ∃ l, base_elements ≡ₚ l ∧ Forall2 same_snapshot l compare_elements.

(** Elements that the two searches could pair are equal snapshots: a base
    and a compare element that share the (non-empty) compare id and the
    tag, or the tag and the text, are the same snapshot. *)
Definition collision_free (base_elements compare_elements : list Element)
  : Prop :=
  ∀ base_el comp_el,
    base_el ∈ base_elements → comp_el ∈ compare_elements →
    (nonempty_id comp_el ∧ same_id_tag comp_el base_el)
    ∨ same_tag_text comp_el base_el →
    same_snapshot base_el comp_el.

(** No base element can be paired with any compare element. *)
Definition disjoint (base_elements compare_elements : list Element) : Prop :=
  ∀ base_el comp_el,
    base_el ∈ base_elements → comp_el ∈ compare_elements →
    ¬ (nonempty_id comp_el ∧ same_id_tag comp_el base_el) ∧
    ¬ same_tag_text comp_el base_el.

(** *** Sample snapshots *)

Definition sample_rect : Rect :=
  {| x := finite (mk 0 0); y := finite (mk 0 0);
     width := finite (mk 100 0); height := finite (mk 20 0) |}.

Definition sample_styles (color : string) : gmap string string :=
  list_to_map
    [ ("color", color); ("background-color", "rgba(0, 0, 0, 0)");
      ("font-family", "serif"); ("font-size", "32px");
      ("font-weight", "700"); ("text-align", "start") ]%string.

Definition sample (tg ident txt color : string) : Element :=
  {| tag := tg; id := Some ident; classes := []; text := txt;
     rect := sample_rect; styles := sample_styles color |}.

Definition h1_black : Element :=
  sample "H1" EmptyString "Hello" "rgb(0, 0, 0)".
Definition h1_red : Element :=
  sample "H1" EmptyString "Hello" "rgb(255, 0, 0)".

(** Three elements with identical styles: two share the id, two the text. *)
Definition el_c : Element := sample "DIV" "i" "a" "rgb(0, 0, 0)".
Definition el_s : Element := sample "DIV" "i" "z" "rgb(0, 0, 0)".
Definition el_d : Element := sample "DIV" EmptyString "z" "rgb(0, 0, 0)".

End DomDiff.

(** ** The pixel differ, [process_image_diff] in [src/main.py] *)
Module PixelDiff.

Import Binary64.

(** *** Data *)

(** A pixel of an RGB image: the tuple [(r, g, b)]. *)
Definition RGB : Type := Z * Z * Z.

(** A PIL image with its pixel access object: [pixels img x y] is
    [img.load()[x, y]]. *)
Record Image := { width : nat; height : nat; pixels : nat → nat → RGB }.

Definition in_bounds (img : Image) (x y : nat) : bool :=
  bool_decide (x < width img)%nat && bool_decide (y < height img)%nat.

(** [pixels[x, y]]; [None] is the [IndexError] of a coordinate outside the image. *)
Definition getpixel (img : Image) (x y : nat) : option RGB :=
  if in_bounds img x y then Some (pixels img x y) else None.

(** [pixels[x, y] = v] *)
Definition putpixel (img : Image) (x y : nat) (v : RGB) : option Image :=
  if in_bounds img x y
  then Some {| width := width img; height := height img;
               pixels := λ x' y', if bool_decide (x' = x ∧ y' = y) then v
                                  else pixels img x' y' |}
  else None.

(** [Image.new("RGB", (w, h))]: all black. *)
Definition new_image (w h : nat) : Image :=
  {| width := w; height := h; pixels := λ _ _, (0, 0, 0) |}.

(** Channels of an 8-bit RGB image. *)
Definition rgb8 (img : Image) : Prop :=
  ∀ x y, match pixels img x y with
         | (r, g, b) => 0 <= r <= 255 ∧ 0 <= g <= 255 ∧ 0 <= b <= 255
         end.

(** [Image.resize((w, h))] is Pillow's resampling, a function of the image
    and the requested size; [None] is a raised exception.  The differ relies
    on its contract only: the result has the requested size and is again
    an 8-bit RGB image. *)
Definition Resize : Type := Image → nat → nat → option Image.

Definition resize_contract (resize : Resize) : Prop :=
  ∀ img w h img', resize img w h = Some img' →
    width img' = w ∧ height img' = h ∧ (rgb8 img → rgb8 img').

(** *** Operations *)

(** [for a in l: body], with exceptions. *)
Fixpoint for_each {S A : Type} (body : A → S → option S) (l : list A) (s : S)
  : option S :=
  match l with
  | [] => Some s
  | a :: rest => s' ← body a s; for_each body rest s'
  end.

(** [abs(r1 - r2) + abs(g1 - g2) + abs(b1 - b2)] *)
Definition distance (p1 p2 : RGB) : Z :=
  match p1, p2 with
  | (r1, g1, b1), (r2, g2, b2) => Z.abs (r1 - r2) + Z.abs (g1 - g2) + Z.abs (b1 - b2)
  end.

(** [int(v * 0.3)] *)
Definition dim (v : Z) : option Z :=
  f ← of_int v; p ← fmul f f0_3; Some (to_int p).

(** Body of the inner loop; the state is [(diff_img, diff_count)]. *)
Definition pixel_step (pixels1 pixels2 : Image) (y x : nat) (st : Image * Z)
  : option (Image * Z) :=
  p1 ← getpixel pixels1 x y;
  p2 ← getpixel pixels2 x y;
  if 15 <? distance p1 p2
  then diff_pixels ← putpixel st.1 x y (255, 0, 0);
       Some (diff_pixels, st.2 + 1)
  else r ← dim p1.1.1; g ← dim p1.1.2; b ← dim p1.2;
       diff_pixels ← putpixel st.1 x y (r, g, b);
       Some (diff_pixels, st.2).

(** [for y in range(height): for x in range(width): ...] *)
Definition scan (w h : nat) (pixels1 pixels2 : Image) (st : Image * Z)
  : option (Image * Z) :=
  for_each (λ y, for_each (pixel_step pixels1 pixels2 y) (seq 0 w)) (seq 0 h) st.

(** [int((diff_count / total_pixels) * 100)] *)
Definition diff_score (diff_count total_pixels : Z) : option Z :=
  q ← fdiv_int diff_count total_pixels;
  hundred ← of_int 100;
  p ← fmul q hundred;
  Some (to_int p).

Section Differ.
Variable resize : Resize.

(** From the two decoded images to the filled diff image and the counter. *)
Definition render_diff (img1 img2 : Image) : option (Image * Z) :=
  let w := (width img1 `min` width img2)%nat in
  let h := (height img1 `min` height img2)%nat in
  img1' ← resize img1 w h;
  img2' ← resize img2 w h;
  scan w h img1' img2' (new_image w h, 0).

(** The diff image and the score; the save of the image and the database
    writes between the two are in [VisualRun.process_image_diff]. *)
Definition pixel_diff (img1 img2 : Image) : option (Image * Z) :=
  '(diff_img, diff_count) ← render_diff img1 img2;
  let total_pixels := Z.of_nat (width diff_img) * Z.of_nat (height diff_img) in
  score ← diff_score diff_count total_pixels;
  Some (diff_img, score).
End Differ.

(** *** Vocabulary of the specification *)

Definition red : RGB := (255, 0, 0).

(** The diff pixel the specification prescribes, with the exact [⌊3v/10⌋]. *)
Definition classify (p1 p2 : RGB) : RGB :=
  if 15 <? distance p1 p2 then red
  else (3 * p1.1.1 / 10, 3 * p1.1.2 / 10, 3 * p1.2 / 10).

Definition coords (w h : nat) : list (nat * nat) :=
  y ← seq 0 h; x ← seq 0 w; [(x, y)].

Definition exceeds (a b : Image) (xy : nat * nat) : bool :=
  15 <? distance (pixels a xy.1 xy.2) (pixels b xy.1 xy.2).

(** Number of coordinates of the [w] by [h] canvas whose distance exceeds 15. *)
Definition divergent (a b : Image) (w h : nat) : Z :=
  Z.of_nat (length (List.filter (exceeds a b) (coords w h))).

(** The score formula in exact arithmetic: [⌊diff_count / total_pixels * 100⌋]. *)
Definition exact_percentage (diff_count total_pixels : Z) : Z :=
  diff_count * 100 / total_pixels.

(** *** Sample images and a sample resampler *)

(** Cropping to the requested size keeps size and channel range. *)
Definition crop : Resize := λ img w h,
  Some {| width := w; height := h; pixels := pixels img |}.

Definition solid (w h : nat) (p : RGB) : Image :=
  {| width := w; height := h; pixels := λ _ _, p |}.

(** White, except for the first [k] pixels of the top row, which are black. *)
Definition top_run (w h k : nat) : Image :=
  {| width := w; height := h;
     pixels := λ x y, if bool_decide (y = 0 ∧ x < k)%nat then (0, 0, 0)
                      else (255, 255, 255) |}.

(** Nearest-neighbour resampling: the pixel at [(x, y)] is the source pixel
    at the same relative position. *)
Definition nearest : Resize := λ img w h,
  Some {| width := w; height := h;
          pixels := λ x y, pixels img (x * width img / w)%nat
                                      (y * height img / h)%nat |}.

(** Black above row [k], white from row [k] on. *)
Definition white_below (w h k : nat) : Image :=
  {| width := w; height := h;
     pixels := λ _ y, if bool_decide (k <= y)%nat then (255, 255, 255)
                      else (0, 0, 0) |}.

End PixelDiff.

(** ** The snapshot extractor, [extraction_script] in [src/main.py]

  The script runs in the page.  A DOM node is what the script reads from
  it; [getComputedStyle] and [getBoundingClientRect] are [None] when the
  call throws.  [innerText] and [textContent], which the script trims and
  cuts, are given by their UTF-16 code units; the strings it only compares
  or copies ([tagName], [id], the classes and the style values) are given
  as they arrive in Python. *)
Module Extractor.

Import Binary64.

(** A JavaScript string: its UTF-16 code units. *)
Definition jsstring : Type := list N.

Record CSSStyle := {
  display : string; visibility : string;
  color : string; backgroundColor : string; fontFamily : string;
  fontSize : string; fontWeight : string; textAlign : string
}.

(** A child in [node.childNodes]: a text node with its [textContent], or
    a node of another type. *)
Inductive ChildNode := text_node (textContent : jsstring) | other_node.

Record Node := {
  tagName : string;
  id : string;
  classList : list string;
  innerText : option jsstring;
  childNodes : list ChildNode;
  getComputedStyle : option CSSStyle;
  getBoundingClientRect : option DomDiff.Rect
}.

(** The page as the script sees it: the element nodes under [document.body]
    in the order [walker.nextNode()] yields them, and the scroll offsets. *)
Record Page := { nodes : list Node; scrollX : number; scrollY : number }.

(** White space and line terminators removed by [String.prototype.trim]:
    TAB, LF, VT, FF, CR, SPACE, NBSP, U+1680, U+2000 to U+200A, U+2028,
    U+2029, U+202F, U+205F, U+3000 and U+FEFF. *)
Definition is_space (c : N) : bool :=
  (bool_decide (c ∈ [9; 10; 11; 12; 13; 32; 160; 5760; 8232; 8233; 8239;
                     8287; 12288; 65279])
   || (8192 <=? c) && (c <=? 8202))%N.

Fixpoint trim_start (s : jsstring) : jsstring :=
  match s with
  | c :: rest => if is_space c then trim_start rest else s
  | [] => []
  end.

Definition trim (s : jsstring) : jsstring :=
  reverse (trim_start (reverse (trim_start s))).

(** [node.innerText?.trim().substring(0, 200)]; an undefined [innerText]
    ends, like an empty result, in the empty string of [snapshot_text]. *)
Definition cut_text (node : Node) : jsstring :=
  match innerText node with
  | Some s => take 200 (trim s)
  | None => []
  end.

(** [Array.from(node.childNodes).some(n => n.nodeType === Node.TEXT_NODE
    && n.textContent.trim().length > 0)] *)
Definition hasText (node : Node) : bool :=
  existsb (λ n, match n with
                | text_node t => bool_decide (0 < length (trim t))%nat
                | other_node => false
                end) (childNodes node).

Definition hidden (style : CSSStyle) (rect : DomDiff.Rect) : bool :=
  js_is_zero (DomDiff.width rect) || js_is_zero (DomDiff.height rect) ||
  bool_decide (display style = "none"%string) ||
  bool_decide (visibility style = "hidden"%string).

Definition qualifies (node : Node) : bool :=
  hasText node ||
  bool_decide (tagName node = "IMG"%string) ||
  bool_decide (tagName node = "BUTTON"%string) ||
  bool_decide (tagName node = "INPUT"%string).

Section Script.
(** What a JavaScript string becomes on its way into the Python list
    that [page.evaluate] returns; nothing is assumed of it. *)
Variable to_python : jsstring → string.

(** [node.innerText?.trim().substring(0, 200) || e] with [e] the empty
    string, as it arrives. *)
Definition snapshot_text (node : Node) : string :=
  match cut_text node with
  | [] => EmptyString
  | units => to_python units
  end.

(** The object pushed to [elements]. *)
Definition snapshot (page : Page) (node : Node) (style : CSSStyle)
           (rect : DomDiff.Rect) : DomDiff.Element :=
  {| DomDiff.tag := tagName node;
     DomDiff.id := Some (id node);
     DomDiff.classes := classList node;
     DomDiff.text := snapshot_text node;
     DomDiff.rect :=
       {| DomDiff.x := js_add (DomDiff.x rect) (scrollX page);
          DomDiff.y := js_add (DomDiff.y rect) (scrollY page);
          DomDiff.width := DomDiff.width rect;
          DomDiff.height := DomDiff.height rect |};
     DomDiff.styles :=
       list_to_map
         [ ("color", color style); ("background-color", backgroundColor style);
           ("font-family", fontFamily style); ("font-size", fontSize style);
           ("font-weight", fontWeight style); ("text-align", textAlign style)
         ]%string |}.

(** The [while (walker.nextNode())] loop; [None] is an exception leaving
    the script. *)
Fixpoint walk (page : Page) (remaining : list Node)
         (elements : list DomDiff.Element) : option (list DomDiff.Element) :=
  match remaining with
  | [] => Some elements
  | node :: rest =>
      style ← getComputedStyle node;
      rect ← getBoundingClientRect node;
      if hidden style rect then walk page rest elements
      else if qualifies node
           then walk page rest (elements ++ [snapshot page node style rect])
           else walk page rest elements
  end.

Definition extraction_script (page : Page) : option (list DomDiff.Element) :=
  walk page (nodes page) [].

(** The snapshot of a node whose reads succeed, if it is visible and
    qualifies. *)
Definition emitted (page : Page) (node : Node) : option DomDiff.Element :=
  style ← getComputedStyle node;
  rect ← getBoundingClientRect node;
  if hidden style rect then None
  else if qualifies node then Some (snapshot page node style rect) else None.
End Script.

(** *** Vocabulary of the specification *)

Definition throws (node : Node) : Prop :=
  getComputedStyle node = None ∨ getBoundingClientRect node = None.

(** *** Sample page *)

(** A literal of ASCII characters, and the transfer that gives the
    characters of code units below 256 back. *)
Definition js (s : string) : jsstring :=
  Ascii.N_of_ascii <$> String.list_ascii_of_string s.

Definition latin1 (units : jsstring) : string :=
  String.string_of_list_ascii (Ascii.ascii_of_N <$> units).

Definition plain_style : CSSStyle :=
  {| display := "block"; visibility := "visible";
     color := "rgb(0, 0, 0)"; backgroundColor := "rgba(0, 0, 0, 0)";
     fontFamily := "serif"; fontSize := "16px"; fontWeight := "400";
     textAlign := "start" |}.

Definition buy_button : Node :=
  {| tagName := "BUTTON"; id := "buy"; classList := ["cta"%string];
     innerText := Some (js " Buy "); childNodes := [text_node (js " Buy ")];
     getComputedStyle := Some plain_style;
     getBoundingClientRect := Some DomDiff.sample_rect |}.

(** A node whose style read throws. *)
Definition detached : Node :=
  {| tagName := "DIV"; id := EmptyString; classList := [];
     innerText := None; childNodes := [];
     getComputedStyle := None;
     getBoundingClientRect := Some DomDiff.sample_rect |}.

Definition page_of (ns : list Node) : Page :=
  {| nodes := ns; scrollX := finite (mk 0 0); scrollY := finite (mk 0 0) |}.

End Extractor.

(** ** The comparison run, [compare_images_logic] and [process_image_diff]
     in [src/main.py]

  The run drives a browser, writes files and updates the database.  The
  world holds the files and the two tables the run touches; the environment
  holds what the outside decides: whether the browser starts, what each URL
  serves, whether the report and the diff image can be written.  Creating
    the session folder and the database calls themselves are taken to
    succeed. *)
Module VisualRun.

(** *** Data *)

Inductive File :=
| png (img : option PixelDiff.Image)
| json_report (dom_diffs : list DomDiff.DiffEntry).

Record VisualAuditResult := {
  session_id : string;
  base_url : string;
  compare_url : string;
  diff_score : Z;
  base_image_path : string;
  compare_image_path : string;
  diff_image_path : string
}.

(** The columns of [AuditSession] this code assigns. *)
Record AuditSession := {
  status : string;
  completed : Z;
  completed_at : option Z
}.

Record World := {
  fs : gmap string File;
  results : list VisualAuditResult;
  sessions : gmap string AuditSession
}.

(** What a URL serves: whether [page.goto] succeeds, the file
    [page.screenshot] writes ([None]: it raises; [png None]: bytes that do
    not decode), and the page the extraction script runs in. *)
Record Site := {
  reachable : bool;
  screenshot : option File;
  page : Extractor.Page
}.

(** The rest of the environment of a run: whether the browser launches,
    the sites, whether the report and the diff image can be written, the
    clock, Pillow's resampler, and what the strings of the script become
    on their way to Python. *)
Record Env := {
  launch : bool;
  web : string → Site;
  report_writable : bool;
  diff_saveable : bool;
  utcnow : Z;
  resize : PixelDiff.Resize;
  transfer : Extractor.jsstring → string
}.

(** *** A state and exception monad for the run *)

Definition M (A : Type) : Type := World → option A * World.

Definition ret {A} (a : A) : M A := λ w, (Some a, w).

Definition raise {A} : M A := λ w, (None, w).

Definition bind {A B} (m : M A) (k : A → M B) : M B :=
  λ w, match m w with
       | (Some a, w') => k a w'
       | (None, w') => (None, w')
       end.

Notation "x <- m ;; k" := (bind m (λ x, k))
  (at level 100, m at next level, right associativity).

(** A raising library call. *)
Definition lift {A} (o : option A) : M A := λ w, (o, w).

Definition guard (b : bool) : M unit := if b then ret tt else raise.

Definition modify (f : World → World) : M unit := λ w, (Some tt, f w).

Definition read {A} (f : World → A) : M A := λ w, (Some (f w), w).

(** [try: body except Exception: handler] *)
Definition try_except (body handler : M unit) : M unit :=
  λ w, match body w with
       | (Some _, w') => (Some tt, w')
       | (None, w') => handler w'
       end.

(** *** Operations *)

Definition write (path : string) (f : File) (w : World) : World :=
  {| fs := <[path := f]> (fs w); results := results w; sessions := sessions w |}.

Definition session_folder (sid : string) : string := "diffs/" +:+ sid.
Definition base_path (sid : string) : string := session_folder sid +:+ "/base.png".
Definition compare_path (sid : string) : string := session_folder sid +:+ "/compare.png".
Definition report_path (sid : string) : string :=
  session_folder sid +:+ "/diff_report.json".
Definition diff_path (sid : string) : string := session_folder sid +:+ "/diff.png".

(** [page.goto(url)], [page.screenshot(path=path)],
    [page.evaluate(extraction_script)]. *)
Definition capture_page (env : Env) (url path : string)
  : M (list DomDiff.Element) :=
  _ <- guard (reachable (web env url)) ;;
  shot <- lift (screenshot (web env url)) ;;
  _ <- modify (write path shot) ;;
  lift (Extractor.extraction_script (transfer env) (page (web env url))).

(** The inner [try] around the DOM diff: a failure is printed and dropped. *)
Definition dom_diff_step (env : Env) (sid : string)
           (base_dom compare_dom : list DomDiff.Element) : M unit :=
  try_except
    (dom_diffs <- lift (DomDiff.compare_dom_elements base_dom compare_dom) ;;
     _ <- guard (report_writable env) ;;
     modify (write (report_path sid) (json_report dom_diffs)))
    (ret tt).

(** [Image.open(path).convert("RGB")] *)
Definition open_image (path : string) : M PixelDiff.Image :=
  f <- read (λ w, fs w !! path) ;;
  match f with
  | Some (png (Some img)) => ret img
  | _ => raise
  end.

(** [db.add(result)] and the lookup of the session row: with a row, the
    status is set and both are committed; without one nothing is committed,
    and [db.close()] drops the pending result. *)
Definition mark_completed (env : Env) (sid : string) (r : VisualAuditResult)
           (w : World) : World :=
  match sessions w !! sid with
  | Some _ =>
      {| fs := fs w;
         results := results w ++ [r];
         sessions :=
           <[sid := {| status := "completed"; completed := 1;
                       completed_at := Some (utcnow env) |}]> (sessions w) |}
  | None => w
  end.

Definition mark_error (sid : string) (w : World) : World :=
  {| fs := fs w;
     results := results w;
     sessions :=
       match sessions w !! sid with
       | Some s =>
           <[sid := {| status := "error"; completed := completed s;
                       completed_at := completed_at s |}]> (sessions w)
       | None => sessions w
       end |}.

Definition process_image_diff (env : Env) (sid burl curl : string) : M unit :=
  try_except
    (img1 <- open_image (base_path sid) ;;
     img2 <- open_image (compare_path sid) ;;
     let w := (PixelDiff.width img1 `min` PixelDiff.width img2)%nat in
     let h := (PixelDiff.height img1 `min` PixelDiff.height img2)%nat in
     rendered <- lift (PixelDiff.render_diff (resize env) img1 img2) ;;
     _ <- guard (diff_saveable env) ;;
     _ <- modify (write (diff_path sid) (png (Some rendered.1))) ;;
     let total_pixels := Z.of_nat w * Z.of_nat h in
     score <- lift (PixelDiff.diff_score rendered.2 total_pixels) ;;
     modify (mark_completed env sid
               {| session_id := sid; base_url := burl; compare_url := curl;
                  diff_score := score;
                  base_image_path := base_path sid;
                  compare_image_path := compare_path sid;
                  diff_image_path := diff_path sid |}))
    (modify (mark_error sid)).

(** The outer [try]: any exception of the capture is printed and passed. *)
Definition compare_images_logic (env : Env) (burl curl sid : string)
           (w : World) : World :=
  (try_except
     (_ <- guard (launch env) ;;
      base_dom <- capture_page env burl (base_path sid) ;;
      compare_dom <- capture_page env curl (compare_path sid) ;;
      _ <- dom_diff_step env sid base_dom compare_dom ;;
      process_image_diff env sid burl curl)
     (ret tt) w).2.

(** *** Vocabulary of the specification *)

Definition has_dom_artifact (w : World) (sid : string) : Prop :=
  is_Some (fs w !! report_path sid).

Definition has_pixel_result (w : World) (sid : string) : Prop :=
  ∃ r, r ∈ results w ∧ session_id r = sid.

Definition status_of (w : World) (sid : string) : option string :=
  status <$> sessions w !! sid.

(** Nothing of the session exists yet. *)
Definition fresh (w : World) (sid : string) : Prop :=
  fs w !! report_path sid = None ∧ ∀ r, r ∈ results w → session_id r ≠ sid.

(** The capture phase as a function of the environment: both DOM snapshots,
    or [None] when launch, navigation, screenshot or extraction fails. *)
Definition captured (env : Env) (burl curl : string)
  : option (list DomDiff.Element * list DomDiff.Element) :=
  if launch env then
    (if reachable (web env burl) then
       _ ← screenshot (web env burl);
       base_dom ← Extractor.extraction_script (transfer env) (page (web env burl));
       (if reachable (web env curl) then
          _ ← screenshot (web env curl);
          compare_dom ← Extractor.extraction_script (transfer env) (page (web env curl));
          Some (base_dom, compare_dom)
        else None)
     else None)
  else None.

Definition decode (f : File) : option PixelDiff.Image :=
  match f with
  | png (Some img) => Some img
  | _ => None
  end.

(** The pixel phase as a function of the environment: the score, or [None]
    when an image does not decode, the differ raises or the diff image
    cannot be saved. *)
Definition pixel_outcome (env : Env) (burl curl : string) : option Z :=
  img1 ← screenshot (web env burl) ≫= decode;
  img2 ← screenshot (web env curl) ≫= decode;
  rendered ← PixelDiff.render_diff (resize env) img1 img2;
  if diff_saveable env
  then PixelDiff.diff_score rendered.2
         (Z.of_nat (PixelDiff.width img1 `min` PixelDiff.width img2)%nat *
          Z.of_nat (PixelDiff.height img1 `min` PixelDiff.height img2)%nat)
  else None.

(** *** Sample environments *)

Definition shot_a : PixelDiff.Image := PixelDiff.top_run 100 1 29.
Definition shot_b : PixelDiff.Image := PixelDiff.solid 100 1 (255, 255, 255).

Definition site_up (img : option PixelDiff.Image) : Site :=
  {| reachable := true; screenshot := Some (png img);
     page := Extractor.page_of [Extractor.buy_button] |}.

Definition site_down : Site :=
  {| reachable := false; screenshot := None; page := Extractor.page_of [] |}.

Definition env_of (sites : string → Site) (writable : bool) : Env :=
  {| launch := true; web := sites; report_writable := writable;
     diff_saveable := true; utcnow := 0; resize := PixelDiff.crop;
     transfer := Extractor.latin1 |}.

(** Both pages render. *)
Definition both_up : string → Site :=
  λ url, if bool_decide (url = "http://a.test") then site_up (Some shot_a)
         else site_up (Some shot_b).

(** Both pages render, the base screenshot does not decode. *)
Definition base_corrupt : string → Site :=
  λ url, if bool_decide (url = "http://a.test") then site_up None
         else site_up (Some shot_b).

(** The base URL cannot be reached. *)
Definition base_down : string → Site :=
  λ url, if bool_decide (url = "http://a.test") then site_down
         else site_up (Some shot_b).

Definition running : AuditSession :=
  {| status := "running"; completed := 0; completed_at := None |}.

Definition world0 : World :=
  {| fs := ∅; results := []; sessions := {[ "vis_1" := running ]} |}.

End VisualRun.

(** ** Further vocabulary for the DOM differ *)
Module DomDiffMore.

Import DomDiff.

(** Elements that agree on everything the differ reads from a pair: tag,
    id, text and the six target properties. *)
Definition same_for_differ (base_el comp_el : Element) : Prop :=
  tag base_el = tag comp_el ∧ id base_el = id comp_el ∧
  text base_el = text comp_el ∧
  ∀ prop, prop ∈ target_styles → styles base_el !! prop = styles comp_el !! prop.

(** A style_change entry as the loop builds it: a non-empty mapping whose
    keys are target properties in their fixed order, each with two
    different values. *)
Definition well_formed_entry (e : DiffEntry) : Prop :=
  match e with
  | style_change _ sd _ _ =>
      sd ≠ [] ∧ sd.*1 `sublist_of` target_styles ∧
      Forall (λ pd, old pd.2 ≠ new pd.2) sd
  | _ => True
  end.

(** Two snapshots of one heading that differ in rect, classes and a
    property outside the target list. *)
Definition h1_plain : Element :=
  {| tag := "H1"; id := Some "title"; classes := []; text := "Hello";
     rect := sample_rect;
     styles := <["margin" := "0px"]> (sample_styles "rgb(0, 0, 0)") |}.

Definition h1_moved : Element :=
  {| tag := "H1"; id := Some "title"; classes := ["wide"]; text := "Hello";
     rect := {| x := Binary64.finite (Binary64.mk 40 0);
                y := Binary64.finite (Binary64.mk 8 0);
                width := Binary64.finite (Binary64.mk 300 0);
                height := Binary64.finite (Binary64.mk 20 0) |};
     styles := <["margin" := "8px"]> (sample_styles "rgb(0, 0, 0)") |}.

End DomDiffMore.

(** ** Further vocabulary for the snapshot extractor *)
Module ExtractorMore.

Import Binary64.

(** What every pushed snapshot satisfies: an id is present, the style map
    has exactly the six target properties, the rect has non-zero width and
    height, and the text is what arrives of at most 200 code units (the
    empty string when there are none). *)
Definition snapshot_invariant (to_python : Extractor.jsstring → string)
           (el : DomDiff.Element) : Prop :=
  is_Some (DomDiff.id el) ∧
  (∀ prop, is_Some (DomDiff.styles el !! prop) ↔ prop ∈ DomDiff.target_styles) ∧
  js_is_zero (DomDiff.width (DomDiff.rect el)) = false ∧
  js_is_zero (DomDiff.height (DomDiff.rect el)) = false ∧
  ∃ units : Extractor.jsstring,
    (length units <= 200)%nat ∧
    DomDiff.text el = match units with
                      | [] => EmptyString
                      | _ => to_python units
                      end.

(** A paragraph with padded text (an ideographic space in front, a line
    separator behind), and the same page scrolled. *)
Definition long_paragraph : Extractor.Node :=
  {| Extractor.tagName := "P"; Extractor.id := "intro";
     Extractor.classList := [];
     Extractor.innerText :=
       Some ([12288; 32]%N ++ Extractor.js "Lorem ipsum dolor sit amet"
             ++ [32; 8232]%N);
     Extractor.childNodes :=
       [Extractor.text_node (Extractor.js "Lorem ipsum dolor sit amet")];
     Extractor.getComputedStyle := Some Extractor.plain_style;
     Extractor.getBoundingClientRect := Some DomDiff.sample_rect |}.

Definition scrolled (ns : list Extractor.Node) : Extractor.Page :=
  {| Extractor.nodes := ns;
     Extractor.scrollX := finite (mk 0 0);
     Extractor.scrollY := finite (mk 600 0) |}.

End ExtractorMore.

(** ** Reading and deleting what a run produced: [get_any_results] and
     [perform_session_cleanup] in [src/main.py] *)
Module VisualServe.

Import VisualRun.

(** *** The results endpoint *)

Record ResultItem := { score : Z; diff_img : string }.

Record VisualResponse := {
  response_results : list ResultItem;
  dom_diffs : list DomDiff.DiffEntry
}.

(** The outcomes of [get_any_results]: an [HTTPException], the payload of a
    visual session, or the payload of a session of another type, whose
    branches are outside this development. *)
Inductive Response :=
| http_error (status_code : Z)
| visual (data : VisualResponse)
| other_session_type.

(** [db.query(VisualAuditResult).filter_by(session_id=sid).all()] *)
Definition results_for (sid : string) (w : World) : list VisualAuditResult :=
  List.filter (λ r, bool_decide (session_id r = sid)) (results w).

(** The report as the endpoint loads it: the decoded list when the file
    exists and is a report, the initial empty list otherwise (missing file,
    or [json.load] raising under the bare [except]). *)
Definition load_report (sid : string) (w : World) : list DomDiff.DiffEntry :=
  match fs w !! report_path sid with
  | Some (json_report d) => d
  | _ => []
  end.

(** [user] is what [get_current_user_from_cookie] returned; [session_type]
    is the column of that name of the session row. *)
Definition get_any_results (user : option string) (session_type : string)
           (sid : string) (w : World) : Response :=
  match user with
  | None => http_error 401
  | Some _ =>
      match sessions w !! sid with
      | None => http_error 404
      | Some _ =>
          if bool_decide (session_type = "visual")
          then visual
                 {| response_results :=
                      (λ r, {| score := diff_score r;
                               diff_img := diff_image_path r |})
                        <$> results_for sid w;
                    dom_diffs := load_report sid w |}
          else other_session_type
      end
  end.

(** *** Cleanup

    Of the tables [perform_session_cleanup] deletes from, the world holds
    [VisualAuditResult]; of the folders it removes, the world's files may
    lie under any.  A folder is the set of paths below it. *)

(** [path] lies below the directory [folder]: it extends [folder] by a
    slash.  This is how the operating system reads the two when [folder]
    is made of plain components (non-empty, other than [.] and [..]), as
    the three folders of a [plain_id] are. *)
Definition under (folder path : string) : bool :=
  String.prefix (folder +:+ "/") path.

Definition folders (sid : string) : list string :=
  [ "screenshots/" +:+ sid; "videos/" +:+ sid; "diffs/" +:+ sid ].

(** [os.path.exists(folder)] *)
Definition folder_exists (folder : string) (files : gmap string File) : bool :=
  bool_decide (∃ p, p ∈ dom files ∧ under folder p = true).

(** [shutil.rmtree(folder)].  [survives p] is whether a failure of the call
    left the file [p] in place: a call that succeeds leaves none, a call
    that raises may have removed some of the tree already. *)
Definition rmtree (survives : string → bool) (folder : string)
           (files : gmap string File) : gmap string File :=
  filter (λ kv, under folder kv.1 = false ∨ survives kv.1 = true) files.

(** One turn of the loop over the folders; an exception of [rmtree] is
    printed and the loop goes on. *)
Definition remove_folder (survives : string → string → bool)
           (files : gmap string File) (folder : string) : gmap string File :=
  if folder_exists folder files
  then rmtree (survives folder) folder files
  else files.

(** [db_ok] is whether the deletes of the first [try] reach and pass the
    one on [VisualAuditResult]: an exception before it skips the rest and
    is printed.  The deletes are left to the caller to commit; the session
    row is not touched (child records only). *)
Definition perform_session_cleanup (db_ok : bool)
           (survives : string → string → bool) (sid : string) (w : World)
  : World :=
  {| fs := foldl (remove_folder survives) (fs w) (folders sid);
     results :=
       if db_ok
       then List.filter (λ r, bool_decide (session_id r ≠ sid)) (results w)
       else results w;
     sessions := sessions w |}.

(** *** Vocabulary of the specification *)

(** The four files a run may write. *)
Definition session_paths (sid : string) : list string :=
  [ base_path sid; compare_path sid; report_path sid; diff_path sid ].

(** [w'] differs from [w] only in what belongs to session [sid]: its four
    files, its row, and result rows of its own appended at the end. *)
Definition only_session_changed (sid : string) (w w' : World) : Prop :=
  (∀ p, p ∉ session_paths sid → fs w' !! p = fs w !! p) ∧
  (∀ sid', sid' ≠ sid → sessions w' !! sid' = sessions w !! sid') ∧
  dom (sessions w') = dom (sessions w) ∧
  ∃ new, results w' = results w ++ new ∧
         Forall (λ r, session_id r = sid) new.

(** Whether a string holds a slash. *)
Fixpoint has_slash (s : string) : bool :=
  match s with
  | EmptyString => false
  | String c s => bool_decide (String c EmptyString = "/") || has_slash s
  end.

(** A session id that is one plain path component: not empty, without a
    slash, and neither [.] nor [..]. *)
Definition plain_id (s : string) : bool :=
  negb (has_slash s) &&
  bool_decide (s ≠ EmptyString ∧ s ≠ "." ∧ s ≠ "..").

(** A computation that keeps [only_session_changed] from any start. *)
Definition framed (sid : string) {A} (m : M A) : Prop :=
  ∀ w, only_session_changed sid w (m w).2.

(** A world with two sessions and files of both. *)
Definition other_result : VisualAuditResult :=
  {| session_id := "vis_12"; base_url := "http://c.test";
     compare_url := "http://d.test"; diff_score := 7;
     base_image_path := base_path "vis_12";
     compare_image_path := compare_path "vis_12";
     diff_image_path := diff_path "vis_12" |}.

Definition world2 : World :=
  {| fs := {[ report_path "vis_12" := json_report [];
              base_path "vis_1" := png None ]};
     results := [other_result];
     sessions := {[ "vis_1" := running; "vis_12" := running ]} |}.

End VisualServe.

(** ** Names for result files: [get_unique_filename] in [src/main.py] *)
Module UniqueName.

(** A Python [str]: its code points. *)
Definition str : Type := list N.

(** A literal of ASCII characters. *)
Definition py (s : string) : str :=
  Ascii.N_of_ascii <$> String.list_ascii_of_string s.

Definition slash : N := 47%N.
Definition dot : N := 46%N.
Definition hyphen : N := 45%N.

(** The two components of [urllib.parse.urlparse(url)] the code reads. *)
Record ParseResult := { netloc : str; path : str }.

(** [s.lstrip(c)], [s.rstrip(c)] and [s.strip(c)] for a one-character [c]. *)
Fixpoint lstrip (c : N) (s : str) : str :=
  match s with
  | x :: rest => if bool_decide (x = c) then lstrip c rest else s
  | [] => []
  end.

Definition rstrip (c : N) (s : str) : str := rev (lstrip c (rev s)).

Definition strip (c : N) (s : str) : str := rstrip c (lstrip c s).

(** [s.split(c)]: the pieces between the occurrences of [c], empty ones
    included; the empty string gives one empty piece. *)
Fixpoint split (c : N) (s : str) : list str :=
  match s with
  | [] => [[]]
  | x :: rest =>
      if bool_decide (x = c) then [] :: split c rest
      else match split c rest with
           | seg :: segs => (x :: seg) :: segs
           | [] => [[x]]
           end
  end.

(** [s.startswith(old)] *)
Fixpoint startswith (old s : str) : bool :=
  match old, s with
  | [], _ => true
  | o :: old', x :: s' => bool_decide (x = o) && startswith old' s'
  | _ :: _, [] => false
  end.

(** [s.replace(old, e)] with [e] the empty string and [old] non-empty: the
    occurrences are found from the left and do not overlap; [skip] counts
    the code points of a found occurrence still to pass. *)
Fixpoint remove_go (old : str) (skip : nat) (s : str) : str :=
  match s with
  | [] => []
  | x :: rest =>
      match skip with
      | S k => remove_go old k rest
      | O => if startswith old s
             then remove_go old (length old - 1) rest
             else x :: remove_go old 0 rest
      end
  end.

Definition remove_all (old s : str) : str := remove_go old 0 s.

(** [re.sub(pattern, "-", s)] for a pattern that is one negated character
    class: every code point outside the class becomes a hyphen. *)
Definition sub_outside (class : N → bool) (s : str) : str :=
  (λ x, if class x then x else hyphen) <$> s.

Section Unicode.
(** [\w] of [re] on [str] patterns, [str.lower], and the parser, which
    raises on some inputs. *)
Variable word : N → bool.
Variable lower : str → str.
Variable urlparse : string → option ParseResult.

(** [domain], from [parsed.netloc]. *)
Definition domain (netloc : str) : str :=
  sub_outside (λ x, word x || bool_decide (x = dot) || bool_decide (x = hyphen))
              (remove_all (py "www.") netloc).

(** [page_name], from [parsed.path]. *)
Definition page_name (parsed_path : str) : str :=
  let path := strip slash parsed_path in
  if bool_decide (path = [] ∨ path = py "/") then py "home"
  else
    let segments :=
      List.filter (λ s, negb (bool_decide (s = []))) (split slash path) in
    match last segments with
    | Some segment =>
        let page_name := hd [] (split dot segment) in
        let page_name :=
          lower (strip hyphen
                   (sub_outside (λ x, word x || bool_decide (x = hyphen))
                                page_name)) in
        let page_name :=
          if bool_decide (page_name = [] ∨ page_name = py "index"
                          ∨ page_name = py "home")
          then py "home" else page_name in
        if (50 <? length page_name)%nat
        then take 47 page_name ++ py "..."
        else page_name
    | None => py "home"
    end.

Definition get_unique_filename (url : string) : option str :=
  parsed ← urlparse url;
  Some (page_name (path parsed) ++ py "__" ++ domain (netloc parsed)).
End Unicode.

(** *** Vocabulary of the specification *)

(** The code points a domain part may hold. *)
Definition domain_char (word : N → bool) (x : N) : Prop :=
  word x = true ∨ x = dot ∨ x = hyphen.

(** *** Samples: the ASCII part of [\w] and of [lower], and a parser that
    knows three URLs *)

Definition ascii_word (x : N) : bool :=
  ((48 <=? x) && (x <=? 57) || (65 <=? x) && (x <=? 90) ||
   (97 <=? x) && (x <=? 122) || (x =? 95))%N.

Definition ascii_lower (s : str) : str :=
  (λ x, if ((65 <=? x) && (x <=? 90))%N then (x + 32)%N else x) <$> s.

Definition sample_urlparse (url : string) : option ParseResult :=
  if bool_decide (url = "https://www.shop.test/en/sale/Shoes.html")
  then Some {| netloc := py "www.shop.test"; path := py "/en/sale/Shoes.html" |}
  else if bool_decide (url = "https://shop.test/Shoes.html")
  then Some {| netloc := py "shop.test"; path := py "/Shoes.html" |}
  else if bool_decide (url = "https://shop.test/")
  then Some {| netloc := py "shop.test"; path := py "/" |}
  else None.

End UniqueName.

(** * Properties *)

(** ** Rounding facts of the binary64 model *)
Module Binary64Facts.
Import Binary64.

Lemma pow2_pos k : 0 < 2 ^ k ∨ k < 0.
Proof. destruct (Z_lt_le_dec k 0); [by right | left; by apply Z.pow_pos_nonneg]. Qed.

Lemma pow2_gt0 k : 0 <= k → 0 < 2 ^ k.
Proof. intros. by apply Z.pow_pos_nonneg. Qed.

(** *** Rounding to the nearest integer *)

Lemma round_half_even_range n d :
  0 <= n → 0 < d →
  n / d <= round_half_even n d <= n / d + 1 ∧
  (n mod d = 0 → round_half_even n d = n / d).
Proof.
  intros Hn Hd. unfold round_half_even.
  destruct (Z.compare_spec (2 * (n mod d)) d) as [H|H|H].
  - split; [destruct (Z.even (n / d)); lia | lia].
  - split; lia.
  - split; lia.
Qed.

Lemma round_half_even_le n d B :
  0 <= n → 0 < d → n <= B * d → 0 <= round_half_even n d <= B.
Proof.
  intros Hn Hd HB.
  destruct (round_half_even_range n d Hn Hd) as [[Hlo Hhi] Hex].
  assert (0 <= n / d) by (apply Z.div_pos; lia).
  split; [lia|].
  destruct (Z.eq_dec n (B * d)) as [->|Hne].
  - rewrite Hex by (apply Z.mod_mul; lia). rewrite Z.div_mul by lia. lia.
  - assert (n / d < B); [|lia].
    apply Z.div_lt_upper_bound; lia.
Qed.

(** *** The binade of a ratio *)

Lemma ilog2_ratio_lower n d :
  0 < n → 0 < d → 0 <= ilog2_ratio n d → d * 2 ^ ilog2_ratio n d <= n.
Proof.
  intros Hn Hd. unfold ilog2_ratio.
  destruct (Z.log2_spec n Hn) as [Hn1 Hn2].
  destruct (Z.log2_spec d Hd) as [Hd1 Hd2].
  pose proof (Z.log2_nonneg n) as Ha. pose proof (Z.log2_nonneg d) as Hb.
  set (a := Z.log2 n) in *. set (b := Z.log2 d) in *.
  destruct (Z.ltb_spec (n * 2 ^ b) (d * 2 ^ a)) as [Hlt|Hge]; intros Hk.
  - replace a with ((a - b - 1) + Z.succ b) in Hn1 by lia.
    rewrite Z.pow_add_r in Hn1 by lia.
    assert (0 < 2 ^ (a - b - 1)) by (apply pow2_gt0; lia). nia.
  - replace a with ((a - b) + b) in Hge at 1 by lia.
    rewrite Z.pow_add_r in Hge by lia.
    assert (0 < 2 ^ b) by (apply pow2_gt0; lia).
    assert (0 < 2 ^ (a - b)) by (apply pow2_gt0; lia). nia.
Qed.

Lemma ilog2_ratio_upper n d :
  0 < n → 0 < d → ilog2_ratio n d <= 52 →
  n * 2 ^ (52 - ilog2_ratio n d) < d * 2 ^ 53.
Proof.
  intros Hn Hd. unfold ilog2_ratio.
  destruct (Z.log2_spec n Hn) as [Hn1 Hn2].
  destruct (Z.log2_spec d Hd) as [Hd1 Hd2].
  pose proof (Z.log2_nonneg n) as Ha. pose proof (Z.log2_nonneg d) as Hb.
  set (a := Z.log2 n) in *. set (b := Z.log2 d) in *.
  destruct (Z.ltb_spec (n * 2 ^ b) (d * 2 ^ a)) as [Hlt|Hge]; intros Hk.
  - replace (52 - (a - b - 1)) with (53 - a + b) by lia.
    destruct (Z_le_gt_dec a 53) as [Ha53|Ha53].
    + rewrite Z.pow_add_r by lia.
      assert (2 ^ 53 = 2 ^ (53 - a) * 2 ^ a) as ->.
      { rewrite <- Z.pow_add_r by lia. f_equal. lia. }
      assert (0 < 2 ^ (53 - a)) by (apply pow2_gt0; lia). nia.
    + assert (2 ^ b = 2 ^ (53 - a + b) * 2 ^ (a - 53)) as Hb'.
      { rewrite <- Z.pow_add_r by lia. f_equal. lia. }
      assert (2 ^ a = 2 ^ 53 * 2 ^ (a - 53)) as Ha'.
      { rewrite <- Z.pow_add_r by lia. f_equal. lia. }
      rewrite Hb', Ha' in Hlt.
      assert (0 < 2 ^ (a - 53)) by (apply pow2_gt0; lia). nia.
  - replace (Z.succ a) with (a + 1) in Hn2 by lia.
    assert (2 ^ (a + 1) * 2 ^ (52 - (a - b)) = 2 ^ b * 2 ^ 53) as Heq.
    { rewrite <- !Z.pow_add_r by lia. f_equal. lia. }
    assert (0 < 2 ^ (52 - (a - b))) by (apply pow2_gt0; lia).
    assert (0 < 2 ^ 53) by (by apply pow2_gt0). nia.
Qed.

(** *** Rounding a bounded non-negative ratio *)

Lemma overflow_threshold_big : 2 ^ 53 < overflow_threshold.
Proof. unfold overflow_threshold. apply Z.pow_lt_mono_r; lia. Qed.

Lemma round_half_even_error n d :
  0 <= n → 0 < d → 2 * Z.abs (round_half_even n d * d - n) <= d.
Proof.
  intros Hn Hd. unfold round_half_even.
  pose proof (Z.div_mod n d ltac:(lia)) as Hdm.
  pose proof (Z.mod_pos_bound n d Hd) as Hr.
  destruct (Z.compare_spec (2 * (n mod d)) d) as [H|H|H].
  - destruct (Z.even (n / d)); nia.
  - nia.
  - nia.
Qed.

(** A positive ratio of at most [B <= 2 ^ j] rounds without overflow, with
    an exponent of at most [j - 52], a significand of at most 53 bits, and
    an error of at most half a unit in the last place. *)
Lemma round_pos_bound n d B j :
  0 < n → 0 < d → n <= B * d → B <= 2 ^ j → 0 <= j <= 52 →
  ∃ m e, round_pos n d = Some (mk m e) ∧ emin <= e <= j - 52 ∧
         0 <= m <= B * 2 ^ (- e) ∧ m <= 2 ^ 53 ∧
         2 * Z.abs (m * d - n * 2 ^ (- e)) <= d.
Proof.
  intros Hn Hd HB HBj Hj. unfold round_pos, ulp_exp.
  assert (0 < 2 ^ j) as Hpj by (apply pow2_gt0; lia).
  assert (ilog2_ratio n d <= j) as Hk.
  { destruct (Z_le_gt_dec (ilog2_ratio n d) j) as [|Hgt]; [done|exfalso].
    pose proof (ilog2_ratio_lower n d Hn Hd ltac:(lia)) as Hlow.
    assert (2 ^ (j + 1) <= 2 ^ ilog2_ratio n d) by (apply Z.pow_le_mono_r; lia).
    assert (2 ^ (j + 1) = 2 * 2 ^ j) by (rewrite Z.pow_add_r by lia; lia).
    nia. }
  pose proof (ilog2_ratio_upper n d Hn Hd ltac:(lia)) as Hup.
  set (e := Z.max (ilog2_ratio n d - 52) emin) in *.
  assert (emin <= e <= j - 52) as He by (unfold emin in *; lia).
  assert (ilog2_ratio n d - 52 <= e) as He' by lia.
  replace (Z.max 0 e) with 0 by lia.
  replace (Z.max 0 (- e)) with (- e) by lia.
  rewrite Z.pow_0_r, !Z.mul_1_r.
  assert (0 < 2 ^ (- e)) as Hpe by (apply pow2_gt0; lia).
  assert (2 ^ (- e) <= 2 ^ (52 - ilog2_ratio n d)) as Hpe'
    by (apply Z.pow_le_mono_r; lia).
  set (m := round_half_even (n * 2 ^ (- e)) d).
  assert (0 <= m <= B * 2 ^ (- e)) as Hm.
  { apply round_half_even_le; [nia | done | nia]. }
  assert (m <= 2 ^ 53) as Hm53.
  { apply round_half_even_le; [nia | done | nia]. }
  pose proof overflow_threshold_big as Hbig.
  destruct (Z.leb_spec overflow_threshold m) as [Hov|_]; [lia|].
  exists m, e. split_and!; [done|lia|lia|lia|lia|done|].
  apply round_half_even_error; [nia|done].
Qed.

Lemma fround_pos n d : 0 < n → fround n d = round_pos n d.
Proof. intros Hn. unfold fround. by destruct (Z.compare_spec n 0); try lia. Qed.

Lemma fround_bound n d B :
  0 <= n → 0 < d → n <= B * d → 1 <= B <= 2 ^ 52 →
  ∃ m e, fround n d = Some (mk m e) ∧ e <= 0 ∧ 0 <= m <= B * 2 ^ (- e).
Proof.
  intros Hn Hd HB HB52. unfold fround.
  destruct (Z.compare_spec n 0) as [->|Hlt|Hgt]; [|lia|].
  - exists 0, 0. split_and!; try done. simpl. lia.
  - destruct (round_pos_bound n d B 52 Hgt Hd HB) as (m & e & -> & He & Hm & _); [lia..|].
    exists m, e. split_and!; [done|lia|lia|lia].
Qed.

Lemma to_int_bound m e B :
  e <= 0 → 0 <= m <= B * 2 ^ (- e) → 0 <= to_int (mk m e) <= B.
Proof.
  intros He Hm. unfold to_int. simpl.
  replace (Z.max 0 e) with 0 by lia. replace (Z.max 0 (- e)) with (- e) by lia.
  rewrite Z.pow_0_r, Z.mul_1_r.
  assert (0 < 2 ^ (- e)) by (apply pow2_gt0; lia).
  rewrite Z.quot_div_nonneg by lia. split.
  - apply Z.div_pos; lia.
  - apply Z.div_le_upper_bound; lia.
Qed.

Lemma of_int_100 : of_int 100 = Some (mk (100 * 2 ^ 46) (-46)).
Proof. by vm_compute. Qed.

Lemma fmul_bound m e B k :
  e <= 0 → 0 <= m <= B * 2 ^ (- e) → 0 <= B → 0 <= k → 1 <= B * k <= 2 ^ 52 →
  ∃ m' e', fmul (mk m e) (mk (k * 2 ^ 46) (-46)) = Some (mk m' e') ∧
           e' <= 0 ∧ 0 <= m' <= (B * k) * 2 ^ (- e').
Proof.
  intros He Hm HB Hk HBk. unfold fmul. simpl.
  replace (Z.max 0 (e + -46)) with 0 by lia.
  replace (Z.max 0 (- (e + -46))) with (- e + 46) by lia.
  rewrite Z.pow_0_r, Z.mul_1_r.
  assert (0 < 2 ^ (- e)) by (apply pow2_gt0; lia).
  assert (0 < 2 ^ 46) by (by apply pow2_gt0).
  apply fround_bound; [nia| |rewrite Z.pow_add_r by lia; nia|done].
  apply pow2_gt0. lia.
Qed.

End Binary64Facts.

(** ** The DOM differ *)
Module DomDiffFacts.
Import DomDiff.

(** *** Boolean tests against their meaning *)

Lemma truthy_nonempty c : truthy (id c) = true ↔ nonempty_id c.
Proof.
  unfold truthy, nonempty_id. destruct (id c) as [s|].
  - rewrite bool_decide_eq_true. split.
    + intros Hs. by exists s.
    + intros (s' & [= <-] & Hs). done.
  - split; [done | by intros (s & ? & _)].
Qed.

Lemma id_tag_eq_spec c b : id_tag_eq c b = true ↔ same_id_tag c b.
Proof.
  unfold id_tag_eq, same_id_tag.
  by rewrite andb_true_iff, !bool_decide_eq_true.
Qed.

Lemma tag_text_eq_spec c b : tag_text_eq c b = true ↔ same_tag_text c b.
Proof.
  unfold tag_text_eq, same_tag_text.
  by rewrite andb_true_iff, !bool_decide_eq_true.
Qed.

(** *** The search loop *)

Lemma first_index_Some p u i :
  first_index p u = Some i →
  ∃ l1 b l2, u = l1 ++ (i, b) :: l2 ∧ p b = true ∧
             Forall (λ kv, p kv.2 = false) l1.
Proof.
  induction u as [|[k e] u IH]; simpl; [done|].
  destruct (p e) eqn:Hp.
  - intros [= <-]. exists [], e, u. by rewrite Forall_nil.
  - intros (l1 & b & l2 & -> & Hb & Hl1)%IH.
    exists ((k, e) :: l1), b, l2. split_and!; [done|done|].
    by constructor.
Qed.

Lemma first_index_None p u :
  first_index p u = None → Forall (λ kv, p kv.2 = false) u.
Proof.
  induction u as [|[k e] u IH]; simpl; [by constructor|].
  destruct (p e) eqn:Hp; [done|]. intros Hn. constructor; auto.
Qed.

Lemma none_of_bool (P : Element → Prop) (p : Element → bool) l :
  (∀ b, p b = true ↔ P b) →
  Forall (λ kv : nat * Element, p kv.2 = false) l → none_of P l.
Proof.
  intros Hp Hl. unfold none_of. eapply Forall_impl; [exact Hl|].
  intros kv Hkv HP. apply Hp in HP. congruence.
Qed.

(** *** The dict operations under unique keys *)

Lemma get_middle l1 i b l2 :
  i ∉ l1.*1 → get i (l1 ++ (i, b) :: l2) = Some b.
Proof.
  induction l1 as [|[k e] l1 IH]; simpl.
  - intros _. by rewrite bool_decide_eq_true_2.
  - intros Hni. apply not_elem_of_cons in Hni as [Hne Hni].
    rewrite bool_decide_eq_false_2 by done. auto.
Qed.

Lemma del_middle l1 i b l2 :
  i ∉ l1.*1 → del i (l1 ++ (i, b) :: l2) = l1 ++ l2.
Proof.
  induction l1 as [|[k e] l1 IH]; simpl.
  - intros _. by rewrite bool_decide_eq_true_2.
  - intros Hni. apply not_elem_of_cons in Hni as [Hne Hni].
    rewrite bool_decide_eq_false_2 by done. by rewrite IH.
Qed.

Lemma del_sublist i u : del i u `sublist_of` u.
Proof.
  induction u as [|[k e] u IH]; simpl; [done|].
  case_bool_decide; [by apply sublist_cons | by apply sublist_skip].
Qed.

Lemma NoDup_middle (l1 : Unmatched) i b l2 :
  NoDup (l1 ++ (i, b) :: l2).*1 → (i ∉ l1.*1) ∧ (i ∉ (l1 ++ l2).*1).
Proof.
  rewrite !fmap_app, fmap_cons. simpl. intros Hnd.
  apply NoDup_app in Hnd as (_ & Hdisj & [Hi2 _]%NoDup_cons).
  assert (i ∉ l1.*1) as Hi1.
  { intros Hi1. apply (Hdisj i Hi1). by left. }
  split; [done|]. by intros [?|?]%elem_of_app.
Qed.

Lemma sublist_keys (u v : Unmatched) :
  u `sublist_of` v → u.*1 `sublist_of` v.*1.
Proof. intros Hs. by apply fmap_sublist. Qed.

Lemma NoDup_keys_sublist (u v : Unmatched) :
  u `sublist_of` v → NoDup v.*1 → NoDup u.*1.
Proof.
  intros Hs Hnd. by apply (sublist_NoDup _ _ Hnd), sublist_keys.
Qed.

Lemma enumerate_keys base : (enumerate base).*1 = seq 0 (length base).
Proof.
  unfold enumerate. rewrite fmap_imap.
  etrans; [apply (imap_ext _ (λ j _, (λ i : nat, i) j)); done|].
  rewrite (imap_seq_0 base (λ i : nat, i)). apply list_fmap_id.
Qed.

Lemma enumerate_NoDup base : NoDup (enumerate base).*1.
Proof. rewrite enumerate_keys. apply NoDup_seq. Qed.

Lemma enumerate_lookup base i b :
  (i, b) ∈ enumerate base → base !! i = Some b.
Proof.
  unfold enumerate. intros (j & Hj)%list_elem_of_lookup.
  rewrite list_lookup_imap in Hj.
  destruct (base !! j) eqn:Hb; simpl in Hj; [|done].
  by injection Hj as <- <-.
Qed.

Lemma first_index_key p u i : first_index p u = Some i → i ∈ u.*1.
Proof.
  intros (l1 & b & l2 & -> & _)%first_index_Some.
  rewrite fmap_app, fmap_cons. apply elem_of_app. right. by left.
Qed.

Lemma find_match_key u c i : find_match u c = Some i → i ∈ u.*1.
Proof.
  unfold find_match.
  destruct (truthy (id c)); [destruct (first_index (id_tag_eq c) u) eqn:Hid|].
  - intros [= <-]. by eapply first_index_key.
  - apply first_index_key.
  - apply first_index_key.
Qed.

Lemma first_of_bool (P : Element → Prop) (p : Element → bool) u i :
  (∀ b, p b = true ↔ P b) → NoDup u.*1 →
  first_index p u = Some i →
  ∃ b, first_of P u i b (del i u) ∧ get i u = Some b ∧ i ∉ (del i u).*1.
Proof.
  intros Hp Hnd (l1 & b & l2 & -> & Hb & Hl1)%first_index_Some.
  apply NoDup_middle in Hnd as [Hi1 Hi12].
  exists b. rewrite del_middle, get_middle by done. split_and!; [|done|done].
  exists l1, l2. split_and!; [done| by apply Hp | by eapply none_of_bool | done].
Qed.

(** [find_match] implements the matching rule; under unique keys [pop]
    returns the element the search stopped at and removes exactly it. *)
Lemma find_match_policy u c :
  NoDup u.*1 →
  ∃ m rest,
    Policy u c m rest ∧ find_match u c = fst <$> m ∧
    rest `sublist_of` u ∧
    match m with
    | Some (i, b) => pop i u = Some (b, rest) ∧ i ∉ rest.*1
    | None => True
    end.
Proof.
  intros Hnd. unfold find_match, pop.
  assert (id_search_fails u c →
    ∃ m rest, Policy u c m rest ∧
      first_index (tag_text_eq c) u = fst <$> m ∧ rest `sublist_of` u ∧
      match m with
      | Some (i, b) => get i u ≫= (λ el, Some (el, del i u)) = Some (b, rest) ∧ i ∉ rest.*1
      | None => True
      end) as Htext.
  { intros Hfail. destruct (first_index (tag_text_eq c) u) as [i|] eqn:Htx.
    - destruct (first_of_bool _ _ u i (tag_text_eq_spec c) Hnd Htx)
        as (b & Hfirst & Hget & Hni).
      exists (Some (i, b)), (del i u). rewrite Hget. simpl.
      split_and!; [by apply by_text|done|apply del_sublist|done|done].
    - exists None, u. split_and!; [|done|done|done].
      apply no_match; [done|].
      eapply none_of_bool; [apply tag_text_eq_spec | by apply first_index_None]. }
  destruct (truthy (id c)) eqn:Hid.
  - destruct (first_index (id_tag_eq c) u) as [i|] eqn:Hix.
    + destruct (first_of_bool _ _ u i (id_tag_eq_spec c) Hnd Hix)
        as (b & Hfirst & Hget & Hni).
      exists (Some (i, b)), (del i u). rewrite Hget. simpl.
      split_and!; [|done|apply del_sublist|done|done].
      apply by_id; [by apply truthy_nonempty | done].
    + apply Htext. right.
      eapply none_of_bool; [apply id_tag_eq_spec | by apply first_index_None].
  - apply Htext. left. rewrite <- truthy_nonempty. congruence.
Qed.

Lemma step_policy st c :
  NoDup (unmatched_base st).*1 →
  ∃ m rest,
    Policy (unmatched_base st) c m rest ∧
    find_match (unmatched_base st) c = fst <$> m ∧
    step st c = Some {| unmatched_base := rest;
                        diffs := diffs st ++ entries_for c m |} ∧
    rest `sublist_of` unmatched_base st ∧
    match m with
    | Some (i, b) => (i, b) ∈ unmatched_base st ∧ rest = del i (unmatched_base st) ∧ i ∉ rest.*1
    | None => rest = unmatched_base st
    end.
Proof.
  intros Hnd.
  destruct (find_match_policy (unmatched_base st) c Hnd)
    as (m & rest & Hpol & Hfind & Hsub & Hm).
  exists m, rest. unfold step. rewrite Hfind.
  destruct m as [[i b]|]; simpl.
  - destruct Hm as [Hpop Hni]. rewrite Hpop. simpl.
    split_and!; try done.
    + inversion Hpol as [? ? ? _ (l1 & l2 & -> & _)|? ? ? _ (l1 & l2 & -> & _)|];
        subst; apply elem_of_app; right; by left.
    + unfold pop in Hpop. destruct (get i (unmatched_base st)); simpl in Hpop; congruence.
  - assert (rest = unmatched_base st) as -> by (by inversion Hpol).
    by split_and!.
Qed.

(** *** The loop *)

Lemma run_app st pre post :
  run st (pre ++ post) = run st pre ≫= λ st', run st' post.
Proof.
  revert st. induction pre as [|c pre IH]; intros st; simpl; [done|].
  destruct (step st c) as [st1|]; simpl; [apply IH | done].
Qed.

Lemma run_invariant st cs :
  NoDup (unmatched_base st).*1 →
  ∃ st', run st cs = Some st' ∧
         unmatched_base st' `sublist_of` unmatched_base st.
Proof.
  revert st. induction cs as [|c cs IH]; intros st Hnd; simpl.
  - by exists st.
  - destruct (step_policy st c Hnd) as (m & rest & _ & _ & Hstep & Hsub & _).
    rewrite Hstep. simpl.
    destruct (IH {| unmatched_base := rest;
                    diffs := diffs st ++ entries_for c m |}) as (st' & Hrun & Hsub').
    { simpl. by eapply NoDup_keys_sublist. }
    exists st'. split; [done|]. simpl in Hsub'. by etrans.
Qed.

Lemma run_deterministic_keys st cs st' i :
  NoDup (unmatched_base st).*1 → i ∉ (unmatched_base st).*1 →
  run st cs = Some st' → i ∉ (unmatched_base st').*1.
Proof.
  intros Hnd Hni Hrun.
  destruct (run_invariant st cs Hnd) as (st'' & Hrun' & Hsub).
  rewrite Hrun in Hrun'. injection Hrun' as <-.
  intros Hin. apply Hni. eapply elem_of_sublist; [exact Hin|].
  by apply sublist_keys.
Qed.

(** C1: for every base list, every prefix [pre] of compare elements already
    processed and every next compare element, the loop reaches a state whose
    working set is a sub-sequence of the enumerated base (not-yet-matched
    elements, in base order); the next element is matched by the rule
    "first remaining base element with the same non-empty id and tag,
    otherwise first remaining one with the same tag and equal text,
    otherwise nothing"; and a matched base element leaves the working set
    for the rest of the run. *)
Theorem matching_policy base pre comp_el :
  ∃ st m rest d,
    run (init base) pre = Some st ∧
    unmatched_base st `sublist_of` enumerate base ∧
    Policy (unmatched_base st) comp_el m rest ∧
    step st comp_el = Some {| unmatched_base := rest; diffs := d |} ∧
    ∀ i b, m = Some (i, b) →
      base !! i = Some b ∧
      ∀ post st', run {| unmatched_base := rest; diffs := d |} post = Some st' →
                  i ∉ (unmatched_base st').*1.
Proof.
  destruct (run_invariant (init base) pre (enumerate_NoDup base))
    as (st & Hrun & Hsub). simpl in Hsub.
  assert (NoDup (unmatched_base st).*1) as Hnd.
  { eapply NoDup_keys_sublist; [exact Hsub | apply enumerate_NoDup]. }
  destruct (step_policy st comp_el Hnd)
    as (m & rest & Hpol & _ & Hstep & Hrest & Hm).
  exists st, m, rest, (diffs st ++ entries_for comp_el m).
  split_and!; [done..|].
  intros i b ->. destruct Hm as (Hin & _ & Hni). split.
  - apply enumerate_lookup. by eapply elem_of_sublist.
  - intros post st' Hpost.
    eapply run_deterministic_keys; [| |exact Hpost]; simpl; [|done].
    by eapply NoDup_keys_sublist.
Qed.

(** *** Style comparison *)

Lemma style_diffs_omap bs cs :
  style_diffs bs cs =
  omap (λ prop, if bool_decide (bs !! prop ≠ cs !! prop)
                then Some (prop, {| old := bs !! prop; new := cs !! prop |})
                else None) target_styles.
Proof.
  unfold style_diffs.
  set (g := λ prop, if bool_decide (bs !! prop ≠ cs !! prop)
                    then Some (prop, {| old := bs !! prop; new := cs !! prop |})
                    else None).
  set (f := λ (acc : list (string * StyleDelta)) prop, _).
  assert (∀ l acc, foldl f acc l = acc ++ omap g l) as Hgen.
  { induction l as [|prop l IH]; intros acc; simpl.
    - by rewrite app_nil_r.
    - rewrite IH. unfold f, g. case_bool_decide; [|done]. by rewrite <- app_assoc. }
  apply (Hgen target_styles []).
Qed.

Lemma style_diffs_elem bs cs prop d :
  (prop, d) ∈ style_diffs bs cs ↔
  prop ∈ target_styles ∧ bs !! prop ≠ cs !! prop ∧
  d = {| old := bs !! prop; new := cs !! prop |}.
Proof.
  rewrite style_diffs_omap, list_elem_of_omap. split.
  - intros (p & Hin & Hp). case_bool_decide; [|done].
    by injection Hp as <- <-.
  - intros (Hin & Hne & ->). exists prop. split; [done|].
    by rewrite bool_decide_eq_true_2.
Qed.

Lemma style_diffs_nil bs cs :
  style_diffs bs cs = [] ↔
  ∀ prop, prop ∈ target_styles → bs !! prop = cs !! prop.
Proof.
  split.
  - intros Hnil prop Hin.
    destruct (decide (bs !! prop = cs !! prop)) as [|Hne]; [done|].
    assert ((prop, {| old := bs !! prop; new := cs !! prop |}) ∈ style_diffs bs cs)
      as Hel by (by apply style_diffs_elem).
    rewrite Hnil in Hel. by apply elem_of_nil in Hel.
  - intros Hall. destruct (style_diffs bs cs) as [|[p d] l] eqn:Hsd; [done|].
    assert ((p, d) ∈ style_diffs bs cs) as Hel by (rewrite Hsd; by left).
    apply style_diffs_elem in Hel as (Hin & Hne & _). by destruct Hne; apply Hall.
Qed.

Lemma style_diffs_color_only bs cs :
  bs !! "color"%string ≠ cs !! "color"%string →
  (∀ prop, prop ∈ target_styles → prop ≠ "color"%string → bs !! prop = cs !! prop) →
  style_diffs bs cs =
  [("color"%string, {| old := bs !! "color"%string; new := cs !! "color"%string |})].
Proof.
  intros Hc Hothers. rewrite style_diffs_omap. unfold target_styles. simpl.
  rewrite bool_decide_eq_true_2 by done.
  rewrite !bool_decide_eq_false_2; [done|..];
    (intros Hne; apply Hne, Hothers; [unfold target_styles; set_solver | done]).
Qed.

Lemma matched_entries_nil b c :
  matched_entries b c = [] ↔
  ∀ prop, prop ∈ target_styles → ¬ differs_at b c prop.
Proof.
  unfold differs_at.
  assert (matched_entries b c = [] ↔ style_diffs (styles b) (styles c) = []) as ->.
  { unfold matched_entries. by destruct (style_diffs (styles b) (styles c)). }
  rewrite style_diffs_nil. split.
  - intros Heq prop Hin Hne. by apply Hne, Heq.
  - intros Hall prop Hin.
    destruct (decide (styles b !! prop = styles c !! prop)); [done|].
    by destruct (Hall prop Hin).
Qed.

Lemma matched_entries_shape b c e :
  e ∈ matched_entries b c →
  matched_entries b c = [e] ∧
  e = style_change (rect c) (style_diffs (styles b) (styles c)) (tag c) (text c).
Proof.
  unfold matched_entries.
  destruct (style_diffs (styles b) (styles c)) eqn:Hsd.
  - by intros ?%elem_of_nil.
  - by intros ->%list_elem_of_singleton.
Qed.

(** C8: when the loop matches [comp_el] to the base element stored under
    [i], the iteration removes [i] and appends [entries], where: no entry is
    appended exactly when none of the six target properties differs; any
    appended entry is the single style_change entry carrying the rect, tag
    and text of the compare element and one [{old, new}] pair for exactly
    the differing target properties; and when only [color] differs the
    entry's mapping is the single key [color] with the base value as [old]
    and the compare value as [new]. *)
Theorem style_change_for_matched_pair st comp_el i base_el :
  find_match (unmatched_base st) comp_el = Some i →
  get i (unmatched_base st) = Some base_el →
  ∃ entries,
    step st comp_el =
      Some {| unmatched_base := del i (unmatched_base st);
              diffs := diffs st ++ entries |} ∧
    (entries = [] ↔
       ∀ prop, prop ∈ target_styles → ¬ differs_at base_el comp_el prop) ∧
    (∀ e, e ∈ entries →
       ∃ sd, entries = [e] ∧
             e = style_change (rect comp_el) sd (tag comp_el) (text comp_el) ∧
             ∀ prop delta, (prop, delta) ∈ sd ↔
               prop ∈ target_styles ∧ differs_at base_el comp_el prop ∧
               delta = {| old := styles base_el !! prop;
                          new := styles comp_el !! prop |}) ∧
    (differs_at base_el comp_el "color" →
     (∀ prop, prop ∈ target_styles → prop ≠ "color"%string →
              ¬ differs_at base_el comp_el prop) →
     entries =
       [style_change (rect comp_el)
          [("color"%string,
            {| old := styles base_el !! "color"%string;
               new := styles comp_el !! "color"%string |})]
          (tag comp_el) (text comp_el)]).
Proof.
  intros Hfind Hget. exists (matched_entries base_el comp_el).
  split_and!.
  - unfold step, pop. rewrite Hfind, Hget. done.
  - apply matched_entries_nil.
  - intros e He. apply matched_entries_shape in He as [Hone ->].
    eexists. split_and!; [done|done|]. intros prop delta.
    apply style_diffs_elem.
  - intros Hc Hothers. unfold matched_entries.
    rewrite style_diffs_color_only; [done|done|].
    intros prop Hin Hne.
    destruct (decide (styles base_el !! prop = styles comp_el !! prop)); [done|].
    by destruct (Hothers prop Hin Hne).
Qed.

Lemma style_change_for_matched_pair_witness :
  ∃ entries,
    step (init [h1_black]) h1_red =
      Some {| unmatched_base := del 0 (unmatched_base (init [h1_black]));
              diffs := diffs (init [h1_black]) ++ entries |} ∧
    (entries = [] ↔
       ∀ prop, prop ∈ target_styles → ¬ differs_at h1_black h1_red prop) ∧
    (∀ e, e ∈ entries →
       ∃ sd, entries = [e] ∧
             e = style_change (rect h1_red) sd (tag h1_red) (text h1_red) ∧
             ∀ prop delta, (prop, delta) ∈ sd ↔
               prop ∈ target_styles ∧ differs_at h1_black h1_red prop ∧
               delta = {| old := styles h1_black !! prop;
                          new := styles h1_red !! prop |}) ∧
    (differs_at h1_black h1_red "color" →
     (∀ prop, prop ∈ target_styles → prop ≠ "color"%string →
              ¬ differs_at h1_black h1_red prop) →
     entries =
       [style_change (rect h1_red)
          [("color"%string,
            {| old := styles h1_black !! "color"%string;
               new := styles h1_red !! "color"%string |})]
          (tag h1_red) (text h1_red)]).
Proof.
  apply (style_change_for_matched_pair (init [h1_black]) h1_red 0%nat h1_black);
    reflexivity.
Defined.

(** *** Diffing a sequence against a copy in the same order *)

Lemma find_match_head k b u c :
  same_snapshot b c → find_match ((k, b) :: u) c = Some k.
Proof.
  intros (Htag & Hid & Htext & _). unfold find_match. simpl.
  assert (id_tag_eq c b = true) as -> by (by apply id_tag_eq_spec).
  assert (tag_text_eq c b = true) as -> by (by apply tag_text_eq_spec).
  by destruct (truthy (id c)).
Qed.

Lemma run_same_order (f : nat → nat) bs cs d :
  Forall2 same_snapshot bs cs →
  run {| unmatched_base := imap (λ i el, (f i, el)) bs; diffs := d |} cs
  = Some {| unmatched_base := []; diffs := d |}.
Proof.
  intros Hall. revert f d.
  induction Hall as [|b c bs cs Hbc Hall IH]; intros f d; [done|].
  simpl. unfold step. simpl. rewrite find_match_head by done.
  unfold pop. simpl. rewrite !bool_decide_eq_true_2 by done. simpl.
  assert (matched_entries b c = []) as ->.
  { apply matched_entries_nil. intros prop _. unfold differs_at.
    destruct Hbc as (_ & _ & _ & ->). by intros []. }
  rewrite app_nil_r. apply (IH (f ∘ S)).
Qed.

(** *** Diffing a sequence against a reordered copy *)

Lemma same_snapshot_key b c :
  same_snapshot b c ↔ snapshot_key b = snapshot_key c.
Proof.
  unfold same_snapshot, snapshot_key. split.
  - intros (? & ? & ? & ?). congruence.
  - by intros [= ? ? ? ?].
Qed.

Lemma reordered_keys base compare :
  reordered base compare → snapshot_key <$> base ≡ₚ snapshot_key <$> compare.
Proof.
  intros (l & Hperm & Hall). rewrite Hperm. clear Hperm.
  induction Hall as [|b c bs cs Hbc _ IH]; [done|]. simpl.
  apply same_snapshot_key in Hbc. rewrite Hbc. by constructor.
Qed.

Lemma enumerate_values base : (enumerate base).*2 = base.
Proof.
  unfold enumerate. rewrite fmap_imap.
  etrans; [apply (imap_ext _ (λ _ el, el)); done|].
  etrans; [apply (imap_const (λ el : Element, el))|apply list_fmap_id].
Qed.

Lemma key_partner (k : string * option string * string * gmap string string)
      (u : Unmatched) :
  k ∈ snapshot_key <$> u.*2 → ∃ kv, kv ∈ u ∧ snapshot_key kv.2 = k.
Proof.
  intros (b & -> & (kv & -> & Hkv)%list_elem_of_fmap)%list_elem_of_fmap.
  by exists kv.
Qed.

(** With the compare elements a reordering of the working set and no
    collisions, every compare element is matched to an equal snapshot and
    the working set is used up. *)
Lemma run_reordered st cs :
  NoDup (unmatched_base st).*1 →
  collision_free (unmatched_base st).*2 cs →
  snapshot_key <$> (unmatched_base st).*2 ≡ₚ snapshot_key <$> cs →
  run st cs = Some {| unmatched_base := []; diffs := diffs st |}.
Proof.
  revert st. induction cs as [|c cs IH]; intros st Hnd Hfree Hperm.
  - simpl in *. apply Permutation_nil_r in Hperm.
    apply fmap_nil_inv, fmap_nil_inv in Hperm.
    destruct st as [u d]. simpl in *. by subst.
  - simpl. destruct (step_policy st c Hnd) as (m & rest & Hpol & _ & Hstep & Hsub & _).
    rewrite Hstep. simpl.
    assert (∀ l1 i b l2, unmatched_base st = l1 ++ (i, b) :: l2 →
              b ∈ (unmatched_base st).*2) as Hin.
    { intros l1 i b l2 ->. rewrite fmap_app, fmap_cons.
      apply elem_of_app. right. by left. }
    assert (c ∈ c :: cs) as Hc by (by left).
    assert (∃ i b l1 l2, m = Some (i, b) ∧ unmatched_base st = l1 ++ (i, b) :: l2 ∧
              rest = l1 ++ l2 ∧ same_snapshot b c) as Hcase.
    { inversion Hpol as [i b rest0 Hne (l1 & l2 & Hu & Hb & _ & Hrest)
                        |i b rest0 _ (l1 & l2 & Hu & Hb & _ & Hrest)
                        |_ Hnone]; subst.
      - exists i, b, l1, l2. split_and!; try done.
        apply Hfree; [by eapply Hin|done|by left].
      - exists i, b, l1, l2. split_and!; try done.
        apply Hfree; [by eapply Hin|done|by right].
      - exfalso.
        assert (snapshot_key c ∈ snapshot_key <$> (unmatched_base st).*2) as Hk.
        { rewrite Hperm. simpl. by left. }
        apply key_partner in Hk as ([k p] & Hkv & Hkey). simpl in Hkey.
        apply same_snapshot_key in Hkey as (Htag & _ & Htext & _).
        unfold none_of in Hnone. rewrite Forall_forall in Hnone.
        by apply (Hnone _ Hkv). }
    destruct Hcase as (i & b & l1 & l2 & -> & Hu & -> & Hbc). simpl.
    assert (matched_entries b c = []) as ->.
    { apply matched_entries_nil. intros prop _. unfold differs_at.
      destruct Hbc as (_ & _ & _ & ->). by intros []. }
    rewrite app_nil_r.
    rewrite (IH {| unmatched_base := l1 ++ l2; diffs := diffs st |}); [done|..].
    + simpl. by eapply NoDup_keys_sublist.
    + simpl. intros b' c' Hb' Hc'. apply Hfree; [|by right].
      rewrite Hu. rewrite fmap_app, fmap_cons. rewrite fmap_app in Hb'.
      apply elem_of_app in Hb' as [?|?]; apply elem_of_app; [by left|].
      right. by right.
    + simpl. rewrite Hu in Hperm.
      rewrite !fmap_app, !fmap_cons in Hperm. rewrite !fmap_app.
      rewrite <- Permutation_middle in Hperm.
      apply same_snapshot_key in Hbc. simpl in Hperm. rewrite Hbc in Hperm.
      by apply Permutation_cons_inv in Hperm.
Qed.

(** C7 (amended): two snapshot sequences that agree on tag, id, text and
    styles (rect and classes may differ) have the empty diff list when
    they are in the same order, and in any order when the elements the two
    searches could pair are equal snapshots: a base and a compare element
    that share the non-empty id and the tag, or the tag and the text, are
    the same snapshot. *)
Theorem equal_sequences_empty_diff base compare :
  Forall2 same_snapshot base compare
  ∨ (reordered base compare ∧ collision_free base compare) →
  compare_dom_elements base compare = Some [].
Proof.
  intros [Hall|[Hre Hfree]]; unfold compare_dom_elements.
  - unfold init, enumerate.
    by rewrite (run_same_order (λ i, i) base compare [] Hall).
  - rewrite (run_reordered (init base) compare); [done|..]; simpl.
    + apply enumerate_NoDup.
    + by rewrite enumerate_values.
    + rewrite enumerate_values. by apply reordered_keys.
Qed.

Lemma equal_sequences_empty_diff_witness :
  compare_dom_elements [h1_black; el_c; el_d] [el_d; h1_black; el_c] = Some [].
Proof.
  apply equal_sequences_empty_diff. right. split.
  - exists [el_d; h1_black; el_c]. split.
    + etrans; [|apply Permutation_swap]. apply Permutation_skip, Permutation_swap.
    + repeat constructor.
  - intros b c Hb Hc Hpair.
    repeat (apply elem_of_cons in Hb as [->|Hb]);
      [..|by apply elem_of_nil in Hb];
      repeat (apply elem_of_cons in Hc as [->|Hc]);
      try (by apply elem_of_nil in Hc);
      try (by repeat split);
      exfalso;
      destruct Hpair as [[(s & Hs & Hne) [Hid Htag]]|[Htag Htext]];
      simpl in *; congruence.
Defined.

(** C7 as stated fails: the same two elements in swapped order are equal
    as multisets, yet the greedy first match pairs each with the other and
    reports two style changes. *)
Lemma reordered_snapshots_differ :
  [h1_black; h1_red] ≡ₚ [h1_red; h1_black] ∧
  compare_dom_elements [h1_black; h1_red] [h1_red; h1_black] =
    Some [ style_change sample_rect
             [("color"%string, {| old := Some "rgb(0, 0, 0)"%string;
                                  new := Some "rgb(255, 0, 0)"%string |})]
             "H1" "Hello";
           style_change sample_rect
             [("color"%string, {| old := Some "rgb(255, 0, 0)"%string;
                                  new := Some "rgb(0, 0, 0)"%string |})]
             "H1" "Hello" ] ∧
  compare_dom_elements [h1_black; h1_red] [h1_red; h1_black] ≠ Some [].
Proof.
  split_and!; [apply Permutation_swap | reflexivity | discriminate].
Qed.

(** Even with identical styles a reordering can produce entries: the
    text match takes the base element the later id match needed. *)
Example reordering_adds_and_removes :
  [el_s; el_d; el_c] ≡ₚ [el_d; el_s; el_c] ∧
  compare_dom_elements [el_s; el_d; el_c] [el_d; el_s; el_c] =
    Some [added_entry el_c; removed_entry el_d].
Proof. split; [apply Permutation_swap | reflexivity]. Qed.

(** *** The trace of matches and the shape of the result *)

Lemma trace_length u cs : length (trace u cs) = length cs.
Proof.
  revert u. induction cs as [|c cs IH]; intros u; simpl; [done|].
  destruct (find_match u c); simpl; by rewrite IH.
Qed.

Lemma del_keys_sub i k u : k ∈ (del i u).*1 → k ∈ u.*1.
Proof.
  intros Hin. eapply elem_of_sublist; [exact Hin|]. apply sublist_keys, del_sublist.
Qed.

Lemma del_key_gone i u : NoDup u.*1 → i ∉ (del i u).*1.
Proof.
  induction u as [|[k e] u IH]; simpl; [intros _; apply not_elem_of_nil|].
  intros [Hk Hnd]%NoDup_cons. case_bool_decide as Hki.
  - by subst.
  - simpl. apply not_elem_of_cons. split; [congruence | by apply IH].
Qed.

Lemma trace_keys u cs i : i ∈ matched_indices (trace u cs) → i ∈ u.*1.
Proof.
  unfold matched_indices. revert u.
  induction cs as [|c cs IH]; intros u; simpl; [by intros ?%elem_of_nil|].
  destruct (find_match u c) as [k|] eqn:Hf; simpl; [|by apply IH].
  intros [->|Hin]%elem_of_cons; [by eapply find_match_key|].
  by eapply del_keys_sub, IH.
Qed.

Lemma trace_NoDup u cs : NoDup u.*1 → NoDup (matched_indices (trace u cs)).
Proof.
  revert u. induction cs as [|c cs IH]; intros u Hnd; simpl; [apply NoDup_nil_2|].
  destruct (find_match u c) as [k|] eqn:Hf; [|by apply IH].
  change (NoDup (k :: matched_indices (trace (del k u) cs))).
  apply NoDup_cons. split.
  - intros Hin%trace_keys. by apply (del_key_gone k u).
  - apply IH. eapply NoDup_keys_sublist; [apply del_sublist | done].
Qed.

Lemma without_keys_absent i ks u :
  i ∉ u.*1 → without_keys (i :: ks) u = without_keys ks u.
Proof.
  induction u as [|[k e] u IH]; simpl; [done|].
  intros [Hne Hni]%not_elem_of_cons. rewrite IH by done.
  destruct (decide (k ∈ ks)) as [Hin|Hnin].
  - rewrite !bool_decide_eq_true_2; [done|done|by right].
  - rewrite !bool_decide_eq_false_2; [done|done|].
    intros [?|?]%elem_of_cons; [congruence|done].
Qed.

Lemma without_keys_del ks i u :
  NoDup u.*1 → without_keys ks (del i u) = without_keys (i :: ks) u.
Proof.
  induction u as [|[k e] u IH]; simpl; [done|].
  intros [Hk Hnd]%NoDup_cons. case_bool_decide as Hki.
  - subst k. rewrite bool_decide_eq_true_2 by (by left).
    by rewrite without_keys_absent.
  - simpl. rewrite IH by done.
    destruct (decide (k ∈ ks)) as [Hin|Hnin].
    + rewrite !bool_decide_eq_true_2; [done|by right|done].
    + rewrite !bool_decide_eq_false_2; [done| |done].
      intros [?|?]%elem_of_cons; [congruence|done].
Qed.

Lemma without_keys_nil u : without_keys [] u = u.
Proof.
  induction u as [|[k e] u IH]; [done|]. cbn [without_keys].
  rewrite bool_decide_eq_false_2 by apply not_elem_of_nil. by rewrite IH.
Qed.

(** The loop invariant: the diffs are the per-position entries of the
    processed compare elements, and the working set is the start set
    without the matched keys. *)
Lemma run_trace base st cs :
  unmatched_base st `sublist_of` enumerate base →
  ∃ st', run st cs = Some st' ∧
    diffs st' = diffs st ++
      concat (zip_with (compare_entries base) cs (trace (unmatched_base st) cs)) ∧
    unmatched_base st' =
      without_keys (matched_indices (trace (unmatched_base st) cs))
                   (unmatched_base st).
Proof.
  revert st. induction cs as [|c cs IH]; intros st Hsub; simpl.
  - exists st. rewrite app_nil_r. by rewrite without_keys_nil.
  - assert (NoDup (unmatched_base st).*1) as Hnd.
    { eapply NoDup_keys_sublist; [exact Hsub | apply enumerate_NoDup]. }
    destruct (step_policy st c Hnd) as (m & rest & _ & Hfind & Hstep & Hrest & Hm).
    rewrite Hstep, Hfind. simpl.
    destruct (IH {| unmatched_base := rest;
                    diffs := diffs st ++ entries_for c m |})
      as (st' & Hrun & Hd & Hu); [simpl; by etrans|].
    exists st'. split; [done|]. simpl in Hd, Hu.
    destruct m as [[i b]|]; simpl.
    + destruct Hm as (Hin & -> & Hni).
      assert (base !! i = Some b) as Hb.
      { apply enumerate_lookup. by eapply elem_of_sublist. }
      unfold compare_entries at 1. rewrite Hb.
      rewrite Hd, Hu, <- app_assoc. split; [done|].
      change (matched_indices (Some i :: ?t)) with (i :: matched_indices t).
      by apply without_keys_del.
    + subst rest. by rewrite Hd, Hu, <- app_assoc.
Qed.

Lemma removal_loop ms (f : nat → nat) l :
  map (λ kv, removed_entry kv.2)
      (without_keys (matched_indices ms) (imap (λ i el, (f i, el)) l))
  = concat (imap (λ i el, base_entries ms (f i) el) l).
Proof.
  revert f. induction l as [|b l IH]; intros f; simpl; [done|].
  unfold base_entries at 1. case_bool_decide; simpl; f_equal; apply (IH (f ∘ S)).
Qed.

Lemma trace_lookup st cs j c st' :
  NoDup (unmatched_base st).*1 →
  cs !! j = Some c → run st (take j cs) = Some st' →
  trace (unmatched_base st) cs !! j = Some (find_match (unmatched_base st') c).
Proof.
  revert st j. induction cs as [|c0 cs IH]; intros st j Hnd; [done|].
  destruct j as [|j]; simpl.
  - intros [= ->] [= <-]. by destruct (find_match (unmatched_base st) c).
  - intros Hc Hrun.
    destruct (step_policy st c0 Hnd) as (m & rest & _ & Hfind & Hstep & Hrest & Hm).
    rewrite Hstep in Hrun. simpl in Hrun.
    assert (NoDup rest.*1) as Hnd' by (by eapply NoDup_keys_sublist).
    specialize (IH {| unmatched_base := rest;
                      diffs := diffs st ++ entries_for c0 m |} j Hnd' Hc Hrun).
    simpl in IH.
    rewrite Hfind. destruct m as [[i b]|]; simpl.
    + destruct Hm as (_ & <- & _). done.
    + by subst rest.
Qed.

Lemma find_match_None u c :
  NoDup u.*1 →
  find_match u c = None ↔ id_search_fails u c ∧ none_of (same_tag_text c) u.
Proof.
  intros Hnd.
  destruct (find_match_policy u c Hnd) as (m & rest & Hpol & -> & _ & _).
  split.
  - destruct m; [done|]. intros _. by inversion Hpol.
  - intros [Hid Htext]. destruct m as [[i b]|]; [exfalso|done].
    inversion Hpol as [? ? ? Hne (l1 & l2 & -> & Hb & _)
                      |? ? ? _ (l1 & l2 & -> & Hb & _)|]; subst.
    + destruct Hid as [Hid|Hid]; [done|].
      apply Forall_app in Hid as [_ Hid]. by apply Forall_cons in Hid as [Hid _].
    + apply Forall_app in Htext as [_ Htext].
      by apply Forall_cons in Htext as [Htext _].
Qed.

Lemma filter_added_compare base cs ms :
  List.filter is_added (concat (zip_with (compare_entries base) cs ms))
  = concat (zip_with added_if_unmatched cs ms).
Proof.
  revert ms. induction cs as [|c cs IH]; intros [|m ms]; simpl; try done.
  rewrite List.filter_app, IH. f_equal.
  destruct m as [i|]; simpl; [|done].
  destruct (base !! i) as [b|]; simpl; [|done].
  unfold matched_entries. by destruct (style_diffs _ _).
Qed.

Lemma filter_removed_compare base cs ms :
  List.filter is_removed (concat (zip_with (compare_entries base) cs ms)) = [].
Proof.
  revert ms. induction cs as [|c cs IH]; intros [|m ms]; simpl; try done.
  rewrite List.filter_app, IH, app_nil_r.
  destruct m as [i|]; simpl; [|done].
  destruct (base !! i) as [b|]; simpl; [|done].
  unfold matched_entries. by destruct (style_diffs _ _).
Qed.

Lemma filter_removed_blocks (g : nat → Element → list DiffEntry) l :
  (∀ i el, List.filter is_added (g i el) = [] ∧
           List.filter is_removed (g i el) = g i el) →
  List.filter is_added (concat (imap g l)) = [] ∧
  List.filter is_removed (concat (imap g l)) = concat (imap g l).
Proof.
  revert g. induction l as [|b l IH]; intros g Hg; [done|].
  rewrite imap_cons. simpl. rewrite !List.filter_app.
  destruct (Hg 0%nat b) as [-> ->].
  destruct (IH (g ∘ S)) as [-> ->]; [|done].
  intros i el. apply Hg.
Qed.

Lemma filter_base_entries ms l :
  List.filter is_added (concat (imap (base_entries ms) l)) = [] ∧
  List.filter is_removed (concat (imap (base_entries ms) l))
  = concat (imap (base_entries ms) l).
Proof.
  apply filter_removed_blocks. intros i el. unfold base_entries.
  by case_bool_decide.
Qed.

Lemma compare_dom_elements_total base compare :
  is_Some (compare_dom_elements base compare).
Proof.
  unfold compare_dom_elements.
  destruct (run_invariant (init base) compare (enumerate_NoDup base))
    as (st & -> & _). by eexists.
Qed.

(** The result in blocks, as the loop builds them. *)
Lemma diff_entries_code_blocks base compare :
  ∃ result,
    let ms := matching base compare in
    compare_dom_elements base compare = Some result ∧
    length ms = length compare ∧
    result = concat (zip_with (compare_entries base) compare ms) ++
             concat (imap (base_entries ms) base) ∧
    NoDup (matched_indices ms) ∧
    (∀ i, i ∈ matched_indices ms → (i < length base)%nat) ∧
    List.filter is_added result = concat (zip_with added_if_unmatched compare ms) ∧
    List.filter is_removed result = concat (imap (base_entries ms) base) ∧
    (∀ j c, compare !! j = Some c →
       (ms !! j = Some None ↔
        ∃ st, run (init base) (take j compare) = Some st ∧
              id_search_fails (unmatched_base st) c ∧
              none_of (same_tag_text c) (unmatched_base st))).
Proof.
  unfold matching, compare_dom_elements.
  destruct (run_trace base (init base) compare) as (st' & Hrun & Hd & Hu); [done|].
  simpl in Hd, Hu. rewrite Hrun. simpl.
  eexists. split; [reflexivity|].
  set (ms := trace (enumerate base) compare).
  assert (map (λ kv, removed_entry kv.2) (unmatched_base st')
          = concat (imap (base_entries ms) base)) as Hrem.
  { rewrite Hu. apply (removal_loop ms (λ i, i) base). }
  rewrite Hd, Hrem.
  destruct (filter_base_entries ms base) as [Hfa Hfr].
  split_and!.
  - apply trace_length.
  - done.
  - apply trace_NoDup, enumerate_NoDup.
  - intros i Hi%trace_keys. rewrite enumerate_keys in Hi.
    apply elem_of_seq in Hi. lia.
  - by rewrite List.filter_app, filter_added_compare, Hfa, app_nil_r.
  - by rewrite List.filter_app, filter_removed_compare, Hfr.
  - intros j c Hc.
    destruct (run_invariant (init base) (take j compare) (enumerate_NoDup base))
      as (st & Hst & Hsub).
    assert (NoDup (unmatched_base st).*1) as Hnd.
    { eapply NoDup_keys_sublist; [exact Hsub | apply enumerate_NoDup]. }
    pose proof (trace_lookup (init base) compare j c st
                  (enumerate_NoDup base) Hc Hst) as Hlk.
    simpl in Hlk. fold ms in Hlk. rewrite Hlk.
    split.
    + intros [= Hnone]. exists st. split; [done|]. by apply find_match_None.
    + intros (st0 & Hst0 & Hfail). rewrite Hst in Hst0. injection Hst0 as <-.
      f_equal. by apply find_match_None.
Qed.

Lemma compare_entries_block base c m :
  compare_entries base c m = compare_block base c m.
Proof.
  unfold compare_entries, compare_block. destruct m as [i|]; [|done].
  destruct (base !! i) as [b|]; [|done].
  unfold matched_entries, changed_styles. by rewrite style_diffs_omap.
Qed.

(** C9: the result is the concatenation of one block per compare element
    followed by one block per base element.  The block of a compare element
    with no remaining id+tag and no remaining tag+text match is exactly its
    one added entry, carrying its own rect, tag and text; the block of a
    matched compare element is one style_change entry with the compare
    rect, tag and text and the changed target properties of its pair, or
    empty when none changed; the block of a base element is exactly its
    one removed entry, carrying its own rect, tag and text, when its index
    was never matched and empty when it was; and no base index is matched
    twice. *)
Theorem diff_entries_partition base compare :
  ∃ result,
    let ms := matching base compare in
    compare_dom_elements base compare = Some result ∧
    length ms = length compare ∧
    result = concat (zip_with (compare_block base) compare ms) ++
             concat (imap (base_block ms) base) ∧
    NoDup (matched_indices ms) ∧
    (∀ i, i ∈ matched_indices ms → (i < length base)%nat) ∧
    List.filter is_added result = concat (zip_with added_block compare ms) ∧
    List.filter is_removed result = concat (imap (base_block ms) base) ∧
    (∀ j c, compare !! j = Some c →
       (ms !! j = Some None ↔
        ∃ st, run (init base) (take j compare) = Some st ∧
              id_search_fails (unmatched_base st) c ∧
              none_of (same_tag_text c) (unmatched_base st))).
Proof.
  destruct (diff_entries_code_blocks base compare)
    as (result & Hres & Hlen & Hblocks & Hnd & Hlt & Ha & Hr & Hm).
  exists result. cbv zeta.
  assert (zip_with (compare_entries base) compare (matching base compare)
          = zip_with (compare_block base) compare (matching base compare)) as Hcb.
  { apply zip_with_ext; [|done..]. intros c m. apply compare_entries_block. }
  rewrite Hcb in Hblocks.
  split_and!; [exact Hres|exact Hlen|exact Hblocks|exact Hnd|exact Hlt
              |exact Ha|exact Hr|exact Hm].
Qed.

End DomDiffFacts.

(** ** The pixel differ *)
Module PixelDiffFacts.
Import Binary64 PixelDiff Binary64Facts.

(** *** Dimming an 8-bit channel *)

Lemma dim_table :
  forallb (λ v, bool_decide (dim v = Some (3 * v / 10))) (seqZ 0 256) = true.
Proof. by vm_compute. Qed.

Lemma dim_8bit v : 0 <= v <= 255 → dim v = Some (3 * v / 10).
Proof.
  intros Hv. pose proof dim_table as Ht.
  rewrite forallb_forall in Ht.
  specialize (Ht v). rewrite bool_decide_eq_true in Ht. apply Ht.
  apply list_elem_of_In, elem_of_seqZ. lia.
Qed.

(** *** One pixel *)

Lemma distance_sym p1 p2 : distance p1 p2 = distance p2 p1.
Proof. destruct p1 as [[r1 g1] b1], p2 as [[r2 g2] b2]. simpl. lia. Qed.

Lemma pixel_step_spec a b y x buf cnt :
  rgb8 a →
  in_bounds a x y = true → in_bounds b x y = true → in_bounds buf x y = true →
  ∃ buf',
    pixel_step a b y x (buf, cnt) =
      Some (buf', cnt + (if exceeds a b (x, y) then 1 else 0)) ∧
    width buf' = width buf ∧ height buf' = height buf ∧
    ∀ x' y', pixels buf' x' y' =
             if bool_decide (x' = x ∧ y' = y)
             then classify (pixels a x y) (pixels b x y)
             else pixels buf x' y'.
Proof.
  intros Ha Hia Hib Hibuf. unfold pixel_step, getpixel, putpixel, exceeds, classify.
  rewrite Hia, Hib. simpl. rewrite Hibuf.
  specialize (Ha x y). destruct (pixels a x y) as [[r g] bl] eqn:Hpa.
  destruct (15 <? distance (r, g, bl) (pixels b x y)); simpl.
  - eexists. split; [reflexivity|]. simpl. done.
  - rewrite !dim_8bit by lia. simpl.
    eexists. split; [by rewrite Z.add_0_r|]. simpl. done.
Qed.

(** *** The two loops *)

Lemma row_scan a b y xs buf cnt :
  rgb8 a →
  (∀ x, x ∈ xs → in_bounds a x y = true ∧ in_bounds b x y = true ∧
                 in_bounds buf x y = true) →
  ∃ buf',
    for_each (pixel_step a b y) xs (buf, cnt) =
      Some (buf', cnt + Z.of_nat (length (List.filter (λ x, exceeds a b (x, y)) xs))) ∧
    width buf' = width buf ∧ height buf' = height buf ∧
    ∀ x' y', pixels buf' x' y' =
             if bool_decide (y' = y ∧ x' ∈ xs)
             then classify (pixels a x' y') (pixels b x' y')
             else pixels buf x' y'.
Proof.
  intros Ha. revert buf cnt.
  induction xs as [|x xs IH]; intros buf cnt Hin; simpl.
  - exists buf. split_and!; [f_equal; f_equal; lia|done|done|].
    intros x' y'. rewrite bool_decide_eq_false_2; [done|].
    intros [_ ?%elem_of_nil]. done.
  - destruct (Hin x) as (Hia & Hib & Hibuf); [by left|].
    destruct (pixel_step_spec a b y x buf cnt Ha Hia Hib Hibuf)
      as (buf1 & -> & Hw1 & Hh1 & Hp1). simpl.
    destruct (IH buf1 (cnt + (if exceeds a b (x, y) then 1 else 0)))
      as (buf' & -> & Hw & Hh & Hp).
    { intros x0 Hx0. destruct (Hin x0) as (? & ? & Hb0); [by right|].
      split_and!; [done|done|]. unfold in_bounds in *. by rewrite Hw1, Hh1. }
    exists buf'. split_and!; [|congruence|congruence|].
    + f_equal. f_equal. destruct (exceeds a b (x, y)); simpl; lia.
    + intros x' y'. rewrite Hp, Hp1.
      destruct (decide (y' = y ∧ x' ∈ xs)) as [Hd|Hd].
      * rewrite !bool_decide_eq_true_2; [done| |done].
        destruct Hd. split; [done | by right].
      * rewrite (bool_decide_eq_false_2 _ Hd).
        destruct (decide (x' = x ∧ y' = y)) as [[-> ->]|Hd'].
        -- rewrite !bool_decide_eq_true_2; [done| |done]. split; [done | by left].
        -- rewrite !bool_decide_eq_false_2; [done| |done].
           intros [-> [->|?]%elem_of_cons]; tauto.
Qed.

Lemma rows_scan a b ys xs buf cnt :
  rgb8 a →
  (∀ x y, x ∈ xs → y ∈ ys → in_bounds a x y = true ∧ in_bounds b x y = true ∧
                             in_bounds buf x y = true) →
  ∃ buf',
    for_each (λ y, for_each (pixel_step a b y) xs) ys (buf, cnt) =
      Some (buf', cnt + Z.of_nat (length (List.filter (exceeds a b)
                                            (y ← ys; x ← xs; [(x, y)])))) ∧
    width buf' = width buf ∧ height buf' = height buf ∧
    ∀ x' y', pixels buf' x' y' =
             if bool_decide (y' ∈ ys ∧ x' ∈ xs)
             then classify (pixels a x' y') (pixels b x' y')
             else pixels buf x' y'.
Proof.
  intros Ha. revert buf cnt.
  induction ys as [|y ys IH]; intros buf cnt Hin; simpl.
  - exists buf. split_and!; [f_equal; f_equal; lia|done|done|].
    intros x' y'. done.
  - destruct (row_scan a b y xs buf cnt Ha) as (buf1 & -> & Hw1 & Hh1 & Hp1).
    { intros x Hx. apply Hin; [done | by left]. }
    simpl.
    destruct (IH buf1 (cnt + Z.of_nat (length (List.filter (λ x, exceeds a b (x, y)) xs))))
      as (buf' & -> & Hw & Hh & Hp).
    { intros x0 y0 Hx0 Hy0. destruct (Hin x0 y0) as (? & ? & Hb0); [done|by right|].
      split_and!; [done|done|]. unfold in_bounds in *. by rewrite Hw1, Hh1. }
    exists buf'. split_and!; [|congruence|congruence|].
    + assert (length (List.filter (exceeds a b) (xs ≫= λ x, [(x, y)]))
              = length (List.filter (λ x, exceeds a b (x, y)) xs)) as Hrow.
      { clear. induction xs as [|x xs IHx]; [done|].
        change ((x :: xs) ≫= λ x0, [(x0, y)]) with ((x, y) :: (xs ≫= λ x0, [(x0, y)])).
        cbn [List.filter]. destruct (exceeds a b (x, y)); simpl; by rewrite IHx. }
      rewrite List.filter_app, length_app, Hrow, Nat2Z.inj_add, Z.add_assoc.
      done.
    + intros x' y'. rewrite Hp, Hp1.
      destruct (decide (y' ∈ ys ∧ x' ∈ xs)) as [Hd|Hd].
      * rewrite !bool_decide_eq_true_2; [done| |done].
        destruct Hd. split; [by right | done].
      * rewrite (bool_decide_eq_false_2 _ Hd).
        destruct (decide (y' = y ∧ x' ∈ xs)) as [[-> Hx]|Hd'].
        -- rewrite !bool_decide_eq_true_2; [done| |done]. split; [by left | done].
        -- rewrite !bool_decide_eq_false_2; [done| |done].
           intros [[->|?]%elem_of_cons ?]; tauto.
Qed.

Lemma scan_spec a b w h :
  rgb8 a → width a = w → height a = h → width b = w → height b = h →
  ∃ out,
    scan w h a b (new_image w h, 0) = Some (out, divergent a b w h) ∧
    width out = w ∧ height out = h ∧
    ∀ x y, (x < w)%nat → (y < h)%nat →
           pixels out x y = classify (pixels a x y) (pixels b x y).
Proof.
  intros Ha Hwa Hha Hwb Hhb. unfold scan.
  destruct (rows_scan a b (seq 0 h) (seq 0 w) (new_image w h) 0 Ha)
    as (out & Hrun & Hw & Hh & Hp).
  { intros x y Hx%elem_of_seq Hy%elem_of_seq. unfold in_bounds.
    rewrite Hwa, Hha, Hwb, Hhb. simpl.
    rewrite !bool_decide_eq_true_2 by lia. done. }
  exists out. split_and!; [by rewrite Hrun|done|done|].
  intros x y Hx Hy. rewrite Hp, bool_decide_eq_true_2; [done|].
  split; apply elem_of_seq; lia.
Qed.

Lemma coords_length w h : length (coords w h) = (h * w)%nat.
Proof.
  unfold coords.
  assert (∀ (xs : list nat) (y : nat), length (xs ≫= λ x, [(x, y)]) = length xs) as Hrow.
  { intros xs y. induction xs as [|x xs IHx]; [done|].
    change ((x :: xs) ≫= λ x0, [(x0, y)]) with ((x, y) :: (xs ≫= λ x0, [(x0, y)])).
    simpl. by rewrite IHx. }
  assert (∀ ys xs : list nat,
            length (ys ≫= λ y, xs ≫= λ x, [(x, y)]) = (length ys * length xs)%nat) as Hall.
  { intros ys xs. induction ys as [|y ys IH]; [done|].
    change ((y :: ys) ≫= λ y0, xs ≫= λ x, [(x, y0)])
      with ((xs ≫= λ x, [(x, y)]) ++ (ys ≫= λ y0, xs ≫= λ x, [(x, y0)])).
    rewrite length_app, IH, Hrow. simpl. done. }
  by rewrite Hall, !length_seq.
Qed.

Lemma divergent_bounds a b w h :
  0 <= divergent a b w h <= Z.of_nat w * Z.of_nat h.
Proof.
  unfold divergent. split; [lia|].
  pose proof (List.filter_length_le (exceeds a b) (coords w h)) as Hle.
  rewrite coords_length in Hle. lia.
Qed.

Lemma divergent_sym a b w h : divergent a b w h = divergent b a w h.
Proof.
  unfold divergent. f_equal. f_equal. apply List.filter_ext.
  intros [x y]. unfold exceeds. by rewrite distance_sym.
Qed.

(** *** The score *)

Lemma diff_score_bounds c t :
  0 <= c <= t → 0 < t → ∃ s, diff_score c t = Some s ∧ 0 <= s <= 100.
Proof.
  intros Hc Ht. unfold diff_score, fdiv_int.
  destruct (Z.eqb_spec t 0) as [|_]; [lia|].
  rewrite Z.sgn_pos, Z.abs_eq, Z.mul_1_r by lia.
  destruct (fround_bound c t 1) as (m & e & -> & He & Hm); [lia..|].
  rewrite of_int_100. simpl.
  destruct (fmul_bound m e 1 100 He Hm) as (m' & e' & -> & He' & Hm'); [lia..|].
  simpl. eexists. split; [done|]. by apply to_int_bound.
Qed.

Lemma diff_score_zero t : 0 < t → diff_score 0 t = Some 0.
Proof.
  intros Ht. unfold diff_score, fdiv_int.
  destruct (Z.eqb_spec t 0) as [|_]; [lia|]. by vm_compute.
Qed.

(** Up to [2 ^ 44] pixels the two roundings cost at most one unit: the
    score is the exact floor or one below it. *)
Lemma diff_score_near_exact c t s :
  0 <= c <= t → 0 < t <= 2 ^ 44 → diff_score c t = Some s →
  exact_percentage c t - 1 <= s <= exact_percentage c t.
Proof.
  intros Hc Ht Hs. unfold exact_percentage.
  destruct (Z.eq_dec c 0) as [->|Hc0].
  { rewrite diff_score_zero in Hs by lia. injection Hs as <-.
    rewrite Z.mul_0_l, Z.div_0_l by lia. lia. }
  unfold diff_score, fdiv_int in Hs.
  destruct (Z.eqb_spec t 0) as [|_]; [lia|].
  rewrite Z.sgn_pos, Z.abs_eq, Z.mul_1_r, fround_pos in Hs by lia.
  destruct (round_pos_bound c t 1 0) as (m1 & e1 & Hr1 & He1 & Hm1 & _ & Herr1);
    [lia..|].
  rewrite Hr1, of_int_100 in Hs. simpl in Hs. unfold fmul in Hs. simpl in Hs.
  replace (Z.max 0 (e1 + -46)) with 0 in Hs by lia.
  replace (Z.max 0 (- (e1 + -46))) with (- e1 + 46) in Hs by lia.
  rewrite Z.pow_0_r, Z.mul_1_r, Z.pow_add_r in Hs by lia.
  assert (2 ^ 52 <= 2 ^ (- e1)) as HE1 by (apply Z.pow_le_mono_r; lia).
  set (E1 := 2 ^ (- e1)) in *.
  assert (2 ^ 44 * 256 = 2 ^ 52) as H52 by done.
  assert (0 < 2 ^ 44) as H44 by done.
  assert (- t <= 2 * (m1 * t - c * E1) <= t) as Herr1' by lia.
  clear Herr1.
  assert (0 < m1) as Hm1pos by nia.
  set (P := 2 ^ 46) in *. assert (0 < P) as HP by done.
  rewrite fround_pos in Hs by nia.
  destruct (round_pos_bound (m1 * (100 * P)) (E1 * P) 100 7)
    as (m2 & e2 & Hr2 & He2 & Hm2 & _ & Herr2); [nia|nia|nia|done|lia|].
  rewrite Hr2 in Hs. simpl in Hs. injection Hs as <-.
  unfold to_int. simpl.
  replace (Z.max 0 e2) with 0 by lia. replace (Z.max 0 (- e2)) with (- e2) by lia.
  rewrite Z.pow_0_r, Z.mul_1_r.
  assert (2 ^ 45 <= 2 ^ (- e2)) as HE2 by (apply Z.pow_le_mono_r; lia).
  set (E2 := 2 ^ (- e2)) in *.
  assert (2 ^ 44 * 2 = 2 ^ 45) as H45 by done.
  rewrite Z.quot_div_nonneg by lia.
  assert (- E1 <= 2 * (m2 * E1 - 100 * m1 * E2) <= E1) as Herr2'.
  { replace (m2 * (E1 * P) - m1 * (100 * P) * E2)
      with ((m2 * E1 - 100 * m1 * E2) * P) in Herr2 by ring.
    rewrite Z.abs_mul, (Z.abs_eq P) in Herr2 by lia.
    assert (2 * Z.abs (m2 * E1 - 100 * m1 * E2) <= E1) by nia. lia. }
  clear Herr2 Hr2 Hr1.
  set (K := c * 100 / t).
  assert (K * t <= c * 100 < (K + 1) * t) as HK.
  { unfold K. pose proof (Z.mul_div_le (c * 100) t ltac:(lia)).
    pose proof (Z.mul_succ_div_gt (c * 100) t ltac:(lia)). lia. }
  assert (0 <= K) as HK0 by (apply Z.div_pos; lia).
  assert (0 < t * E2) as HtE2 by lia.
  assert (0 < E1 * E2) as HEE by lia.
  assert (0 <= E1 * t) as HEt by lia.
  assert (100 * (t * E2) < E1 * E2) as A4.
  { pose proof (Z.mul_le_mono_nonneg_r _ _ E2 ltac:(lia) (proj2 Ht)).
    pose proof (Z.mul_le_mono_nonneg_r _ _ E2 ltac:(lia) HE1). lia. }
  assert (E1 * t < E1 * E2) as A5.
  { pose proof (Z.mul_le_mono_nonneg_l _ _ E1 ltac:(lia) (proj2 Ht)).
    pose proof (Z.mul_le_mono_nonneg_l _ _ E1 ltac:(lia) HE2). lia. }
  destruct Herr1' as [Hlo1 Hhi1]. destruct Herr2' as [Hlo2 Hhi2].
  destruct HK as [HKlo HKhi].
  split.
  - apply Z.div_le_lower_bound; [lia|].
    destruct (Z_le_gt_dec (E2 * (K - 1)) m2) as [|Hgt]; [done|exfalso].
    pose proof (Z.mul_le_mono_nonneg_r _ _ t ltac:(lia) Hlo2) as A1.
    pose proof (Z.mul_le_mono_nonneg_r _ _ (100 * E2) ltac:(lia) Hlo1) as A2.
    pose proof (Z.mul_le_mono_nonneg_r _ _ (2 * (E1 * E2)) ltac:(lia) HKlo) as A3.
    assert (m2 + 1 <= E2 * (K - 1)) as Hgt' by lia.
    pose proof (Z.mul_le_mono_nonneg_r _ _ (2 * (E1 * t)) ltac:(lia) Hgt') as A6.
    pose proof (Z.mul_le_mono_nonneg_r _ _ (t * E2) ltac:(lia) HE1) as A7.
    lia.
  - assert (m2 / E2 < K + 1); [|lia].
    apply Z.div_lt_upper_bound; [lia|].
    destruct (Z_lt_le_dec m2 (E2 * (K + 1))) as [|Hge]; [done|exfalso].
    pose proof (Z.mul_le_mono_nonneg_r _ _ t ltac:(lia) Hhi2) as A1.
    pose proof (Z.mul_le_mono_nonneg_r _ _ (100 * E2) ltac:(lia) Hhi1) as A2.
    assert (c * 100 + 1 <= (K + 1) * t) as HKhi' by lia.
    pose proof (Z.mul_le_mono_nonneg_r _ _ (2 * (E1 * E2)) ltac:(lia) HKhi') as A3.
    pose proof (Z.mul_le_mono_nonneg_r _ _ (2 * (E1 * t)) ltac:(lia) Hge) as A6.
    lia.
Qed.

(** *** Sample resampler and images *)

Lemma crop_contract : resize_contract crop.
Proof.
  intros img w h img' [= <-]. split_and!; [done|done|].
  intros Himg x y. apply Himg.
Qed.

Lemma solid_rgb8 w h r g b :
  0 <= r <= 255 → 0 <= g <= 255 → 0 <= b <= 255 → rgb8 (solid w h (r, g, b)).
Proof. intros ??? x y. simpl. lia. Qed.

Lemma top_run_rgb8 w h k : rgb8 (top_run w h k).
Proof. intros x y. simpl. case_bool_decide; lia. Qed.

Lemma nearest_contract : resize_contract nearest.
Proof.
  intros img w h img' [= <-]. split_and!; [done|done|].
  intros Himg x y. apply Himg.
Qed.

Lemma white_below_rgb8 w h k : rgb8 (white_below w h k).
Proof. intros x y. simpl. case_bool_decide; lia. Qed.

(** *** Dimensions *)

Lemma pixel_step_dims a b y x st st' :
  pixel_step a b y x st = Some st' →
  width st'.1 = width st.1 ∧ height st'.1 = height st.1.
Proof.
  assert (∀ img v img', putpixel img x y v = Some img' →
                        width img' = width img ∧ height img' = height img) as Hput.
  { intros img v img'. unfold putpixel.
    destruct (in_bounds img x y); [|done]. by intros [= <-]. }
  unfold pixel_step. intros Hs.
  destruct (getpixel a x y) as [p1|]; simpl in Hs; [|done].
  destruct (getpixel b x y) as [p2|]; simpl in Hs; [|done].
  destruct (15 <? distance p1 p2).
  - destruct (putpixel st.1 x y (255, 0, 0)) as [img'|] eqn:Hp; simpl in Hs; [|done].
    injection Hs as <-. by apply Hput in Hp.
  - destruct (dim p1.1.1) as [r|]; simpl in Hs; [|done].
    destruct (dim p1.1.2) as [g|]; simpl in Hs; [|done].
    destruct (dim p1.2) as [bl|]; simpl in Hs; [|done].
    destruct (putpixel st.1 x y (r, g, bl)) as [img'|] eqn:Hp; simpl in Hs; [|done].
    injection Hs as <-. by apply Hput in Hp.
Qed.

Lemma for_each_dims {A} (body : A → Image * Z → option (Image * Z)) l st st' :
  (∀ a s s', body a s = Some s' →
             width s'.1 = width s.1 ∧ height s'.1 = height s.1) →
  for_each body l st = Some st' →
  width st'.1 = width st.1 ∧ height st'.1 = height st.1.
Proof.
  intros Hbody. revert st. induction l as [|a l IH]; intros st; simpl.
  - by intros [= <-].
  - destruct (body a st) as [s1|] eqn:Hb; simpl; [|done].
    intros Hrest%IH. apply Hbody in Hb. destruct Hb, Hrest. split; congruence.
Qed.

Lemma scan_dims w h a b st st' :
  scan w h a b st = Some st' →
  width st'.1 = width st.1 ∧ height st'.1 = height st.1.
Proof.
  unfold scan. apply for_each_dims. intros y s s'.
  apply for_each_dims. intros x. apply pixel_step_dims.
Qed.

(** With an 8-bit first image and both resizes succeeding, the loops run
    to completion and paint every pixel of the canvas. *)
Lemma render_diff_spec resize img1 img2 a b :
  resize_contract resize → rgb8 img1 →
  let w := (width img1 `min` width img2)%nat in
  let h := (height img1 `min` height img2)%nat in
  resize img1 w h = Some a → resize img2 w h = Some b →
  ∃ out,
    render_diff resize img1 img2 = Some (out, divergent a b w h) ∧
    width out = w ∧ height out = h ∧
    ∀ x y, (x < w)%nat → (y < h)%nat →
           pixels out x y = classify (pixels a x y) (pixels b x y).
Proof.
  intros Hres H1 w h Ha Hb. unfold render_diff. fold w h. rewrite Ha, Hb.
  destruct (Hres _ _ _ _ Ha) as (Hwa & Hha & Hra).
  destruct (Hres _ _ _ _ Hb) as (Hwb & Hhb & _).
  apply scan_spec; auto.
Qed.

(** C6: for inputs of sizes (w1, h1) and (w2, h2) the differ asks for both
    to be resized to exactly (min w1 w2, min h1 h2), which enlarges neither
    image in either dimension; every diff image it produces has exactly
    those dimensions, as have both resized images; and for an 8-bit first
    image it does produce one whenever both resizes succeed, and what it
    compares are the two resized images: each pixel of the diff image is
    the classification of the pixels of the resized images at that
    position, and the counter is the number of their divergent pixels. *)
Theorem resize_to_componentwise_minimum resize img1 img2 :
  resize_contract resize →
  let w := (width img1 `min` width img2)%nat in
  let h := (height img1 `min` height img2)%nat in
  (w <= width img1 ∧ w <= width img2 ∧ h <= height img1 ∧ h <= height img2)%nat ∧
  (∀ diff_img diff_count,
     render_diff resize img1 img2 = Some (diff_img, diff_count) →
     ∃ a b,
       resize img1 w h = Some a ∧ resize img2 w h = Some b ∧
       (width a = w ∧ height a = h) ∧ (width b = w ∧ height b = h) ∧
       (width diff_img = w ∧ height diff_img = h)) ∧
  (rgb8 img1 →
   ∀ a b, resize img1 w h = Some a → resize img2 w h = Some b →
     ∃ diff_img,
       render_diff resize img1 img2 = Some (diff_img, divergent a b w h) ∧
       width diff_img = w ∧ height diff_img = h ∧
       ∀ x y, (x < w)%nat → (y < h)%nat →
         pixels diff_img x y = classify (pixels a x y) (pixels b x y)).
Proof.
  intros Hres w h. split; [subst w h; lia|]. split.
  - intros diff_img diff_count Hrun. unfold render_diff in Hrun. fold w h in Hrun.
    destruct (resize img1 w h) as [a|] eqn:Ha; simpl in Hrun; [|done].
    destruct (resize img2 w h) as [b|] eqn:Hb; simpl in Hrun; [|done].
    apply scan_dims in Hrun. simpl in Hrun. destruct Hrun as [? ?].
    destruct (Hres _ _ _ _ Ha) as (? & ? & _), (Hres _ _ _ _ Hb) as (? & ? & _).
    exists a, b. by split_and!.
  - intros H1 a b Ha Hb.
    exact (render_diff_spec resize img1 img2 a b Hres H1 Ha Hb).
Qed.

(** A 100 by 200 image against a 150 by 180 one, resampled to the nearest
    neighbour: the canvas is 100 by 180, and its bottom row shows the
    bottom of the first image, not row 179 of it. *)
Lemma resize_to_componentwise_minimum_witness :
  ∃ diff_img diff_count,
    render_diff nearest (white_below 100 200 190) (solid 150 180 (0, 0, 0))
      = Some (diff_img, diff_count) ∧
    width diff_img = 100%nat ∧ height diff_img = 180%nat ∧
    pixels diff_img 0 179 = (255, 0, 0) ∧ pixels diff_img 0 170 = (0, 0, 0).
Proof.
  destruct (resize_to_componentwise_minimum nearest
              (white_below 100 200 190) (solid 150 180 (0, 0, 0))
              nearest_contract) as (_ & _ & Hmake).
  destruct (Hmake (white_below_rgb8 100 200 190) _ _ eq_refl eq_refl)
    as (diff_img & Hrun & Hw & Hh & Hpix).
  do 2 eexists. split; [exact Hrun|]. split; [exact Hw|]. split; [exact Hh|].
  split.
  - exact (Hpix 0%nat 179%nat ltac:(simpl; lia) ltac:(simpl; lia)).
  - exact (Hpix 0%nat 170%nat ltac:(simpl; lia) ltac:(simpl; lia)).
Defined.

(** *** Classification and score *)

(** C2 (amended): for 8-bit RGB inputs resized to the common canvas, the
    loops terminate normally; every pixel of the canvas whose Manhattan
    channel distance is strictly greater than 15 becomes pure red and is
    counted, every other pixel becomes the floor of 3/10 of each channel of
    the first resized image; the counter is the number of exceeding pixels.
    On a non-empty canvas the score is the integer truncation of the
    double-precision value [(diff_count / total_pixels) * 100]: an integer
    between 0 and 100 which, up to 2^44 pixels, is the exact floor of
    [diff_count * 100 / total_pixels] or one less. *)
Theorem pixel_classification_and_score resize img1 img2 a b :
  resize_contract resize → rgb8 img1 →
  let w := (width img1 `min` width img2)%nat in
  let h := (height img1 `min` height img2)%nat in
  resize img1 w h = Some a → resize img2 w h = Some b →
  ∃ diff_img,
    render_diff resize img1 img2 = Some (diff_img, divergent a b w h) ∧
    (∀ x y, (x < w)%nat → (y < h)%nat →
       pixels diff_img x y =
         let '(r1, g1, b1) := pixels a x y in
         if 15 <? distance (pixels a x y) (pixels b x y)
         then (255, 0, 0)
         else (3 * r1 / 10, 3 * g1 / 10, 3 * b1 / 10)) ∧
    0 <= divergent a b w h <= Z.of_nat w * Z.of_nat h ∧
    (0 < Z.of_nat w * Z.of_nat h →
     ∃ score,
       pixel_diff resize img1 img2 = Some (diff_img, score) ∧
       diff_score (divergent a b w h) (Z.of_nat w * Z.of_nat h) = Some score ∧
       0 <= score <= 100 ∧
       (Z.of_nat w * Z.of_nat h <= 2 ^ 44 →
        exact_percentage (divergent a b w h) (Z.of_nat w * Z.of_nat h) - 1
          <= score
          <= exact_percentage (divergent a b w h) (Z.of_nat w * Z.of_nat h))).
Proof.
  intros Hres H1 w h Ha Hb.
  destruct (render_diff_spec resize img1 img2 a b Hres H1 Ha Hb)
    as (out & Hrun & Hw & Hh & Hp). fold w h in Hrun, Hw, Hh, Hp.
  pose proof (divergent_bounds a b w h) as Hdiv.
  exists out. split_and!; [done| |lia|lia|].
  - intros x y Hx Hy. rewrite (Hp x y Hx Hy). unfold classify, red.
    by destruct (pixels a x y) as [[r1 g1] b1].
  - intros Htot.
    destruct (diff_score_bounds (divergent a b w h) (Z.of_nat w * Z.of_nat h))
      as (s & Hs & Hrange); [lia..|].
    exists s. split_and!; [|done|lia|lia|].
    + unfold pixel_diff. rewrite Hrun. simpl. rewrite Hw, Hh, Hs. done.
    + intros Hsmall. apply diff_score_near_exact; [lia|lia|done].
Qed.

Lemma pixel_classification_and_score_witness :
  ∃ diff_img,
    render_diff crop (top_run 100 1 29) (solid 100 1 (255, 255, 255))
      = Some (diff_img,
              divergent (top_run 100 1 29) (solid 100 1 (255, 255, 255)) 100 1) ∧
    (∀ x y, (x < 100)%nat → (y < 1)%nat →
       pixels diff_img x y =
         let '(r1, g1, b1) := pixels (top_run 100 1 29) x y in
         if 15 <? distance (pixels (top_run 100 1 29) x y)
                           (pixels (solid 100 1 (255, 255, 255)) x y)
         then (255, 0, 0)
         else (3 * r1 / 10, 3 * g1 / 10, 3 * b1 / 10)).
Proof.
  destruct (pixel_classification_and_score crop
              (top_run 100 1 29) (solid 100 1 (255, 255, 255))
              {| width := 100; height := 1; pixels := pixels (top_run 100 1 29) |}
              {| width := 100; height := 1;
                 pixels := pixels (solid 100 1 (255, 255, 255)) |}
              crop_contract (top_run_rgb8 100 1 29) eq_refl eq_refl)
    as (diff_img & Hrun & Hpix & _).
  exists diff_img. split; [exact Hrun | exact Hpix].
Defined.

(** C2 as stated fails in its score formula: with 29 of 100 pixels
    exceeding the threshold the exact floor is 29, the computed score 28. *)
Lemma score_below_exact_floor :
  divergent (top_run 100 1 29) (solid 100 1 (255, 255, 255)) 100 1 = 29 ∧
  snd <$> pixel_diff crop (top_run 100 1 29) (solid 100 1 (255, 255, 255))
    = Some 28 ∧
  diff_score 29 100 = Some 28 ∧
  exact_percentage 29 100 = 29.
Proof. split_and!; by vm_compute. Qed.

(** *** Symmetry of the score *)

(** C10: for 8-bit RGB images the score of (A, B) equals the score of
    (B, A), including the case where neither run produces one. *)
Theorem diff_score_symmetric resize A B :
  resize_contract resize → rgb8 A → rgb8 B →
  snd <$> pixel_diff resize A B = snd <$> pixel_diff resize B A.
Proof.
  intros Hres HA HB.
  set (w := (width A `min` width B)%nat). set (h := (height A `min` height B)%nat).
  assert ((width B `min` width A)%nat = w) as Hw' by (unfold w; lia).
  assert ((height B `min` height A)%nat = h) as Hh' by (unfold h; lia).
  destruct (resize A w h) as [a|] eqn:Ha; destruct (resize B w h) as [b|] eqn:Hb.
  - destruct (render_diff_spec resize A B a b Hres HA Ha Hb)
      as (o1 & Hr1 & Hw1 & Hh1 & _).
    assert (resize B (width B `min` width A)%nat (height B `min` height A)%nat
            = Some b) as Hb' by (by rewrite Hw', Hh').
    assert (resize A (width B `min` width A)%nat (height B `min` height A)%nat
            = Some a) as Ha' by (by rewrite Hw', Hh').
    destruct (render_diff_spec resize B A b a Hres HB Hb' Ha')
      as (o2 & Hr2 & Hw2 & Hh2 & _).
    unfold pixel_diff. rewrite Hr1, Hr2. simpl.
    rewrite Hw1, Hh1, Hw2, Hh2, Hw', Hh'. fold w h.
    rewrite (divergent_sym b a).
    by destruct (diff_score _ _).
  - unfold pixel_diff, render_diff. rewrite Hw', Hh'. fold w h.
    by rewrite Ha, Hb.
  - unfold pixel_diff, render_diff. rewrite Hw', Hh'. fold w h.
    by rewrite Ha, Hb.
  - unfold pixel_diff, render_diff. rewrite Hw', Hh'. fold w h.
    by rewrite Ha, Hb.
Qed.

Lemma diff_score_symmetric_witness :
  snd <$> pixel_diff crop (top_run 100 1 29) (solid 100 1 (255, 255, 255))
  = snd <$> pixel_diff crop (solid 100 1 (255, 255, 255)) (top_run 100 1 29).
Proof.
  apply (diff_score_symmetric crop _ _ crop_contract).
  - apply top_run_rgb8.
  - apply solid_rgb8; lia.
Defined.

End PixelDiffFacts.

(** ** The snapshot extractor *)
Module ExtractorFacts.
Import Extractor.

Lemma walk_throws to_python page ns acc :
  Exists throws ns → walk to_python page ns acc = None.
Proof.
  intros Hex. revert acc. induction Hex as [node ns [Hs|Hr]|node ns Hex IH];
    intros acc; simpl.
  - by rewrite Hs.
  - rewrite Hr. by destruct (getComputedStyle node).
  - destruct (getComputedStyle node) as [style|]; simpl; [|done].
    destruct (getBoundingClientRect node) as [rect|]; simpl; [|done].
    destruct (hidden style rect); [apply IH|].
    destruct (qualifies node); apply IH.
Qed.

Lemma walk_completes to_python page ns acc :
  Forall (λ node, ¬ throws node) ns →
  walk to_python page ns acc = Some (acc ++ omap (emitted to_python page) ns).
Proof.
  intros Hall. revert acc. induction Hall as [|node ns Hnode Hall IH];
    intros acc; simpl.
  - by rewrite app_nil_r.
  - unfold emitted at 1.
    destruct (getComputedStyle node) as [style|] eqn:Hs; simpl;
      [|destruct Hnode; by left].
    destruct (getBoundingClientRect node) as [rect|] eqn:Hr; simpl;
      [|destruct Hnode; by right].
    destruct (hidden style rect); [apply IH|].
    destruct (qualifies node); [|apply IH].
    rewrite IH. by rewrite <- app_assoc.
Qed.

(** C4 as stated fails: a node whose style read throws does not get
    skipped; the script ends with the exception and returns no snapshots,
    although without that node it returns the button's snapshot. *)
Lemma throwing_node_aborts_walk :
  throws detached ∧
  extraction_script latin1 (page_of [detached; buy_button]) = None ∧
  extraction_script latin1 (page_of [buy_button])
    = Some [snapshot latin1 (page_of [buy_button]) buy_button plain_style
              DomDiff.sample_rect].
Proof. split_and!; [by left | reflexivity | reflexivity]. Qed.

(** C4 (amended): the walk has no per-node error handling.  If the style
    or bounding-rect read throws for any walked node, the exception leaves
    the script and no snapshot list is returned; if no read throws, the
    walk completes and returns, in document order, the snapshots of exactly
    the visible qualifying nodes. *)
Theorem extraction_all_or_nothing to_python page :
  (Exists throws (nodes page) ∧ extraction_script to_python page = None) ∨
  (Forall (λ node, ¬ throws node) (nodes page) ∧
   extraction_script to_python page
   = Some (omap (emitted to_python page) (nodes page))).
Proof.
  unfold extraction_script.
  destruct (decide (Exists throws (nodes page))) as [Hex|Hnex].
  - left. split; [done | by apply walk_throws].
  - right. apply not_Exists_Forall in Hnex; [|solve_decision].
    split; [done|]. by rewrite walk_completes.
Qed.

End ExtractorFacts.

(** ** The comparison run *)
Module VisualRunFacts.
Import VisualRun.

(** *** Paths of a session *)

Lemma path_ne sid (a b : string) :
  a ≠ b → session_folder sid +:+ a ≠ session_folder sid +:+ b.
Proof. intros Hne Heq. apply Hne. by apply (inj (String.app _)) in Heq. Qed.

Lemma report_ne_base sid : base_path sid ≠ report_path sid.
Proof. by apply path_ne. Qed.
Lemma report_ne_compare sid : compare_path sid ≠ report_path sid.
Proof. by apply path_ne. Qed.
Lemma report_ne_diff sid : diff_path sid ≠ report_path sid.
Proof. by apply path_ne. Qed.
Lemma base_ne_compare sid : compare_path sid ≠ base_path sid.
Proof. by apply path_ne. Qed.

(** *** The steps of the run *)

Lemma capture_page_run env url path w :
  capture_page env url path w =
  if reachable (web env url)
  then match screenshot (web env url) with
       | Some shot =>
           (Extractor.extraction_script (transfer env) (page (web env url)), write path shot w)
       | None => (None, w)
       end
  else (None, w).
Proof.
  unfold capture_page, bind, guard, lift, modify, ret, raise.
  destruct (reachable (web env url)); [|done].
  by destruct (screenshot (web env url)).
Qed.

Lemma dom_diff_step_run env sid base_dom compare_dom w :
  ∃ dom_diffs,
    DomDiff.compare_dom_elements base_dom compare_dom = Some dom_diffs ∧
    dom_diff_step env sid base_dom compare_dom w =
    (Some tt, if report_writable env
              then write (report_path sid) (json_report dom_diffs) w
              else w).
Proof.
  destruct (DomDiffFacts.compare_dom_elements_total base_dom compare_dom)
    as [dom_diffs Hd].
  exists dom_diffs. split; [done|].
  unfold dom_diff_step, try_except, bind, guard, lift, modify, ret, raise.
  rewrite Hd. by destruct (report_writable env).
Qed.

(** The pixel phase read off the two screenshot files. *)
Lemma process_image_diff_run env sid burl curl w f1 f2 :
  fs w !! base_path sid = Some f1 → fs w !! compare_path sid = Some f2 →
  let outcome :=
    img1 ← decode f1; img2 ← decode f2;
    rendered ← PixelDiff.render_diff (resize env) img1 img2;
    if diff_saveable env
    then PixelDiff.diff_score rendered.2
           (Z.of_nat (PixelDiff.width img1 `min` PixelDiff.width img2)%nat *
            Z.of_nat (PixelDiff.height img1 `min` PixelDiff.height img2)%nat)
    else None in
  let w' := (process_image_diff env sid burl curl w).2 in
  fs w' !! report_path sid = fs w !! report_path sid ∧
  match outcome with
  | Some score =>
      match sessions w !! sid with
      | Some _ =>
          results w' = results w ++
            [{| session_id := sid; base_url := burl; compare_url := curl;
                diff_score := score; base_image_path := base_path sid;
                compare_image_path := compare_path sid;
                diff_image_path := diff_path sid |}] ∧
          sessions w' =
            <[sid := {| status := "completed"; completed := 1;
                        completed_at := Some (utcnow env) |}]> (sessions w)
      | None => results w' = results w ∧ sessions w' = sessions w
      end
  | None =>
      results w' = results w ∧
      sessions w' =
        match sessions w !! sid with
        | Some s => <[sid := {| status := "error"; completed := completed s;
                                completed_at := completed_at s |}]> (sessions w)
        | None => sessions w
        end
  end.
Proof.
  intros H1 H2 outcome w'. unfold outcome, w'. clear outcome w'.
  unfold process_image_diff, open_image, try_except, bind, read, guard, lift,
    modify, ret, raise. cbv beta. rewrite H1.
  destruct f1 as [[img1|]|]; cbn [decode mbind option_bind fst snd]; try done.
  rewrite H2. destruct f2 as [[img2|]|]; cbn [decode mbind option_bind fst snd];
    try done.
  destruct (PixelDiff.render_diff (resize env) img1 img2) as [rendered|];
    cbn [mbind option_bind fst snd]; [|done].
  destruct (diff_saveable env); cbn [mbind option_bind fst snd]; [|done].
  destruct (PixelDiff.diff_score _ _) as [score|]; cbn [mbind option_bind fst snd].
  - unfold mark_completed. cbn [sessions write].
    destruct (sessions w !! sid); (split; [|done]);
      apply lookup_insert_ne, report_ne_diff.
  - split; [|done]. apply lookup_insert_ne, report_ne_diff.
Qed.

(** What the run leaves behind, read off the environment. *)
Lemma run_summary env burl curl sid w :
  let w' := compare_images_logic env burl curl sid w in
  match captured env burl curl with
  | None =>
      results w' = results w ∧ sessions w' = sessions w ∧
      fs w' !! report_path sid = fs w !! report_path sid
  | Some (base_dom, compare_dom) =>
      (∃ dom_diffs,
         DomDiff.compare_dom_elements base_dom compare_dom = Some dom_diffs ∧
         fs w' !! report_path sid =
           if report_writable env then Some (json_report dom_diffs)
           else fs w !! report_path sid) ∧
      match pixel_outcome env burl curl with
      | Some score =>
          match sessions w !! sid with
          | Some _ =>
              results w' = results w ++
                [{| session_id := sid; base_url := burl; compare_url := curl;
                    diff_score := score; base_image_path := base_path sid;
                    compare_image_path := compare_path sid;
                    diff_image_path := diff_path sid |}] ∧
              sessions w' =
                <[sid := {| status := "completed"; completed := 1;
                            completed_at := Some (utcnow env) |}]> (sessions w)
          | None => results w' = results w ∧ sessions w' = sessions w
          end
      | None =>
          results w' = results w ∧
          sessions w' =
            match sessions w !! sid with
            | Some s => <[sid := {| status := "error"; completed := completed s;
                                    completed_at := completed_at s |}]> (sessions w)
            | None => sessions w
            end
      end
  end.
Proof.
  intros w'. unfold w'. clear w'.
  unfold compare_images_logic, captured, pixel_outcome, try_except, bind, guard,
    ret, raise.
  destruct (launch env); [|done].
  rewrite capture_page_run.
  destruct (reachable (web env burl)); [|done].
  destruct (screenshot (web env burl)) as [shot1|]; [|done].
  cbn [mbind option_bind].
  destruct (Extractor.extraction_script (transfer env) (page (web env burl))) as [base_dom|];
    cbn [mbind option_bind]; [|split_and!; try done; apply lookup_insert_ne, report_ne_base].
  rewrite capture_page_run.
  destruct (reachable (web env curl));
    [|split_and!; try done; apply lookup_insert_ne, report_ne_base].
  destruct (screenshot (web env curl)) as [shot2|];
    [|split_and!; try done; apply lookup_insert_ne, report_ne_base].
  cbn [mbind option_bind].
  assert (∀ f1 f2 (m : gmap string File),
            <[compare_path sid := f2]> (<[base_path sid := f1]> m) !! report_path sid
            = m !! report_path sid) as Hrep.
  { intros f1 f2 m. rewrite !lookup_insert_ne; [done|apply report_ne_base|apply report_ne_compare]. }
  destruct (Extractor.extraction_script (transfer env) (page (web env curl))) as [compare_dom|];
    cbn [mbind option_bind]; [|split_and!; try done; apply Hrep].
  set (w1 := write (compare_path sid) shot2 (write (base_path sid) shot1 w)).
  destruct (dom_diff_step_run env sid base_dom compare_dom w1)
    as (dom_diffs & Hdiffs & ->).
  set (w2 := if report_writable env
             then write (report_path sid) (json_report dom_diffs) w1 else w1).
  assert (fs w2 !! base_path sid = Some shot1) as Hb.
  { unfold w2, w1. destruct (report_writable env); simpl.
    - rewrite lookup_insert_ne by (intros Heq; by apply (report_ne_base sid)).
      rewrite lookup_insert_ne by apply base_ne_compare. apply lookup_insert_eq.
    - rewrite lookup_insert_ne by apply base_ne_compare. apply lookup_insert_eq. }
  assert (fs w2 !! compare_path sid = Some shot2) as Hc.
  { unfold w2, w1. destruct (report_writable env); simpl.
    - rewrite lookup_insert_ne by (intros Heq; by apply (report_ne_compare sid)).
      apply lookup_insert_eq.
    - apply lookup_insert_eq. }
  assert (results w2 = results w ∧ sessions w2 = sessions w) as [Hres Hses].
  { unfold w2, w1. by destruct (report_writable env). }
  assert (fs w2 !! report_path sid =
          if report_writable env then Some (json_report dom_diffs)
          else fs w !! report_path sid) as Hrp.
  { unfold w2, w1. destruct (report_writable env); simpl.
    - apply lookup_insert_eq.
    - apply Hrep. }
  pose proof (process_image_diff_run env sid burl curl w2 shot1 shot2 Hb Hc) as Hp.
  cbv zeta in Hp. destruct Hp as [Hfs Hp]. rewrite Hres, Hses in Hp.
  destruct (process_image_diff env sid burl curl w2) as [o w3].
  cbn [snd] in Hfs, Hp.
  assert ((let (o0, w'0) := (o, w3) in
           match o0 with
           | Some _ => (Some (), w'0)
           | None => (Some (), w'0)
           end).2 = w3) as -> by (by destruct o).
  split.
  - exists dom_diffs. split; [done|]. by rewrite Hfs.
  - exact Hp.
Qed.

Lemma status_after_insert (m : gmap string AuditSession) sid s :
  status <$> (<[sid := s]> m) !! sid = Some (status s).
Proof. by rewrite lookup_insert_eq. Qed.

(** A failed capture changes neither table: no result, no status. *)
Lemma capture_failure_unreported env burl curl sid w :
  captured env burl curl = None →
  results (compare_images_logic env burl curl sid w) = results w ∧
  sessions (compare_images_logic env burl curl sid w) = sessions w.
Proof.
  intros Hcap. pose proof (run_summary env burl curl sid w) as Hsum.
  cbv zeta in Hsum. rewrite Hcap in Hsum. by destruct Hsum as (? & ? & _).
Qed.

(** C3 (amended): the DOM diff artifact and the pixel diff result are
    produced independently of each other.  After a run for a fresh session,
    the report file exists exactly when the capture succeeded and the
    report could be written; a VisualAuditResult exists exactly when the
    capture succeeded, the pixel phase succeeded and the session row
    exists; a persisted result comes with status completed, a failed pixel
    phase after a successful capture with status error (whether or not the
    report was written); a failed capture leaves results and sessions
    untouched; and so does any run of a session without a row. *)
Theorem dom_artifact_and_pixel_result_independent env burl curl sid w :
  fresh w sid →
  let w' := compare_images_logic env burl curl sid w in
  (has_dom_artifact w' sid ↔
     is_Some (captured env burl curl) ∧ report_writable env = true) ∧
  (has_pixel_result w' sid ↔
     is_Some (captured env burl curl) ∧ is_Some (pixel_outcome env burl curl) ∧
     is_Some (sessions w !! sid)) ∧
  (has_pixel_result w' sid → status_of w' sid = Some "completed"%string) ∧
  (is_Some (captured env burl curl) → pixel_outcome env burl curl = None →
     is_Some (sessions w !! sid) → status_of w' sid = Some "error"%string) ∧
  (captured env burl curl = None →
     results w' = results w ∧ sessions w' = sessions w) ∧
  (sessions w !! sid = None →
     results w' = results w ∧ sessions w' = sessions w).
Proof.
  intros [Hfs Hres] w'. pose proof (run_summary env burl curl sid w) as Hsum.
  cbv zeta in Hsum. fold w' in Hsum.
  assert (∀ rs, rs = results w → ¬ ∃ r, r ∈ rs ∧ session_id r = sid) as Hno.
  { intros rs -> (r & Hin & Hsid). by destruct (Hres r Hin). }
  unfold has_dom_artifact, has_pixel_result, status_of.
  destruct (captured env burl curl) as [[base_dom compare_dom]|].
  - destruct Hsum as [(dom_diffs & _ & Hrep) Hpix]. rewrite Hrep.
    assert (is_Some (Some (base_dom, compare_dom))) as Hcap by (by eexists).
    assert (is_Some (if report_writable env then Some (json_report dom_diffs)
                     else fs w !! report_path sid)
            ↔ is_Some (Some (base_dom, compare_dom)) ∧ report_writable env = true)
      as Hart.
    { destruct (report_writable env); [by split; [|eexists]|].
      rewrite Hfs. split; [by intros [? ?] | by intros [_ ?]]. }
    destruct (pixel_outcome env burl curl) as [score|].
    + destruct (sessions w !! sid) as [s0|] eqn:Hs0.
      * destruct Hpix as [Hr Hs]. rewrite Hr, Hs. split_and!.
        -- exact Hart.
        -- split; [intros _; split_and!; by eexists|]. intros _. eexists. split.
           ++ apply elem_of_app. right. by left.
           ++ done.
        -- intros _. apply status_after_insert.
        -- done.
        -- done.
        -- done.
      * destruct Hpix as [Hr Hs]. rewrite Hr, Hs. split_and!.
        -- exact Hart.
        -- split; [by intros ?%(Hno _ eq_refl)|by intros (_ & _ & [? ?])].
        -- by intros ?%(Hno _ eq_refl).
        -- by intros _ _ [? ?].
        -- done.
        -- done.
    + destruct Hpix as [Hr Hs]. rewrite Hr, Hs.
      split_and!.
      * exact Hart.
      * split; [by intros ?%(Hno _ eq_refl)|by intros (_ & [? ?] & _)].
      * by intros ?%(Hno _ eq_refl).
      * intros _ _ [s ->]. apply status_after_insert.
      * done.
      * by intros ->.
  - destruct Hsum as (Hr & Hs & Hrep). rewrite Hrep, Hr, Hs, Hfs.
    split_and!.
    + split; [by intros [? ?] | by intros [[? ?] _]].
    + split; [by intros ?%(Hno _ eq_refl)|by intros ([? ?] & _)].
    + by intros ?%(Hno _ eq_refl).
    + by intros [? ?].
    + done.
    + done.
Qed.

Lemma world0_fresh : fresh world0 "vis_1".
Proof. split; [done|]. by intros r ?%elem_of_nil. Qed.

Lemma dom_artifact_and_pixel_result_independent_witness :
  let env := env_of both_up false in
  let w' := compare_images_logic env "http://a.test" "http://b.test" "vis_1" world0 in
  (has_dom_artifact w' "vis_1" ↔
     is_Some (captured env "http://a.test" "http://b.test") ∧
     report_writable env = true) ∧
  (has_pixel_result w' "vis_1" ↔
     is_Some (captured env "http://a.test" "http://b.test") ∧
     is_Some (pixel_outcome env "http://a.test" "http://b.test") ∧
     is_Some (sessions world0 !! "vis_1")) ∧
  (has_pixel_result w' "vis_1" → status_of w' "vis_1" = Some "completed"%string) ∧
  (is_Some (captured env "http://a.test" "http://b.test") →
     pixel_outcome env "http://a.test" "http://b.test" = None →
     is_Some (sessions world0 !! "vis_1") →
     status_of w' "vis_1" = Some "error"%string) ∧
  (captured env "http://a.test" "http://b.test" = None →
     results w' = results world0 ∧ sessions w' = sessions world0) ∧
  (sessions world0 !! "vis_1" = None →
     results w' = results world0 ∧ sessions w' = sessions world0).
Proof.
  exact (dom_artifact_and_pixel_result_independent
           (env_of both_up false) "http://a.test" "http://b.test" "vis_1"
           world0 world0_fresh).
Defined.

(** C3 as stated fails both ways: with the report not writable the run
    persists a result with status completed and no DOM diff artifact; with
    a base screenshot that does not decode the run leaves the DOM diff
    artifact on disk, persists no result and marks the session error. *)
Lemma pixel_result_without_dom_artifact :
  let w1 := compare_images_logic (env_of both_up false)
              "http://a.test" "http://b.test" "vis_1" world0 in
  let w2 := compare_images_logic (env_of base_corrupt true)
              "http://a.test" "http://b.test" "vis_1" world0 in
  (has_pixel_result w1 "vis_1" ∧
   status_of w1 "vis_1" = Some "completed"%string ∧
   ¬ has_dom_artifact w1 "vis_1") ∧
  (has_dom_artifact w2 "vis_1" ∧
   ¬ has_pixel_result w2 "vis_1" ∧
   status_of w2 "vis_1" = Some "error"%string).
Proof.
  intros w1 w2.
  assert (session_id <$> results w1 = ["vis_1"%string]) as Hr1 by (by vm_compute).
  assert (fs w1 !! report_path "vis_1" = None) as Hf1 by (by vm_compute).
  assert (status_of w1 "vis_1" = Some "completed"%string) as Hs1 by (by vm_compute).
  assert (results w2 = []) as Hr2 by (by vm_compute).
  assert (fs w2 !! report_path "vis_1" = Some (json_report [])) as Hf2
    by (by vm_compute).
  assert (status_of w2 "vis_1" = Some "error"%string) as Hs2 by (by vm_compute).
  clearbody w1 w2. unfold has_dom_artifact, has_pixel_result.
  rewrite Hf1, Hf2, Hr2.
  split; split_and!.
  - destruct (results w1) as [|r rs]; [discriminate Hr1|].
    exists r. split; [by left | by injection Hr1].
  - exact Hs1.
  - by intros [? ?].
  - by eexists.
  - intros (r & Hin & _). by apply elem_of_nil in Hin.
  - exact Hs2.
Qed.

(** C5: at a comparison whose base URL cannot be reached the capture fails,
    and the run ends with the session still in its previous status
    ("running"), not marked "error"; no VisualAuditResult is written. *)
Theorem capture_failure_leaves_status :
  let env := env_of base_down true in
  let w' := compare_images_logic env "http://a.test" "http://b.test" "vis_1" world0 in
  captured env "http://a.test" "http://b.test" = None ∧
  status_of world0 "vis_1" = Some "running"%string ∧
  status_of w' "vis_1" = Some "running"%string ∧
  results w' = [].
Proof. by vm_compute. Qed.

End VisualRunFacts.

(** ** Order of the binary64 rounding *)
Module Binary64Order.
Import Binary64 Binary64Facts.

Lemma ilog2_ratio_lower_scaled n d :
  0 < n → 0 < d → ilog2_ratio n d <= 52 →
  d * 2 ^ 52 <= n * 2 ^ (52 - ilog2_ratio n d).
Proof.
  intros Hn Hd. unfold ilog2_ratio.
  destruct (Z.log2_spec n Hn) as [Hn1 Hn2].
  destruct (Z.log2_spec d Hd) as [Hd1 Hd2].
  pose proof (Z.log2_nonneg n) as Ha. pose proof (Z.log2_nonneg d) as Hb.
  set (a := Z.log2 n) in *. set (b := Z.log2 d) in *.
  destruct (Z.ltb_spec (n * 2 ^ b) (d * 2 ^ a)) as [Hlt|Hge]; intros Hk.
  - replace (52 - (a - b - 1)) with (53 - a + b) by lia.
    replace (Z.succ b) with (b + 1) in Hd2 by lia.
    assert (2 ^ (b + 1) * 2 ^ 52 = 2 ^ a * 2 ^ (53 - a + b)) as Heq.
    { rewrite <- !Z.pow_add_r by lia. f_equal. lia. }
    assert (0 < 2 ^ (53 - a + b)) by (apply pow2_gt0; lia).
    assert (0 < 2 ^ 52) by (by apply pow2_gt0). nia.
  - replace (52 - (a - b)) with (52 - a + b) by lia.
    destruct (Z_le_gt_dec a 52) as [Ha52|Ha52].
    + rewrite Z.pow_add_r by lia.
      assert (2 ^ 52 = 2 ^ (52 - a) * 2 ^ a) as ->.
      { rewrite <- Z.pow_add_r by lia. f_equal. lia. }
      assert (0 < 2 ^ (52 - a)) by (apply pow2_gt0; lia). nia.
    + assert (2 ^ b = 2 ^ (52 - a + b) * 2 ^ (a - 52)) as Hb'.
      { rewrite <- Z.pow_add_r by lia. f_equal. lia. }
      assert (2 ^ a = 2 ^ 52 * 2 ^ (a - 52)) as Ha'.
      { rewrite <- Z.pow_add_r by lia. f_equal. lia. }
      rewrite Hb', Ha' in Hge.
      assert (0 < 2 ^ (a - 52)) by (apply pow2_gt0; lia). nia.
Qed.

Lemma ilog2_ratio_mono n1 d1 n2 d2 :
  0 < n1 → 0 < d1 → 0 < n2 → 0 < d2 → n1 * d2 <= n2 * d1 →
  ilog2_ratio n2 d2 <= 52 → ilog2_ratio n1 d1 <= ilog2_ratio n2 d2.
Proof.
  intros Hn1 Hd1 Hn2 Hd2 Hle Hk2.
  destruct (Z_le_gt_dec (ilog2_ratio n1 d1) (ilog2_ratio n2 d2)) as [|Hgt];
    [done|exfalso].
  set (k1 := ilog2_ratio n1 d1) in *. set (k2 := ilog2_ratio n2 d2) in *.
  pose proof (ilog2_ratio_upper n2 d2 Hn2 Hd2 Hk2) as Hup. fold k2 in Hup.
  destruct (Z_le_gt_dec k1 52) as [Hk1|Hk1].
  - pose proof (ilog2_ratio_lower_scaled n1 d1 Hn1 Hd1 Hk1) as Hlo. fold k1 in Hlo.
    assert (2 ^ (52 - k2) = 2 ^ (52 - k1) * 2 ^ (k1 - k2)) as Hsplit.
    { rewrite <- Z.pow_add_r by lia. f_equal. lia. }
    assert (2 <= 2 ^ (k1 - k2)) as H2.
    { change 2 with (2 ^ 1) at 1. apply Z.pow_le_mono_r; lia. }
    assert (0 < 2 ^ (52 - k1)) as Hp by (apply pow2_gt0; lia).
    assert (2 ^ 53 = 2 * 2 ^ 52) as H53 by done.
    rewrite Hsplit in Hup.
    set (X := 2 ^ (52 - k1)) in *. set (Y := 2 ^ (k1 - k2)) in *.
    set (Z52 := 2 ^ 52) in *. rewrite H53 in Hup.
    assert (n1 * d2 * X * 2 <= n2 * d1 * X * Y) as A1.
    { assert (n1 * d2 * X <= n2 * d1 * X) by nia. nia. }
    assert (d1 * Z52 * d2 <= n1 * X * d2) as A2 by nia.
    assert (n2 * (X * Y) * d1 < d2 * (2 * Z52) * d1) as A3 by nia.
    lia.
  - pose proof (ilog2_ratio_lower n1 d1 Hn1 Hd1 ltac:(fold k1; lia)) as Hlo.
    fold k1 in Hlo.
    assert (2 ^ 53 <= 2 ^ k1) as H53 by (apply Z.pow_le_mono_r; lia).
    assert (0 < 2 ^ (52 - k2)) as Hp by (apply pow2_gt0; lia).
    assert (1 <= 2 ^ (52 - k2)) as Hp1 by lia.
    set (X := 2 ^ (52 - k2)) in *. set (Y := 2 ^ k1) in *. set (W := 2 ^ 53) in *.
    assert (d1 * W * d2 <= n1 * d2) as A1 by nia.
    assert (n2 * d1 <= n2 * X * d1) as A2 by nia.
    assert (n2 * X * d1 < d2 * W * d1) as A3 by nia.
    lia.
Qed.

(** Rounding to the nearest integer is monotone on non-negative ratios. *)
Lemma round_half_even_mono a1 b1 a2 b2 :
  0 <= a1 → 0 < b1 → 0 <= a2 → 0 < b2 → a1 * b2 <= a2 * b1 →
  round_half_even a1 b1 <= round_half_even a2 b2.
Proof.
  intros Ha1 Hb1 Ha2 Hb2 Hle.
  pose proof (Z.div_mod a1 b1 ltac:(lia)) as Hdm1.
  pose proof (Z.mod_pos_bound a1 b1 Hb1) as Hr1.
  pose proof (Z.div_mod a2 b2 ltac:(lia)) as Hdm2.
  pose proof (Z.mod_pos_bound a2 b2 Hb2) as Hr2.
  assert (a1 / b1 <= a2 / b2) as Hq.
  { apply Z.div_le_lower_bound; [lia|].
    assert (b1 * (a1 / b1) <= a1) by lia.
    destruct (Z_le_gt_dec (b2 * (a1 / b1)) a2) as [|Hgt]; [done|exfalso].
    assert (a2 + 1 <= b2 * (a1 / b1)) as Hgt' by lia.
    assert ((a2 + 1) * b1 <= b2 * (a1 / b1) * b1) by nia.
    assert (b2 * (b1 * (a1 / b1)) <= b2 * a1) by nia.
    lia. }
  unfold round_half_even.
  set (q1 := a1 / b1) in *. set (q2 := a2 / b2) in *.
  set (r1 := a1 mod b1) in *. set (r2 := a2 mod b2) in *.
  destruct (Z.eq_dec q1 q2) as [Heq|Hne].
  - assert (r1 * b2 <= r2 * b1) as Hr.
    { rewrite Hdm1, Hdm2, Heq in Hle. lia. }
    rewrite <- Heq.
    destruct (Z.compare_spec (2 * r1) b1) as [E1|L1|G1];
      destruct (Z.compare_spec (2 * r2) b2) as [E2|L2|G2];
      try (destruct (Z.even q1)); try lia; exfalso.
    + assert (2 * r1 * b2 <= 2 * r2 * b1) by lia.
      assert (2 * r2 * b1 < b2 * b1) by nia.
      assert (2 * r1 * b2 = b1 * b2) by nia. lia.
    + assert (2 * r1 * b2 <= 2 * r2 * b1) by lia.
      assert (2 * r2 * b1 < b2 * b1) by nia.
      assert (2 * r1 * b2 = b1 * b2) by nia. lia.
    + assert (2 * r1 * b2 <= 2 * r2 * b1) by lia.
      assert (2 * r2 * b1 = b2 * b1) by nia.
      assert (b1 * b2 < 2 * r1 * b2) by nia. lia.
    + assert (2 * r1 * b2 <= 2 * r2 * b1) by lia.
      assert (2 * r2 * b1 < b2 * b1) by nia.
      assert (b1 * b2 < 2 * r1 * b2) by nia. lia.
  - assert (q1 + 1 <= q2) by lia.
    destruct (Z.compare_spec (2 * r1) b1);
      destruct (Z.compare_spec (2 * r2) b2);
      try (destruct (Z.even q1)); try (destruct (Z.even q2)); lia.
Qed.

Lemma div_le_cross a1 b1 a2 b2 :
  0 <= a1 → 0 < b1 → 0 < b2 → a1 * b2 <= a2 * b1 → a1 / b1 <= a2 / b2.
Proof.
  intros Ha1 Hb1 Hb2 Hle.
  pose proof (Z.div_mod a1 b1 ltac:(lia)) as Hdm1.
  pose proof (Z.mod_pos_bound a1 b1 Hb1) as Hr1.
  apply Z.div_le_lower_bound; [lia|].
  assert (b1 * (a1 / b1) <= a1) by lia.
  destruct (Z_le_gt_dec (b2 * (a1 / b1)) a2) as [|Hgt]; [done|exfalso].
  assert (a2 + 1 <= b2 * (a1 / b1)) as Hgt' by lia.
  assert ((a2 + 1) * b1 <= b2 * (a1 / b1) * b1) by nia.
  assert (b2 * (b1 * (a1 / b1)) <= b2 * a1) by nia.
  lia.
Qed.

(** The result of rounding a positive ratio of at most [B <= 2 ^ 52],
    written out. *)
Lemma round_pos_explicit n d B :
  0 < n → 0 < d → n <= B * d → B <= 2 ^ 52 →
  let e := ulp_exp n d in
  let m := round_half_even (n * 2 ^ (- e)) d in
  round_pos n d = Some (mk m e) ∧ emin <= e <= 0 ∧
  0 <= m <= B * 2 ^ (- e) ∧ m <= 2 ^ 53 ∧
  (emin < e → 2 ^ 52 <= m) ∧
  ilog2_ratio n d <= 52 ∧ e = Z.max (ilog2_ratio n d - 52) emin.
Proof.
  intros Hn Hd HB HB52 e m.
  destruct (round_pos_bound n d B 52 Hn Hd HB HB52 ltac:(lia))
    as (m' & e' & Hr & He & Hm & Hm53 & _).
  pose proof Hr as Hr0.
  unfold round_pos in Hr. fold e in Hr.
  destruct (overflow_threshold <=? _); [done|]. injection Hr as Hm' He'.
  assert (e = e') as Hee' by done. clear He'.
  assert (m = m') as Hmm'.
  { unfold m. rewrite <- Hm', Hee'.
    replace (Z.max 0 (- e')) with (- e') by lia.
    replace (Z.max 0 e') with 0 by lia.
    by rewrite Z.pow_0_r, Z.mul_1_r. }
  assert (ilog2_ratio n d <= 52) as Hk.
  { assert (e' = Z.max (ilog2_ratio n d - 52) emin) by (by rewrite <- Hee'). lia. }
  assert (e = Z.max (ilog2_ratio n d - 52) emin) as Hedef by done.
  clearbody e m. subst e' m' m.
  replace (Z.max 0 (- e)) with (- e) in * by lia.
  replace (Z.max 0 e) with 0 in * by lia.
  rewrite Z.pow_0_r, Z.mul_1_r in *.
  split; [done|]. split; [lia|]. split; [lia|]. split; [lia|].
  split; [|by split].
  intros Hemin.
  pose proof (ilog2_ratio_lower_scaled n d Hn Hd Hk) as Hlo.
  assert (- e = 52 - ilog2_ratio n d) as Hee by lia.
  rewrite <- Hee in Hlo.
  assert (0 < 2 ^ (- e)) by (apply pow2_gt0; lia).
  destruct (round_half_even_range (n * 2 ^ (- e)) d ltac:(nia) Hd) as [[Hfl _] _].
  assert (2 ^ 52 <= n * 2 ^ (- e) / d).
  { apply Z.div_le_lower_bound; lia. }
  lia.
Qed.

(** Rounding is monotone: a smaller ratio rounds to a float that is not
    larger. *)
Lemma round_pos_mono n1 d1 n2 d2 B m1 e1 m2 e2 :
  0 < n1 → 0 < d1 → 0 < n2 → 0 < d2 →
  n1 * d2 <= n2 * d1 → n2 <= B * d2 → 0 <= B <= 2 ^ 52 →
  round_pos n1 d1 = Some (mk m1 e1) → round_pos n2 d2 = Some (mk m2 e2) →
  e1 <= 0 ∧ e2 <= 0 ∧ 0 <= m1 <= B * 2 ^ (- e1) ∧ 0 <= m2 <= B * 2 ^ (- e2) ∧
  m1 * 2 ^ (- e2) <= m2 * 2 ^ (- e1).
Proof.
  intros Hn1 Hd1 Hn2 Hd2 Hle HB2 HB Hr1 Hr2.
  assert (n1 <= B * d1) as HB1.
  { destruct (Z_le_gt_dec n1 (B * d1)) as [|Hgt]; [done|exfalso].
    assert (B * d1 * d2 < n1 * d2) by nia.
    assert (n2 * d1 <= B * d2 * d1) by nia. lia. }
  destruct (round_pos_explicit n1 d1 B Hn1 Hd1 HB1 ltac:(lia))
    as (Hx1 & He1 & Hm1 & Hm153 & _ & Hk1 & Hee1).
  destruct (round_pos_explicit n2 d2 B Hn2 Hd2 HB2 ltac:(lia))
    as (Hx2 & He2 & Hm2 & _ & Hm252 & Hk2 & Hee2).
  rewrite Hr1 in Hx1. rewrite Hr2 in Hx2.
  injection Hx1 as Hm1' He1'. injection Hx2 as Hm2' He2'.
  rewrite <- He1' in *. rewrite <- He2' in *. rewrite <- Hm1' in *.
  rewrite <- Hm2' in *.
  pose proof (ilog2_ratio_mono n1 d1 n2 d2 Hn1 Hd1 Hn2 Hd2 Hle Hk2) as Hmono.
  assert (e1 <= e2) as Hee by lia.
  assert (0 < 2 ^ (- e1)) as Hp1 by (apply pow2_gt0; lia).
  assert (0 < 2 ^ (- e2)) as Hp2 by (apply pow2_gt0; lia).
  split_and!; try lia.
  destruct (Z.eq_dec e1 e2) as [Heq|Hne].
  - rewrite Heq in *.
    assert (m1 <= m2); [|nia].
    rewrite Hm1', Hm2'. apply round_half_even_mono; nia.
  - assert (2 ^ 52 <= m2) as H52 by (apply Hm252; lia).
    assert (2 ^ (- e1) = 2 ^ (- e2) * 2 ^ (e2 - e1)) as Hsplit.
    { rewrite <- Z.pow_add_r by lia. f_equal. lia. }
    assert (2 <= 2 ^ (e2 - e1)) as H2.
    { change 2 with (2 ^ 1) at 1. apply Z.pow_le_mono_r; lia. }
    assert (2 ^ 53 = 2 * 2 ^ 52) as H53 by done.
    rewrite Hsplit. set (X := 2 ^ (- e2)) in *. set (Y := 2 ^ (e2 - e1)) in *.
    set (Z52 := 2 ^ 52) in *.
    assert (m1 * X <= 2 * Z52 * X) by nia.
    assert (Z52 * (X * 2) <= Z52 * (X * Y)) by nia.
    assert (Z52 * (X * Y) <= m2 * (X * Y)) by nia.
    lia.
Qed.

End Binary64Order.

(** ** The DOM differ: shape of the result *)
Module DomDiffMoreFacts.
Import DomDiff DomDiffMore DomDiffFacts.

(** *** Empty inputs *)

Lemma run_empty_base d cs :
  run {| unmatched_base := []; diffs := d |} cs
  = Some {| unmatched_base := []; diffs := d ++ (added_entry <$> cs) |}.
Proof.
  revert d. induction cs as [|c cs IH]; intros d; simpl.
  - by rewrite app_nil_r.
  - unfold step, find_match. simpl. destruct (truthy (id c)); simpl;
      rewrite IH, <- app_assoc; done.
Qed.

(** X1: with an empty base the result is, for every compare element in
    compare order, one added entry carrying the rect, tag and text of that
    element, and nothing else. *)
Theorem empty_base_all_added compare :
  compare_dom_elements [] compare =
  Some ((λ c, added (rect c) (tag c) (text c)) <$> compare).
Proof.
  unfold compare_dom_elements, init. simpl. rewrite run_empty_base. simpl.
  by rewrite app_nil_r.
Qed.

(** *** Inputs without a possible pair *)

Lemma find_match_disjoint u c :
  NoDup u.*1 → disjoint u.*2 [c] → find_match u c = None.
Proof.
  intros Hnd Hdis. apply find_match_None; [done|].
  assert (∀ kv, kv ∈ u →
            ¬ (nonempty_id c ∧ same_id_tag c kv.2) ∧ ¬ same_tag_text c kv.2) as Hu.
  { intros kv Hkv. apply Hdis; [|by left].
    apply list_elem_of_fmap. by exists kv. }
  split.
  - destruct (truthy (id c)) eqn:Hid.
    + right. apply Forall_forall. intros kv Hkv Hsame.
      destruct (Hu kv Hkv) as [Hno _]. apply Hno.
      split; [by apply truthy_nonempty|done].
    + left. rewrite <- truthy_nonempty. congruence.
  - apply Forall_forall. intros kv Hkv. by destruct (Hu kv Hkv).
Qed.

Lemma run_disjoint st cs :
  NoDup (unmatched_base st).*1 → disjoint (unmatched_base st).*2 cs →
  run st cs =
  Some {| unmatched_base := unmatched_base st;
          diffs := diffs st ++ ((λ c, added (rect c) (tag c) (text c)) <$> cs) |}.
Proof.
  revert st. induction cs as [|c cs IH]; intros st Hnd Hdis; simpl.
  - rewrite app_nil_r. by destruct st.
  - unfold step. rewrite find_match_disjoint; [|done|].
    + simpl. rewrite IH; simpl; [by rewrite <- app_assoc|done|].
      intros b c' Hb Hc'. apply Hdis; [done|by right].
    + intros b c' Hb ->%list_elem_of_singleton. apply Hdis; [done|by left].
Qed.

(** X2: when no base element can be paired with any compare element (no
    shared non-empty id and tag, no shared tag and text; in particular
    when one of the lists is empty), the result is one added entry per
    compare element in compare order, followed by one removed entry per
    base element in base order, each carrying the rect, tag and text of
    its element. *)
Theorem disjoint_inputs_added_then_removed base compare :
  disjoint base compare →
  compare_dom_elements base compare =
  Some (((λ c, added (rect c) (tag c) (text c)) <$> compare) ++
        ((λ b, removed (rect b) (tag b) (text b)) <$> base)).
Proof.
  intros Hdis. unfold compare_dom_elements.
  rewrite (run_disjoint (init base) compare); simpl.
  - do 2 f_equal. change (map ?f ?l) with (f <$> l).
    transitivity ((λ b, removed (rect b) (tag b) (text b))
                    <$> (enumerate base).*2); [|by rewrite enumerate_values].
    by rewrite <- list_fmap_compose.
  - apply enumerate_NoDup.
  - by rewrite enumerate_values.
Qed.

Lemma disjoint_inputs_added_then_removed_witness :
  compare_dom_elements [h1_black] [el_c; el_d] =
  Some [added (rect el_c) (tag el_c) (text el_c);
        added (rect el_d) (tag el_d) (text el_d);
        removed (rect h1_black) (tag h1_black) (text h1_black)].
Proof.
  apply (disjoint_inputs_added_then_removed [h1_black] [el_c; el_d]).
  intros b c ->%list_elem_of_singleton Hc.
  repeat (apply elem_of_cons in Hc as [->|Hc]); [..|by apply elem_of_nil in Hc];
    (split; [intros [_ [_ Htag]]|intros [Htag _]]; simpl in Htag; congruence).
Defined.

(** *** Counting entries *)

Lemma del_length i u : i ∈ u.*1 → S (length (del i u)) = length u.
Proof.
  induction u as [|[k e] u IH]; simpl; [by intros ?%elem_of_nil|].
  case_bool_decide as Hk; [done|].
  intros [?|Hin]%elem_of_cons; [congruence|]. simpl. by rewrite IH.
Qed.

Lemma matched_entries_count b c :
  List.filter is_added (matched_entries b c) = [] ∧
  List.filter is_removed (matched_entries b c) = [] ∧
  (length (matched_entries b c) <= 1)%nat.
Proof.
  unfold matched_entries. destruct (style_diffs _ _); simpl; split_and!; done || lia.
Qed.

Lemma run_counts st cs :
  NoDup (unmatched_base st).*1 →
  ∃ st', run st cs = Some st' ∧
    (length (List.filter is_added (diffs st')) + length (unmatched_base st)
     = length (List.filter is_added (diffs st)) + length (unmatched_base st')
       + length cs)%nat ∧
    List.filter is_removed (diffs st') = List.filter is_removed (diffs st) ∧
    (length (diffs st') <= length (diffs st) + length cs)%nat.
Proof.
  revert st. induction cs as [|c cs IH]; intros st Hnd; simpl.
  - exists st. split_and!; [done|lia|done|lia].
  - destruct (step_policy st c Hnd) as (m & rest & _ & _ & Hstep & Hsub & Hm).
    rewrite Hstep. simpl.
    destruct (IH {| unmatched_base := rest;
                    diffs := diffs st ++ entries_for c m |})
      as (st' & Hrun & Hadd & Hrem & Hlen);
      [simpl; by eapply NoDup_keys_sublist|].
    exists st'. split; [done|]. simpl in Hadd, Hrem, Hlen.
    rewrite List.filter_app in Hadd, Hrem. rewrite !length_app in Hadd, Hlen.
    destruct m as [[i b]|]; simpl in *.
    + destruct Hm as (Hin & -> & _).
      destruct (matched_entries_count b c) as (Ha & Hr & Hl).
      rewrite Ha in Hadd. rewrite Hr, app_nil_r in Hrem. simpl in Hadd.
      assert (S (length (del i (unmatched_base st))) = length (unmatched_base st))
        as Hdel.
      { apply del_length. apply list_elem_of_fmap. by exists (i, b). }
      split_and!; [lia|done|lia].
    + subst rest. rewrite app_nil_r in Hrem. split_and!; [lia|done|lia].
Qed.

(** X3: the numbers of added and removed entries differ by exactly the
    difference of the list lengths, and the result never has more entries
    than the two inputs have elements. *)
Theorem added_removed_balance base compare :
  ∃ result,
    compare_dom_elements base compare = Some result ∧
    (length (List.filter is_added result) + length base
     = length (List.filter is_removed result) + length compare)%nat ∧
    (length result <= length base + length compare)%nat.
Proof.
  unfold compare_dom_elements.
  destruct (run_invariant (init base) compare (enumerate_NoDup base))
    as (st'' & Hrun & Hsub%sublist_length).
  destruct (run_counts (init base) compare (enumerate_NoDup base))
    as (st' & Hrun' & Hadd & Hrem & Hlen).
  rewrite Hrun in Hrun'. injection Hrun' as <-. rewrite Hrun. simpl in *.
  eexists. split; [done|].
  rewrite !List.filter_app, !length_app, Hrem. simpl.
  assert (List.filter is_added (map (λ kv, removed_entry kv.2) (unmatched_base st'')) = []
          ∧ List.filter is_removed (map (λ kv, removed_entry kv.2) (unmatched_base st''))
            = map (λ kv, removed_entry kv.2) (unmatched_base st'')) as [-> ->].
  { generalize (unmatched_base st''). intros u.
    induction u as [|kv u [IH1 IH2]]; simpl; [done|]. by rewrite IH1, IH2. }
  rewrite length_map. simpl.
  assert (length (enumerate base) = length base) as Hen.
  { unfold enumerate. apply length_imap. }
  rewrite Hen in Hadd, Hsub. lia.
Qed.

(** *** Shape of style changes *)

Lemma style_diffs_well_formed bs cs :
  (style_diffs bs cs).*1 `sublist_of` target_styles ∧
  Forall (λ pd, old pd.2 ≠ new pd.2) (style_diffs bs cs).
Proof.
  rewrite style_diffs_omap. generalize target_styles. intros l.
  induction l as [|prop l [IH1 IH2]]; simpl; [by split|].
  case_bool_decide; simpl.
  - split; [by apply sublist_skip | by constructor].
  - split; [by apply sublist_cons | done].
Qed.

Lemma matched_entries_well_formed b c :
  Forall well_formed_entry (matched_entries b c).
Proof.
  unfold matched_entries.
  destruct (style_diffs_well_formed (styles b) (styles c)) as [Hsub Hne].
  destruct (style_diffs (styles b) (styles c)) eqn:Hsd; [done|].
  constructor; [|done]. simpl. by split_and!.
Qed.

Lemma run_well_formed st cs :
  NoDup (unmatched_base st).*1 → Forall well_formed_entry (diffs st) →
  ∃ st', run st cs = Some st' ∧ Forall well_formed_entry (diffs st').
Proof.
  revert st. induction cs as [|c cs IH]; intros st Hnd Hwf; simpl.
  - by exists st.
  - destruct (step_policy st c Hnd) as (m & rest & _ & _ & Hstep & Hsub & _).
    rewrite Hstep. simpl. apply IH; simpl.
    + by eapply NoDup_keys_sublist.
    + apply Forall_app. split; [done|].
      destruct m as [[i b]|]; simpl; [apply matched_entries_well_formed|].
      by constructor.
Qed.

(** X4: every style_change entry of a result carries a non-empty mapping
    whose keys are target properties, in the fixed order of the list and
    without repetition, and whose old and new values differ. *)
Theorem style_changes_well_formed base compare :
  ∃ result,
    compare_dom_elements base compare = Some result ∧
    Forall well_formed_entry result.
Proof.
  unfold compare_dom_elements.
  destruct (run_well_formed (init base) compare (enumerate_NoDup base))
    as (st' & -> & Hwf); [done|]. simpl.
  eexists. split; [done|]. apply Forall_app. split; [done|].
  apply Forall_forall. intros e (kv & -> & _)%list_elem_of_fmap. done.
Qed.

(** *** What the differ does not read *)

Lemma find_match_head_targets k b u c :
  same_for_differ b c → find_match ((k, b) :: u) c = Some k.
Proof.
  intros (Htag & Hid & Htext & _). unfold find_match. simpl.
  assert (id_tag_eq c b = true) as -> by (by apply id_tag_eq_spec).
  assert (tag_text_eq c b = true) as -> by (by apply tag_text_eq_spec).
  by destruct (truthy (id c)).
Qed.

Lemma run_same_for_differ (f : nat → nat) bs cs d :
  Forall2 same_for_differ bs cs →
  run {| unmatched_base := imap (λ i el, (f i, el)) bs; diffs := d |} cs
  = Some {| unmatched_base := []; diffs := d |}.
Proof.
  intros Hall. revert f d.
  induction Hall as [|b c bs cs Hbc Hall IH]; intros f d; [done|].
  simpl. unfold step. simpl. rewrite find_match_head_targets by done.
  unfold pop. simpl. rewrite !bool_decide_eq_true_2 by done. simpl.
  assert (matched_entries b c = []) as ->.
  { apply matched_entries_nil. intros prop Hin. unfold differs_at.
    destruct Hbc as (_ & _ & _ & Hst). intros Hne. by apply Hne, Hst. }
  rewrite app_nil_r. apply (IH (f ∘ S)).
Qed.

(** X5: rect, classes and every style property outside the six target
    properties are invisible to the differ: two sequences that agree
    position by position on tag, id, text and the six target properties
    have the empty diff. *)
Theorem non_target_changes_invisible base compare :
  Forall2 same_for_differ base compare →
  compare_dom_elements base compare = Some [].
Proof.
  intros Hall. unfold compare_dom_elements, init, enumerate.
  by rewrite (run_same_for_differ (λ i, i) base compare [] Hall).
Qed.

Lemma non_target_changes_invisible_witness :
  compare_dom_elements [h1_plain] [h1_moved] = Some [].
Proof.
  apply non_target_changes_invisible.
  constructor; [|constructor]. split_and!; [done..|].
  intros prop Hin. unfold target_styles in Hin.
  repeat (apply elem_of_cons in Hin as [->|Hin]; [done|]).
  by apply elem_of_nil in Hin.
Defined.

End DomDiffMoreFacts.

(** ** The pixel differ: the score and the diff image *)
Module PixelDiffMoreFacts.
Import Binary64 PixelDiff Binary64Facts Binary64Order PixelDiffFacts.

(** *** The score as a function of the counter *)

Lemma diff_score_unfold c t :
  0 < c → 0 < t →
  diff_score c t =
  round_pos c t ≫= λ q,
    fmul q (mk (100 * 2 ^ 46) (-46)) ≫= λ p, Some (to_int p).
Proof.
  intros Hc Ht. unfold diff_score, fdiv_int.
  destruct (Z.eqb_spec t 0) as [|_]; [lia|].
  rewrite Z.sgn_pos, Z.abs_eq, Z.mul_1_r, fround_pos, of_int_100 by lia.
  by destruct (round_pos c t).
Qed.

Lemma fmul_100_unfold m e :
  0 < m → e <= 0 →
  fmul (mk m e) (mk (100 * 2 ^ 46) (-46))
  = round_pos (m * (100 * 2 ^ 46)) (2 ^ (- e) * 2 ^ 46).
Proof.
  intros Hm He. unfold fmul. cbn [mant expo].
  replace (Z.max 0 (e + -46)) with 0 by lia.
  replace (Z.max 0 (- (e + -46))) with (- e + 46) by lia.
  rewrite Z.pow_0_r, Z.mul_1_r, Z.pow_add_r by lia.
  apply fround_pos.
  assert (0 < 2 ^ 46) by (by apply pow2_gt0). nia.
Qed.

Lemma fmul_100_zero e :
  fmul (mk 0 e) (mk (100 * 2 ^ 46) (-46)) = Some (mk 0 0).
Proof. unfold fmul. cbn [mant expo]. by rewrite !Z.mul_0_l. Qed.

(** X6: the score never decreases when more pixels exceed the threshold
    on the same canvas. *)
Theorem diff_score_monotone c1 c2 t s1 s2 :
  0 <= c1 <= c2 → c2 <= t → 0 < t →
  diff_score c1 t = Some s1 → diff_score c2 t = Some s2 → s1 <= s2.
Proof.
  intros Hc1 Hc2 Ht Hs1 Hs2.
  destruct (diff_score_bounds c2 t ltac:(lia) Ht) as (s2' & Hs2' & Hr2).
  rewrite Hs2 in Hs2'. injection Hs2' as <-.
  destruct (Z.eq_dec c1 0) as [->|Hc10].
  { rewrite diff_score_zero in Hs1 by lia. injection Hs1 as <-. lia. }
  rewrite diff_score_unfold in Hs1, Hs2 by lia.
  destruct (round_pos c1 t) as [[m1 e1]|] eqn:Hx1; [|done].
  destruct (round_pos c2 t) as [[m2 e2]|] eqn:Hx2; [|done].
  cbn [mbind option_bind] in Hs1, Hs2.
  destruct (round_pos_mono c1 t c2 t 1 m1 e1 m2 e2) as (He1 & He2 & Hm1 & Hm2 & Hv);
    [lia..|nia|lia|lia|done|done|].
  destruct (Z.eq_dec m1 0) as [->|Hm10].
  { rewrite fmul_100_zero in Hs1. injection Hs1 as <-. vm_compute to_int. lia. }
  assert (0 < 2 ^ (- e1)) as HE1 by (apply pow2_gt0; lia).
  assert (0 < 2 ^ (- e2)) as HE2 by (apply pow2_gt0; lia).
  assert (0 < m2) as Hm2pos by nia.
  rewrite fmul_100_unfold in Hs1, Hs2 by lia.
  assert (0 < 2 ^ 46) as HP by (by apply pow2_gt0).
  set (P := 2 ^ 46) in *. set (E1 := 2 ^ (- e1)) in *. set (E2 := 2 ^ (- e2)) in *.
  destruct (round_pos (m1 * (100 * P)) (E1 * P)) as [[p1 f1]|] eqn:Hy1; [|done].
  destruct (round_pos (m2 * (100 * P)) (E2 * P)) as [[p2 f2]|] eqn:Hy2; [|done].
  cbn [mbind option_bind] in Hs1, Hs2.
  injection Hs1 as <-. injection Hs2 as <-.
  destruct (round_pos_mono (m1 * (100 * P)) (E1 * P) (m2 * (100 * P)) (E2 * P)
              100 p1 f1 p2 f2) as (Hf1 & Hf2 & Hp1 & Hp2 & Hw);
    [nia|nia|nia|nia| |nia|done|done|done|].
  { assert (m1 * E2 * (100 * P * P) <= m2 * E1 * (100 * P * P)) by nia. lia. }
  unfold to_int. cbn [mant expo].
  replace (Z.max 0 f1) with 0 by lia. replace (Z.max 0 (- f1)) with (- f1) by lia.
  replace (Z.max 0 f2) with 0 by lia. replace (Z.max 0 (- f2)) with (- f2) by lia.
  rewrite Z.pow_0_r, !Z.mul_1_r.
  assert (0 < 2 ^ (- f1)) by (apply pow2_gt0; lia).
  assert (0 < 2 ^ (- f2)) by (apply pow2_gt0; lia).
  rewrite !Z.quot_div_nonneg by lia.
  apply div_le_cross; lia.
Qed.

Lemma diff_score_monotone_witness :
  diff_score 29 100 = Some 28 ∧ diff_score 58 100 = Some 57 ∧ 28 <= 57.
Proof.
  assert (diff_score 29 100 = Some 28) as H1 by (by vm_compute).
  assert (diff_score 58 100 = Some 57) as H2 by (by vm_compute).
  split_and!; [done|done|].
  apply (diff_score_monotone 29 58 100 28 57); [lia|lia|lia|done|done].
Defined.

Lemma diff_score_full t : 0 < t → diff_score t t = Some 100.
Proof.
  intros Ht. rewrite diff_score_unfold by lia.
  destruct (round_pos_bound t t 1 0) as (m & e & -> & He & Hm & _ & Herr); [lia..|].
  cbn [mbind option_bind].
  assert (0 < 2 ^ (- e)) as HE by (apply pow2_gt0; lia).
  assert (m = 2 ^ (- e)) as ->.
  { set (E := 2 ^ (- e)) in *.
    assert (2 * Z.abs ((m - E) * t) <= t) as Habs.
    { replace ((m - E) * t) with (m * t - t * E) by ring. done. }
    rewrite Z.abs_mul, (Z.abs_eq t) in Habs by lia. nia. }
  rewrite fmul_100_unfold by lia.
  assert (0 < 2 ^ 46) as HP by (by apply pow2_gt0).
  set (P := 2 ^ 46) in *. set (E := 2 ^ (- e)) in *.
  destruct (round_pos_bound (E * (100 * P)) (E * P) 100 7)
    as (m2 & e2 & -> & He2 & Hm2 & _ & Herr2); [nia|nia|nia|done|lia|].
  cbn [mbind option_bind]. f_equal. unfold to_int. cbn [mant expo].
  replace (Z.max 0 e2) with 0 by lia. replace (Z.max 0 (- e2)) with (- e2) by lia.
  rewrite Z.pow_0_r, Z.mul_1_r.
  assert (0 < 2 ^ (- e2)) as HE2 by (apply pow2_gt0; lia).
  set (E2 := 2 ^ (- e2)) in *.
  assert (m2 = 100 * E2) as ->.
  { assert (2 * Z.abs ((m2 - 100 * E2) * (E * P)) <= E * P) as Habs.
    { replace ((m2 - 100 * E2) * (E * P))
        with (m2 * (E * P) - E * (100 * P) * E2) by ring. done. }
    assert (0 < E * P) by nia.
    rewrite Z.abs_mul, (Z.abs_eq (E * P)) in Habs by lia. nia. }
  rewrite Z.quot_div_nonneg by lia. apply Z.div_mul. lia.
Qed.

(** X7: on a canvas of at most 2^44 pixels a score of 100 means that
    every pixel exceeded the threshold, and conversely. *)
Theorem full_score_iff_all_pixels c t s :
  0 <= c <= t → 0 < t <= 2 ^ 44 → diff_score c t = Some s →
  (s = 100 ↔ c = t).
Proof.
  intros Hc Ht Hs. split.
  - intros ->. destruct (Z.eq_dec c t) as [|Hne]; [done|exfalso].
    pose proof (diff_score_near_exact c t 100 Hc Ht Hs) as [_ Hup].
    unfold exact_percentage in Hup.
    assert (c * 100 / t < 100); [|lia].
    apply Z.div_lt_upper_bound; lia.
  - intros ->. rewrite diff_score_full in Hs by lia. by injection Hs.
Qed.

Lemma full_score_iff_all_pixels_witness :
  diff_score 100 100 = Some 100 ∧ (100 = 100 ↔ 100 = 100).
Proof.
  assert (diff_score 100 100 = Some 100) as H by (by vm_compute).
  split; [done|].
  apply (full_score_iff_all_pixels 100 100 100); [lia|split; [lia|done]|done].
Defined.

(** *** Identical images *)

Lemma distance_self p : distance p p = 0.
Proof. destruct p as [[r g] b]. simpl. lia. Qed.

Lemma divergent_self a w h : divergent a a w h = 0.
Proof.
  unfold divergent.
  assert (List.filter (exceeds a a) (coords w h) = []) as ->; [|done].
  generalize (coords w h). intros l.
  induction l as [|xy l IH]; simpl; [done|].
  unfold exceeds at 1. by rewrite distance_self.
Qed.

(** X8: diffing an 8-bit image against itself on a non-empty canvas gives
    score 0 and a diff image that is the resized image dimmed to
    floor(3v/10) in every channel: no pixel is highlighted. *)
Theorem identical_images_score_zero resize img a :
  resize_contract resize → rgb8 img →
  resize img (width img) (height img) = Some a →
  0 < Z.of_nat (width img) * Z.of_nat (height img) →
  ∃ diff_img,
    pixel_diff resize img img = Some (diff_img, 0) ∧
    ∀ x y, (x < width img)%nat → (y < height img)%nat →
      pixels diff_img x y =
        let '(r, g, b) := pixels a x y in (3 * r / 10, 3 * g / 10, 3 * b / 10).
Proof.
  intros Hres Himg Ha Hpos.
  assert (resize img (width img `min` width img)%nat
            (height img `min` height img)%nat = Some a) as Ha'
    by (by rewrite !Nat.min_id).
  destruct (render_diff_spec resize img img a a Hres Himg Ha' Ha')
    as (out & Hrun & Hw & Hh & Hp).
  rewrite !Nat.min_id in Hrun, Hw, Hh, Hp. rewrite divergent_self in Hrun.
  exists out. split.
  - unfold pixel_diff. rewrite Hrun. cbn [mbind option_bind].
    rewrite Hw, Hh, diff_score_zero by lia. done.
  - intros x y Hx Hy. rewrite (Hp x y Hx ltac:(lia)). unfold classify.
    rewrite distance_self. by destruct (pixels a x y) as [[r g] b].
Qed.

Lemma identical_images_score_zero_witness :
  ∃ diff_img,
    pixel_diff crop (solid 10 10 (200, 100, 50)) (solid 10 10 (200, 100, 50))
      = Some (diff_img, 0) ∧
    ∀ x y, (x < 10)%nat → (y < 10)%nat → pixels diff_img x y = (60, 30, 15).
Proof.
  destruct (identical_images_score_zero crop (solid 10 10 (200, 100, 50)) _
              crop_contract (solid_rgb8 10 10 200 100 50 ltac:(lia) ltac:(lia)
                               ltac:(lia)) eq_refl ltac:(done))
    as (diff_img & Hrun & Hpix).
  exists diff_img. split; [exact Hrun|]. intros x y Hx Hy. exact (Hpix x y Hx Hy).
Defined.

(** *** The diff image is an 8-bit image *)

Lemma classify_rgb8 p1 p2 :
  (let '(r, g, b) := p1 in 0 <= r <= 255 ∧ 0 <= g <= 255 ∧ 0 <= b <= 255) →
  let '(r, g, b) := classify p1 p2 in
  (r = 255 ∧ g = 0 ∧ b = 0) ∨ (0 <= r <= 76 ∧ 0 <= g <= 76 ∧ 0 <= b <= 76).
Proof.
  destruct p1 as [[r g] b]. intros (Hr & Hg & Hb). unfold classify, red.
  destruct (15 <? _); [by left|right]. cbn [fst snd].
  assert (∀ v, 0 <= v <= 255 → 0 <= 3 * v / 10 <= 76) as Hdim.
  { intros v Hv. split; [apply Z.div_pos; lia|].
    assert (3 * v / 10 < 77); [|lia]. apply Z.div_lt_upper_bound; lia. }
  split_and!; by apply Hdim.
Qed.

(** X10: for an 8-bit first image every pixel of the produced diff image
    is either the pure red highlight or has all three channels between 0
    and 76; in particular the diff image is again an 8-bit RGB image. *)
Theorem diff_image_red_or_dim resize img1 img2 diff_img diff_count :
  resize_contract resize → rgb8 img1 →
  render_diff resize img1 img2 = Some (diff_img, diff_count) →
  rgb8 diff_img ∧
  ∀ x y, let '(r, g, b) := pixels diff_img x y in
         (r = 255 ∧ g = 0 ∧ b = 0) ∨ (0 <= r <= 76 ∧ 0 <= g <= 76 ∧ 0 <= b <= 76).
Proof.
  intros Hres H1 Hrun.
  assert (∀ x y, let '(r, g, b) := pixels diff_img x y in
            (r = 255 ∧ g = 0 ∧ b = 0) ∨
            (0 <= r <= 76 ∧ 0 <= g <= 76 ∧ 0 <= b <= 76)) as Hall.
  { unfold render_diff in Hrun.
    set (w := (width img1 `min` width img2)%nat) in *.
    set (h := (height img1 `min` height img2)%nat) in *.
    destruct (resize img1 w h) as [a|] eqn:Ha; cbn [mbind option_bind] in Hrun;
      [|done].
    destruct (resize img2 w h) as [b|] eqn:Hb; cbn [mbind option_bind] in Hrun;
      [|done].
    destruct (Hres _ _ _ _ Ha) as (Hwa & Hha & Hra).
    destruct (Hres _ _ _ _ Hb) as (Hwb & Hhb & _).
    destruct (rows_scan a b (seq 0 h) (seq 0 w) (new_image w h) 0 (Hra H1))
      as (out & Hscan & _ & _ & Hp).
    { intros x y Hx%elem_of_seq Hy%elem_of_seq. unfold in_bounds.
      rewrite Hwa, Hha, Hwb, Hhb. simpl.
      rewrite !bool_decide_eq_true_2 by lia. done. }
    unfold scan in Hrun. rewrite Hscan in Hrun. injection Hrun as <- _.
    intros x y. rewrite Hp. case_bool_decide.
    - apply classify_rgb8. apply (Hra H1).
    - simpl. right. lia. }
  split; [|done].
  intros x y. specialize (Hall x y). destruct (pixels diff_img x y) as [[r g] b].
  lia.
Qed.

Lemma diff_image_red_or_dim_witness :
  ∃ diff_img diff_count,
    render_diff crop (top_run 4 2 3) (solid 4 2 (255, 255, 255))
      = Some (diff_img, diff_count) ∧ rgb8 diff_img.
Proof.
  destruct (render_diff_spec crop (top_run 4 2 3) (solid 4 2 (255, 255, 255))
              _ _ crop_contract (top_run_rgb8 4 2 3) eq_refl eq_refl)
    as (diff_img & Hrun & _).
  eexists diff_img, _. split; [exact Hrun|].
  exact (proj1 (diff_image_red_or_dim crop _ _ _ _ crop_contract
                  (top_run_rgb8 4 2 3) Hrun)).
Defined.

(** *** The counter, whatever the resampler returns *)

Lemma for_each_count {A} (body : A → Image * Z → option (Image * Z)) l k st st' :
  0 <= k →
  (∀ a s s', body a s = Some s' → s.2 <= s'.2 <= s.2 + k) →
  for_each body l st = Some st' →
  st.2 <= st'.2 <= st.2 + k * Z.of_nat (length l).
Proof.
  intros Hk Hbody. revert st. induction l as [|a l IH]; intros st; simpl.
  - intros [= <-]. lia.
  - destruct (body a st) as [s1|] eqn:Hb; simpl; [|done].
    intros Hrest%IH. apply Hbody in Hb. lia.
Qed.

Lemma pixel_step_count a b y x st st' :
  pixel_step a b y x st = Some st' → st.2 <= st'.2 <= st.2 + 1.
Proof.
  unfold pixel_step.
  destruct (getpixel a x y) as [p1|]; simpl; [|done].
  destruct (getpixel b x y) as [p2|]; simpl; [|done].
  destruct (15 <? distance p1 p2).
  - destruct (putpixel st.1 x y (255, 0, 0)); simpl; [|done].
    intros [= <-]. simpl. lia.
  - destruct (dim p1.1.1); simpl; [|done].
    destruct (dim p1.1.2); simpl; [|done].
    destruct (dim p1.2); simpl; [|done].
    destruct (putpixel _ _ _ _); simpl; [|done].
    intros [= <-]. simpl. lia.
Qed.

Lemma scan_count w h a b st st' :
  scan w h a b st = Some st' →
  st.2 <= st'.2 <= st.2 + Z.of_nat w * Z.of_nat h.
Proof.
  unfold scan. intros Hs.
  apply (for_each_count _ _ (Z.of_nat w)) in Hs.
  - by rewrite length_seq in Hs.
  - lia.
  - intros y s s' Hrow.
    apply (for_each_count _ _ 1) in Hrow.
    + rewrite length_seq in Hrow. lia.
    + lia.
    + intros x. apply pixel_step_count.
Qed.

(** Whatever the resampler does, a finished scan has counted between zero
    and all pixels of the canvas. *)
Lemma render_diff_count resize img1 img2 out c :
  render_diff resize img1 img2 = Some (out, c) →
  0 <= c <= Z.of_nat (width img1 `min` width img2)%nat *
            Z.of_nat (height img1 `min` height img2)%nat.
Proof.
  unfold render_diff.
  destruct (resize img1 _ _) as [a|]; simpl; [|done].
  destruct (resize img2 _ _) as [b|]; simpl; [|done].
  intros Hs%scan_count. simpl in Hs. lia.
Qed.

Lemma diff_score_range c t s :
  0 <= c <= t → diff_score c t = Some s → 0 <= s <= 100.
Proof.
  intros Hc Hs. destruct (Z.eq_dec t 0) as [->|Hne].
  - by vm_compute in Hs.
  - destruct (diff_score_bounds c t) as (s' & Hs' & Hr); [lia..|].
    congruence.
Qed.

End PixelDiffMoreFacts.

(** ** The snapshot extractor: what it emits *)
Module ExtractorMoreFacts.
Import Extractor ExtractorMore ExtractorFacts.

(** *** Text of a snapshot *)

(** [trim_start] drops a run of white space and stops at a non-space. *)
Lemma trim_start_spec s :
  ∃ ws, s = ws ++ trim_start s ∧
        Forall (λ c, is_space c = true) ws ∧
        ∀ c, head (trim_start s) = Some c → is_space c = false.
Proof.
  induction s as [|c s (ws & Heq & Hws & Hhd)]; simpl.
  - exists []. by split_and!.
  - destruct (is_space c) eqn:Hc.
    + exists (c :: ws). split_and!; [simpl; by f_equal|by constructor|done].
    + exists []. split_and!; [done|done|]. simpl. by intros ? [= <-].
Qed.

Lemma trim_start_length s : (length (trim_start s) <= length s)%nat.
Proof.
  destruct (trim_start_spec s) as (ws & Heq & _).
  rewrite Heq at 2. rewrite length_app. lia.
Qed.

Lemma trim_length s : (length (trim s) <= length s)%nat.
Proof.
  unfold trim. rewrite length_reverse.
  etrans; [apply trim_start_length|]. rewrite length_reverse.
  apply trim_start_length.
Qed.

Lemma trim_head s c : head (trim s) = Some c → is_space c = false.
Proof.
  unfold trim.
  destruct (trim_start_spec s) as (ws1 & _ & _ & Hhd1).
  set (t1 := trim_start s) in *.
  destruct (trim_start_spec (reverse t1)) as (ws2 & Heq2 & _ & _).
  set (t2 := trim_start (reverse t1)) in *.
  assert (t1 = reverse t2 ++ reverse ws2) as Ht1.
  { rewrite <- reverse_app, <- Heq2. by rewrite reverse_involutive. }
  intros Hhd. apply Hhd1. rewrite Ht1.
  destruct (reverse t2) as [|c' l]; simpl in *; [discriminate Hhd|done].
Qed.

Lemma trim_last s c : last (trim s) = Some c → is_space c = false.
Proof.
  unfold trim. rewrite last_reverse.
  destruct (trim_start_spec (reverse (trim_start s))) as (_ & _ & _ & Hhd).
  apply Hhd.
Qed.

Lemma cut_text_length node : (length (cut_text node) <= 200)%nat.
Proof.
  unfold cut_text. destruct (innerText node) as [s|]; [|simpl; lia].
  rewrite length_take. lia.
Qed.

(** X11: the text the script cuts out of [innerText] has at most 200
    UTF-16 code units and does not start with a white-space or line
    terminator character of JavaScript (the full set that [trim] removes);
    when [innerText] itself has at most 200 code units, it does not end
    with one either. *)
Theorem snapshot_text_bounded_trimmed node :
  (length (cut_text node) <= 200)%nat ∧
  (∀ c, head (cut_text node) = Some c → is_space c = false) ∧
  (∀ s c, innerText node = Some s → (length s <= 200)%nat →
          last (cut_text node) = Some c → is_space c = false).
Proof.
  split; [apply cut_text_length|]. unfold cut_text. split.
  - destruct (innerText node) as [s|]; [|by intros c].
    intros c Hc. apply (trim_head s).
    by destruct (trim s).
  - intros s c -> Hlen. rewrite take_ge by (pose proof (trim_length s); lia).
    apply trim_last.
Qed.

(** The ideographic space in front and the line separator behind are
    trimmed like the plain spaces. *)
Example cut_text_long_paragraph :
  cut_text long_paragraph = js "Lorem ipsum dolor sit amet".
Proof. reflexivity. Qed.

(** *** Invariant of the emitted snapshots *)

Lemma snapshot_styles_keys to_python page node style rect prop :
  is_Some (DomDiff.styles (snapshot to_python page node style rect) !! prop)
  ↔ prop ∈ DomDiff.target_styles.
Proof.
  unfold snapshot. cbn [DomDiff.styles].
  set (l := [ ("color", color style); ("background-color", backgroundColor style);
              ("font-family", fontFamily style); ("font-size", fontSize style);
              ("font-weight", fontWeight style); ("text-align", textAlign style)
            ]%string).
  assert (l.*1 = DomDiff.target_styles) as Hkeys by done.
  rewrite <- Hkeys. split.
  - intros [v Hv]. destruct (decide (prop ∈ l.*1)) as [|Hn]; [done|exfalso].
    apply (not_elem_of_list_to_map (M := gmap string)) in Hn. congruence.
  - intros Hin. apply not_eq_None_Some. intros Hn.
    by apply (not_elem_of_list_to_map (M := gmap string)) in Hn.
Qed.

Lemma emitted_invariant to_python page node el :
  emitted to_python page node = Some el → snapshot_invariant to_python el.
Proof.
  unfold emitted.
  destruct (getComputedStyle node) as [style|]; [|done].
  destruct (getBoundingClientRect node) as [rect|]; [|done].
  cbn [mbind option_bind].
  destruct (hidden style rect) eqn:Hh; [done|].
  destruct (qualifies node); [|done]. intros [= <-].
  unfold hidden in Hh. rewrite !orb_false_iff in Hh.
  destruct Hh as [[[Hw Hht] _] _].
  split_and!; [by eexists| |done|done|].
  - intros prop. apply snapshot_styles_keys.
  - exists (cut_text node). split; [apply cut_text_length|].
    cbn [snapshot DomDiff.text]. unfold snapshot_text.
    by destruct (cut_text node).
Qed.

Lemma extraction_some to_python page els :
  extraction_script to_python page = Some els →
  els = omap (emitted to_python page) (nodes page).
Proof.
  unfold extraction_script. intros Hw.
  destruct (decide (Exists throws (nodes page))) as [Hex|Hnex].
  - by rewrite (walk_throws to_python page _ [] Hex) in Hw.
  - apply not_Exists_Forall in Hnex; [|solve_decision].
    rewrite (walk_completes to_python page _ [] Hnex) in Hw. by injection Hw.
Qed.

(** X12: every snapshot the extraction returns has an id, exactly the six
    target style properties, a rect of non-zero width and height and a
    text that is what arrives of at most 200 code units; and there are at
    most as many snapshots as walked nodes. *)
Theorem extracted_snapshots_invariant to_python page els :
  extraction_script to_python page = Some els →
  Forall (snapshot_invariant to_python) els ∧
  (length els <= length (nodes page))%nat.
Proof.
  intros ->%extraction_some. split.
  - apply Forall_forall. intros el (node & _ & Hem)%list_elem_of_omap.
    by eapply emitted_invariant.
  - generalize (nodes page). intros ns.
    induction ns as [|n ns IH]; [done|].
    change (omap (emitted to_python page) (n :: ns))
      with (match emitted to_python page n with
            | Some el => el :: omap (emitted to_python page) ns
            | None => omap (emitted to_python page) ns
            end).
    destruct (emitted to_python page n); cbn [length]; lia.
Qed.

Lemma extracted_snapshots_invariant_witness :
  Forall (snapshot_invariant latin1)
    [snapshot latin1 (page_of [long_paragraph]) long_paragraph plain_style
              DomDiff.sample_rect] ∧
  (1 <= 1)%nat.
Proof.
  exact (extracted_snapshots_invariant latin1 (page_of [long_paragraph]) _ eq_refl).
Defined.

(** *** Extractor and differ together *)

Lemma emitted_pair to_python p1 p2 n :
  match emitted to_python p1 n, emitted to_python p2 n with
  | Some a, Some b => DomDiff.same_snapshot a b
  | None, None => True
  | _, _ => False
  end.
Proof.
  unfold emitted.
  destruct (getComputedStyle n) as [style|]; [|done].
  destruct (getBoundingClientRect n) as [rect|]; [|done].
  cbn [mbind option_bind].
  destruct (hidden style rect); [done|].
  destruct (qualifies n); [|done]. by split_and!.
Qed.

Lemma emitted_same_snapshot to_python p1 p2 ns :
  Forall2 DomDiff.same_snapshot (omap (emitted to_python p1) ns)
          (omap (emitted to_python p2) ns).
Proof.
  induction ns as [|n ns IH]; [constructor|].
  assert (∀ p, omap (emitted to_python p) (n :: ns)
               = match emitted to_python p n with
                 | Some el => el :: omap (emitted to_python p) ns
                 | None => omap (emitted to_python p) ns
                 end) as Hc by done.
  rewrite !Hc. pose proof (emitted_pair to_python p1 p2 n) as Hp.
  destruct (emitted to_python p1 n), (emitted to_python p2 n); try done.
  by constructor.
Qed.

(** X13: two extractions of pages with the same nodes, whatever their
    scroll offsets, have the empty DOM diff: a page compared with itself
    reports no added, removed or changed element. *)
Theorem same_page_no_dom_diff to_python p1 p2 els1 els2 :
  nodes p1 = nodes p2 →
  extraction_script to_python p1 = Some els1 →
  extraction_script to_python p2 = Some els2 →
  DomDiff.compare_dom_elements els1 els2 = Some [].
Proof.
  intros Hn ->%extraction_some ->%extraction_some. rewrite Hn.
  unfold DomDiff.compare_dom_elements, DomDiff.init, DomDiff.enumerate.
  by rewrite (DomDiffFacts.run_same_order (λ i, i) _ _ []
                (emitted_same_snapshot to_python p1 p2 (nodes p2))).
Qed.

Lemma same_page_no_dom_diff_witness :
  DomDiff.compare_dom_elements
    [snapshot latin1 (page_of []) buy_button plain_style DomDiff.sample_rect;
     snapshot latin1 (page_of []) long_paragraph plain_style DomDiff.sample_rect]
    [snapshot latin1 (scrolled []) buy_button plain_style DomDiff.sample_rect;
     snapshot latin1 (scrolled []) long_paragraph plain_style DomDiff.sample_rect]
  = Some [].
Proof.
  exact (same_page_no_dom_diff latin1 (page_of [buy_button; long_paragraph])
           (scrolled [buy_button; long_paragraph]) _ _ eq_refl eq_refl eq_refl).
Defined.

End ExtractorMoreFacts.

(** ** Serving and deleting the results of a run *)
Module VisualServeFacts.
Import VisualRun VisualServe VisualRunFacts.

(** *** Strings and paths *)

Lemma append_assoc (a b c : string) : (a +:+ b) +:+ c = a +:+ (b +:+ c).
Proof.
  induction a as [|x a IH]; [done|].
  change (String x ((a +:+ b) +:+ c) = String x (a +:+ (b +:+ c))).
  by rewrite IH.
Qed.

Lemma prefix_cons x a b :
  String.prefix (String x a) (String x b) = String.prefix a b.
Proof. cbn. by destruct (Ascii.ascii_dec x x). Qed.

Lemma prefix_app_l (a b c : string) :
  String.prefix (a +:+ b) (a +:+ c) = String.prefix b c.
Proof.
  induction a as [|x a IH]; [done|].
  change (String.prefix (String x (a +:+ b)) (String x (a +:+ c)) =
          String.prefix b c).
  by rewrite prefix_cons.
Qed.

Lemma prefix_nil (s : string) : String.prefix EmptyString s = true.
Proof. by destruct s. Qed.

Lemma list_ascii_app (a b : string) :
  String.list_ascii_of_string (a +:+ b) =
  String.list_ascii_of_string a ++ String.list_ascii_of_string b.
Proof.
  induction a as [|x a IH]; [done|].
  change (x :: String.list_ascii_of_string (a +:+ b) =
          x :: (String.list_ascii_of_string a ++ String.list_ascii_of_string b)).
  by rewrite IH.
Qed.

Lemma append_inj_r (a b c : string) : a +:+ c = b +:+ c → a = b.
Proof.
  intros H. apply (f_equal String.list_ascii_of_string) in H.
  rewrite !list_ascii_app in H. apply app_inv_tail in H.
  apply (f_equal String.string_of_list_ascii) in H.
  by rewrite !String.string_of_list_ascii_of_string in H.
Qed.

Lemma prefix_cons_inv x y a b :
  String.prefix (String x a) (String y b) = true →
  x = y ∧ String.prefix a b = true.
Proof. cbn. by destruct (Ascii.ascii_dec x y). Qed.

Lemma has_slash_cons x a :
  has_slash (String x a) = false →
  String x EmptyString ≠ "/" ∧ has_slash a = false.
Proof.
  cbn. intros [H1 H2]%orb_false_iff. split; [|done].
  by apply bool_decide_eq_false in H1.
Qed.

(** A slash-free id followed by a slash is a prefix of another such only
    when the ids are equal. *)
Lemma prefix_slash_free (a b rest : string) :
  has_slash a = false → has_slash b = false →
  String.prefix (a +:+ "/") (b +:+ "/" +:+ rest) = true → a = b.
Proof.
  revert b. induction a as [|x a IH]; intros [|y b] Ha Hb Hp.
  - done.
  - exfalso. apply has_slash_cons in Hb as [Hb _].
    apply prefix_cons_inv in Hp as [Hp _]. apply Hb. by rewrite <-Hp.
  - exfalso. apply has_slash_cons in Ha as [Ha _].
    apply prefix_cons_inv in Hp as [Hp _]. apply Ha. by rewrite Hp.
  - apply has_slash_cons in Ha as [_ Ha]. apply has_slash_cons in Hb as [_ Hb].
    apply prefix_cons_inv in Hp as [-> Hp]. f_equal. by apply IH.
Qed.

(** *** Paths of different sessions *)

Lemma under_own_folder folder (rest : string) :
  under folder (folder +:+ "/" +:+ rest) = true.
Proof.
  unfold under. rewrite prefix_app_l.
  change (String.prefix ("/" +:+ EmptyString) ("/" +:+ rest) = true).
  rewrite prefix_app_l. apply prefix_nil.
Qed.

Lemma under_diffs sid sid' (rest : string) :
  under ("diffs/" +:+ sid) (session_folder sid' +:+ "/" +:+ rest) =
  String.prefix (sid +:+ "/") (sid' +:+ "/" +:+ rest).
Proof.
  unfold under, session_folder. rewrite !append_assoc. apply prefix_app_l.
Qed.

(** No file of another session lies under a folder of this one. *)
Lemma other_session_not_under sid sid' folder p :
  has_slash sid = false → has_slash sid' = false → sid' ≠ sid →
  folder ∈ folders sid → p ∈ session_paths sid' → under folder p = false.
Proof.
  intros Hs Hs' Hne Hf Hp.
  assert (∃ rest : string, p = session_folder sid' +:+ "/" +:+ rest) as [rest ->].
  { unfold session_paths in Hp.
    repeat (apply elem_of_cons in Hp as [->|Hp]; [by eexists|]).
    by apply elem_of_nil in Hp. }
  unfold folders in Hf.
  repeat (apply elem_of_cons in Hf as [->|Hf]; [try done|]).
  2: by apply elem_of_nil in Hf.
  - rewrite under_diffs.
    destruct (String.prefix _ _) eqn:Hpre; [|done].
    exfalso. apply Hne. symmetry. by eapply prefix_slash_free.
Qed.

Lemma session_path_under sid p :
  p ∈ session_paths sid → under (session_folder sid) p = true.
Proof.
  unfold session_paths. intros Hp.
  repeat (apply elem_of_cons in Hp as [->|Hp]; [apply under_own_folder|]).
  by apply elem_of_nil in Hp.
Qed.

Lemma last_char_ne (a b c d : string) x y :
  x ≠ y → a +:+ c +:+ String x EmptyString ≠ b +:+ d +:+ String y EmptyString.
Proof.
  intros Hne Heq. apply (f_equal String.list_ascii_of_string) in Heq.
  rewrite !list_ascii_app in Heq. apply (f_equal last) in Heq.
  rewrite !app_assoc in Heq. cbn [String.list_ascii_of_string] in Heq.
  rewrite !last_snoc in Heq. congruence.
Qed.

(** The report of a session is none of the files of another. *)
Lemma report_not_in_other sid sid' :
  sid' ≠ sid → report_path sid' ∉ session_paths sid.
Proof.
  intros Hne. unfold session_paths. intros Hp.
  apply elem_of_cons in Hp as [H|Hp]; [|apply elem_of_cons in Hp as [H|Hp];
    [|apply elem_of_cons in Hp as [H|Hp];
      [|apply elem_of_cons in Hp as [H|Hp]; [|by apply elem_of_nil in Hp]]]].
  - revert H. by apply (last_char_ne _ _ "/diff_report.jso" "/base.pn").
  - revert H. by apply (last_char_ne _ _ "/diff_report.jso" "/compare.pn").
  - apply Hne. unfold report_path, session_folder in H.
    apply append_inj_r in H. by apply (inj (String.app _)) in H.
  - revert H. by apply (last_char_ne _ _ "/diff_report.jso" "/diff.pn").
Qed.

(** *** The queries *)

Lemma filter_filter {A} (f g : A → bool) l :
  (∀ x, f x = true → g x = true) →
  List.filter f (List.filter g l) = List.filter f l.
Proof.
  intros Hfg. induction l as [|x l IH]; [done|]. simpl.
  destruct (g x) eqn:Hg; simpl.
  - by rewrite IH.
  - destruct (f x) eqn:Hf; [|done]. apply Hfg in Hf. congruence.
Qed.

Lemma filter_sublist {A} (f : A → bool) l : List.filter f l `sublist_of` l.
Proof.
  induction l as [|x l IH]; [done|]. simpl.
  destruct (f x); by constructor.
Qed.

Lemma filter_none {A} (f : A → bool) l :
  Forall (λ x, f x = false) l → List.filter f l = [].
Proof. induction 1 as [|x l Hx _ IH]; [done|]. simpl. by rewrite Hx. Qed.

Lemma results_for_app sid w rs :
  List.filter (λ r, bool_decide (session_id r = sid)) (results w ++ rs) =
  results_for sid w ++ List.filter (λ r, bool_decide (session_id r = sid)) rs.
Proof. apply List.filter_app. Qed.

(** *** Cleanup, one folder at a time *)

Lemma remove_folder_other survives files folder p :
  under folder p = false → remove_folder survives files folder !! p = files !! p.
Proof.
  intros Hp. unfold remove_folder, rmtree.
  destruct (folder_exists folder files); [|done].
  apply option_eq. intros f. rewrite map_lookup_filter_Some. simpl.
  split; [by intros [? _] | intros ?; split; [done|by left]].
Qed.

Lemma remove_folder_subseteq survives files folder :
  remove_folder survives files folder ⊆ files.
Proof.
  unfold remove_folder, rmtree.
  destruct (folder_exists folder files); [|done].
  apply map_filter_subseteq.
Qed.

Lemma remove_folder_removes survives files folder p :
  survives folder p = false → under folder p = true →
  remove_folder survives files folder !! p = None.
Proof.
  intros Hok Hp. unfold remove_folder, rmtree, folder_exists.
  case_bool_decide as Hex.
  - apply map_lookup_filter_None. right. intros f _. simpl.
    intros [?|?]; congruence.
  - apply not_elem_of_dom. intros Hin. apply Hex. by exists p.
Qed.

Lemma cleanup_fold_subseteq survives l files :
  foldl (remove_folder survives) files l ⊆ files.
Proof.
  revert files. induction l as [|folder l IH]; intros files; [done|]. simpl.
  etrans; [apply IH|]. apply remove_folder_subseteq.
Qed.

Lemma cleanup_fold_other survives l files p :
  Forall (λ folder, under folder p = false) l →
  foldl (remove_folder survives) files l !! p = files !! p.
Proof.
  intros Hl. revert files. induction Hl as [|folder l Hf _ IH]; intros files;
    [done|]. simpl. rewrite IH. by apply remove_folder_other.
Qed.

Lemma cleanup_fold_removes survives l files folder p :
  (∀ f, f ∈ l → survives f p = false) → folder ∈ l → under folder p = true →
  foldl (remove_folder survives) files l !! p = None.
Proof.
  intros Hok Hin Hp. revert files.
  induction l as [|f l IH]; intros files; [by apply elem_of_nil in Hin|].
  simpl. apply elem_of_cons in Hin as [<-|Hin].
  - eapply lookup_weaken_None; [|apply cleanup_fold_subseteq].
    apply remove_folder_removes; [|done]. apply Hok. by left.
  - apply IH; [|done]. intros f' Hf'. apply Hok. by right.
Qed.

(** *** Cleanup *)

(** X14: with the deletes and the removals succeeding, cleanup leaves no
    result row of the session, no file under any of its three folders (in
    particular none of the four files of a comparison run), and keeps the
    session row, so that the results endpoint then answers with an empty
    payload and not with 404. *)
Theorem cleanup_clears_session survives sid w :
  (∀ folder p, folder ∈ folders sid → survives folder p = false) →
  let w' := perform_session_cleanup true survives sid w in
  results_for sid w' = [] ∧
  (∀ folder p, folder ∈ folders sid → under folder p = true →
               fs w' !! p = None) ∧
  (∀ p, p ∈ session_paths sid → fs w' !! p = None) ∧
  sessions w' = sessions w ∧
  (∀ user, is_Some (sessions w !! sid) →
     get_any_results (Some user) "visual" sid w' =
     visual {| response_results := []; dom_diffs := [] |}).
Proof.
  intros Hok w'.
  assert (results_for sid w' = []) as Hres.
  { unfold results_for, w'. simpl. apply filter_none.
    apply Forall_forall. intros r Hr.
    apply list_elem_of_In, List.filter_In in Hr as [_ Hr].
    apply bool_decide_eq_true in Hr. by apply bool_decide_eq_false. }
  assert (∀ folder p, folder ∈ folders sid → under folder p = true →
                      fs w' !! p = None) as Hunder.
  { intros folder p Hin Hp.
    apply (cleanup_fold_removes survives _ _ folder); [|done..].
    intros f Hf. by apply Hok. }
  assert (∀ p, p ∈ session_paths sid → fs w' !! p = None) as Hpaths.
  { intros p Hp. apply (Hunder (session_folder sid)).
    - unfold folders. do 2 apply list_elem_of_further. apply list_elem_of_here.
    - by apply session_path_under. }
  split_and!; try done.
  intros user [s Hs]. unfold get_any_results.
  change (sessions w') with (sessions w). rewrite Hs.
  rewrite bool_decide_eq_true_2 by done. rewrite Hres.
  unfold load_report. rewrite Hpaths; [done|].
  unfold session_paths. do 2 apply list_elem_of_further. apply list_elem_of_here.
Qed.

Lemma cleanup_clears_session_witness :
  let w' := perform_session_cleanup true (λ _ _, false) "vis_12" world2 in
  results_for "vis_12" w' = [] ∧
  (∀ folder p, folder ∈ folders "vis_12" → under folder p = true →
               fs w' !! p = None) ∧
  (∀ p, p ∈ session_paths "vis_12" → fs w' !! p = None) ∧
  sessions w' = sessions world2 ∧
  (∀ user, is_Some (sessions world2 !! "vis_12") →
     get_any_results (Some user) "visual" "vis_12" w' =
     visual {| response_results := []; dom_diffs := [] |}).
Proof.
  apply (cleanup_clears_session (λ _ _, false) "vis_12" world2). reflexivity.
Defined.

(** X15: for session ids that are plain path components (not empty, no
    slash, neither [.] nor [..]), whatever fails, cleanup of one session
    only removes: no file is created or changed, no result row added or
    reordered, the sessions table is as before; files outside the three
    folders stay; and for another session its result rows, its four files
    and the answer of the results endpoint are the same as before. *)
Theorem cleanup_spares_other_sessions db_ok survives sid sid' w :
  plain_id sid = true → plain_id sid' = true → sid' ≠ sid →
  let w' := perform_session_cleanup db_ok survives sid w in
  fs w' ⊆ fs w ∧ results w' `sublist_of` results w ∧
  sessions w' = sessions w ∧
  (∀ p, Forall (λ folder, under folder p = false) (folders sid) →
        fs w' !! p = fs w !! p) ∧
  results_for sid' w' = results_for sid' w ∧
  (∀ p, p ∈ session_paths sid' → fs w' !! p = fs w !! p) ∧
  (∀ user session_type,
     get_any_results user session_type sid' w' =
     get_any_results user session_type sid' w).
Proof.
  intros [Hs%negb_true_iff _]%andb_true_iff [Hs'%negb_true_iff _]%andb_true_iff
    Hne w'.
  assert (results_for sid' w' = results_for sid' w) as Hres.
  { unfold results_for, w'. simpl. destruct db_ok; [|done].
    apply filter_filter. intros r Hr%bool_decide_eq_true.
    apply bool_decide_eq_true. congruence. }
  assert (∀ p, Forall (λ folder, under folder p = false) (folders sid) →
               fs w' !! p = fs w !! p) as Hout.
  { intros p Hp. by apply cleanup_fold_other. }
  assert (∀ p, p ∈ session_paths sid' → fs w' !! p = fs w !! p) as Hpaths.
  { intros p Hp. apply Hout. apply Forall_forall. intros folder Hf.
    by apply (other_session_not_under sid sid'). }
  split_and!; try done.
  - apply cleanup_fold_subseteq.
  - unfold w'. simpl. destruct db_ok; [|done]. apply filter_sublist.
  - intros user session_type. unfold get_any_results, load_report.
    change (sessions w') with (sessions w). rewrite Hres.
    rewrite Hpaths; [done|].
    unfold session_paths. do 2 apply list_elem_of_further. apply list_elem_of_here.
Qed.

Lemma cleanup_spares_other_sessions_witness :
  let w' := perform_session_cleanup true (λ _ _, false) "vis_1" world2 in
  fs w' ⊆ fs world2 ∧ results w' `sublist_of` results world2 ∧
  sessions w' = sessions world2 ∧
  (∀ p, Forall (λ folder, under folder p = false) (folders "vis_1") →
        fs w' !! p = fs world2 !! p) ∧
  results_for "vis_12" w' = results_for "vis_12" world2 ∧
  (∀ p, p ∈ session_paths "vis_12" → fs w' !! p = fs world2 !! p) ∧
  (∀ user session_type,
     get_any_results user session_type "vis_12" w' =
     get_any_results user session_type "vis_12" world2).
Proof.
  apply (cleanup_spares_other_sessions true (λ _ _, false) "vis_1" "vis_12" world2);
    [reflexivity|reflexivity|discriminate].
Defined.

(** *** What a run may change *)

Lemma only_session_changed_refl sid w : only_session_changed sid w w.
Proof.
  split_and!; try done. exists []. split; [by rewrite app_nil_r|constructor].
Qed.

Lemma only_session_changed_trans sid w1 w2 w3 :
  only_session_changed sid w1 w2 → only_session_changed sid w2 w3 →
  only_session_changed sid w1 w3.
Proof.
  intros (Hf1 & Hs1 & Hd1 & new1 & Hr1 & Hn1) (Hf2 & Hs2 & Hd2 & new2 & Hr2 & Hn2).
  split_and!.
  - intros p Hp. by rewrite Hf2, Hf1.
  - intros sid' Hne. by rewrite Hs2, Hs1.
  - by rewrite Hd2.
  - exists (new1 ++ new2). split.
    + by rewrite Hr2, Hr1, app_assoc.
    + by apply Forall_app.
Qed.

Lemma only_session_changed_write sid path f w :
  path ∈ session_paths sid → only_session_changed sid w (write path f w).
Proof.
  intros Hin. split_and!; try done.
  - intros p Hp. simpl. apply lookup_insert_ne. by intros ->.
  - exists []. split; [by rewrite app_nil_r|constructor].
Qed.

Lemma only_session_changed_completed env sid r w :
  session_id r = sid → only_session_changed sid w (mark_completed env sid r w).
Proof.
  intros Hr. unfold mark_completed.
  destruct (sessions w !! sid) eqn:Hs; [|apply only_session_changed_refl].
  split_and!; try done.
  - intros sid' Hne. simpl. by apply lookup_insert_ne.
  - simpl. by apply dom_insert_lookup_L.
  - exists [r]. split; [done|]. by repeat constructor.
Qed.

Lemma only_session_changed_error sid w :
  only_session_changed sid w (mark_error sid w).
Proof.
  split_and!; try done.
  - intros sid' Hne. simpl. destruct (sessions w !! sid); [|done].
    by apply lookup_insert_ne.
  - simpl. destruct (sessions w !! sid) eqn:Hs; [|done].
    by apply dom_insert_lookup_L.
  - exists []. split; [by rewrite app_nil_r|constructor].
Qed.

Lemma framed_ret sid {A} (a : A) : framed sid (ret a).
Proof. intros w. apply only_session_changed_refl. Qed.

Lemma framed_raise sid {A} : framed sid (@raise A).
Proof. intros w. apply only_session_changed_refl. Qed.

Lemma framed_lift sid {A} (o : option A) : framed sid (lift o).
Proof. intros w. apply only_session_changed_refl. Qed.

Lemma framed_guard sid b : framed sid (guard b).
Proof. destruct b; [apply framed_ret|apply framed_raise]. Qed.

Lemma framed_read sid {A} (f : World → A) : framed sid (read f).
Proof. intros w. apply only_session_changed_refl. Qed.

Lemma framed_modify sid f :
  (∀ w, only_session_changed sid w (f w)) → framed sid (modify f).
Proof. intros Hf w. apply Hf. Qed.

Lemma framed_bind sid {A B} (m : M A) (k : A → M B) :
  framed sid m → (∀ a, framed sid (k a)) → framed sid (bind m k).
Proof.
  intros Hm Hk w. specialize (Hm w). unfold bind.
  destruct (m w) as [[a|] w1]; [|done].
  eapply only_session_changed_trans; [exact Hm|apply Hk].
Qed.

Lemma framed_try_except sid (body handler : M unit) :
  framed sid body → framed sid handler → framed sid (try_except body handler).
Proof.
  intros Hb Hh w. specialize (Hb w). unfold try_except.
  destruct (body w) as [[a|] w1]; [done|].
  eapply only_session_changed_trans; [exact Hb|apply Hh].
Qed.

Lemma framed_capture_page sid env url path :
  path ∈ session_paths sid → framed sid (capture_page env url path).
Proof.
  intros Hin. unfold capture_page.
  apply framed_bind; [apply framed_guard|]. intros _.
  apply framed_bind; [apply framed_lift|]. intros shot.
  apply framed_bind; [|intros _; apply framed_lift].
  apply framed_modify. intros w. by apply only_session_changed_write.
Qed.

Lemma framed_dom_diff_step sid env base_dom compare_dom :
  framed sid (dom_diff_step env sid base_dom compare_dom).
Proof.
  unfold dom_diff_step. apply framed_try_except; [|apply framed_ret].
  apply framed_bind; [apply framed_lift|]. intros dom_diffs.
  apply framed_bind; [apply framed_guard|]. intros _.
  apply framed_modify. intros w. apply only_session_changed_write.
  unfold session_paths. do 2 apply list_elem_of_further. apply list_elem_of_here.
Qed.

Lemma framed_open_image sid path : framed sid (open_image path).
Proof.
  unfold open_image. apply framed_bind; [apply framed_read|].
  intros [[[img|]|]|]; first [apply framed_ret|apply framed_raise].
Qed.

Lemma framed_process_image_diff sid env burl curl :
  framed sid (process_image_diff env sid burl curl).
Proof.
  unfold process_image_diff. apply framed_try_except.
  - apply framed_bind; [apply framed_open_image|]. intros img1.
    apply framed_bind; [apply framed_open_image|]. intros img2. cbv zeta.
    apply framed_bind; [apply framed_lift|]. intros rendered.
    apply framed_bind; [apply framed_guard|]. intros _.
    apply framed_bind.
    { apply framed_modify. intros w. apply only_session_changed_write.
      unfold session_paths. do 3 apply list_elem_of_further.
      apply list_elem_of_here. }
    intros _. apply framed_bind; [apply framed_lift|]. intros score.
    apply framed_modify. intros w. by apply only_session_changed_completed.
  - apply framed_modify. intros w. apply only_session_changed_error.
Qed.

(** The steps of a run inside the outer [try]. *)
Lemma framed_run sid env burl curl :
  framed sid
    (_ <- guard (launch env) ;;
     base_dom <- capture_page env burl (base_path sid) ;;
     compare_dom <- capture_page env curl (compare_path sid) ;;
     _ <- dom_diff_step env sid base_dom compare_dom ;;
     process_image_diff env sid burl curl).
Proof.
  apply framed_bind; [apply framed_guard|]. intros _.
  apply framed_bind.
  { apply framed_capture_page. apply list_elem_of_here. }
  intros base_dom. apply framed_bind.
  { apply framed_capture_page. apply list_elem_of_further, list_elem_of_here. }
  intros compare_dom.
  apply framed_bind; [apply framed_dom_diff_step|]. intros _.
  apply framed_process_image_diff.
Qed.

(** X16: a comparison run changes nothing outside its own session: every
    file other than the four of the session is as before, every other
    session row is as before, no session row is created or deleted, and
    the result rows of before are kept in place, followed by rows of this
    session only. *)
Theorem run_touches_only_own_session env burl curl sid w :
  only_session_changed sid w (compare_images_logic env burl curl sid w).
Proof.
  unfold compare_images_logic.
  apply (framed_try_except sid); [apply framed_run|apply framed_ret].
Qed.

(** X17: a run of one session does not change what the results endpoint
    answers for any other session, whoever asks and whatever the type of
    that session. *)
Theorem run_keeps_other_sessions_results env burl curl sid sid' w user session_type :
  sid' ≠ sid →
  get_any_results user session_type sid'
    (compare_images_logic env burl curl sid w) =
  get_any_results user session_type sid' w.
Proof.
  intros Hne.
  assert (only_session_changed sid w (compare_images_logic env burl curl sid w))
    as (Hf & Hs & _ & new & Hr & Hnew).
  { unfold compare_images_logic.
    apply (framed_try_except sid); [apply framed_run|apply framed_ret]. }
  unfold get_any_results, load_report, results_for.
  rewrite (Hs sid' Hne), Hr, List.filter_app.
  rewrite (filter_none _ new), app_nil_r.
  - by rewrite (Hf _ (report_not_in_other sid sid' Hne)).
  - eapply Forall_impl; [exact Hnew|]. intros r Hsid. simpl in Hsid.
    apply bool_decide_eq_false. congruence.
Qed.

Lemma run_keeps_other_sessions_results_witness :
  get_any_results (Some "ann") "visual" "vis_12"
    (compare_images_logic (env_of both_up true) "http://a.test" "http://b.test"
       "vis_1" world2) =
  get_any_results (Some "ann") "visual" "vis_12" world2.
Proof.
  apply (run_keeps_other_sessions_results (env_of both_up true)
           "http://a.test" "http://b.test" "vis_1" "vis_12" world2). discriminate.
Defined.

(** *** The endpoint after a run *)

Lemma fresh_results_for w sid : fresh w sid → results_for sid w = [].
Proof.
  intros [_ Hres]. apply filter_none, Forall_forall. intros r Hin.
  apply bool_decide_eq_false. by apply Hres.
Qed.

(** X18: for a session with a row and nothing else yet, the results
    endpoint after the run answers with exactly what the run produced: one
    item with the score and the path of the diff image when capture and
    pixel phase succeeded, no item otherwise; and the entries of
    [compare_dom_elements] on the two snapshots when the capture succeeded
    and the report could be written, no entries otherwise. *)
Theorem results_endpoint_after_run env burl curl sid w user :
  fresh w sid → is_Some (sessions w !! sid) →
  get_any_results (Some user) "visual" sid
    (compare_images_logic env burl curl sid w) =
  visual
    {| response_results :=
         match captured env burl curl, pixel_outcome env burl curl with
         | Some _, Some s => [{| score := s; diff_img := diff_path sid |}]
         | _, _ => []
         end;
       dom_diffs :=
         match captured env burl curl with
         | Some (base_dom, compare_dom) =>
             if report_writable env
             then default [] (DomDiff.compare_dom_elements base_dom compare_dom)
             else []
         | None => []
         end |}.
Proof.
  intros Hfresh [s0 Hs0].
  pose proof (fresh_results_for w sid Hfresh) as Hnone.
  destruct Hfresh as [Hfs _].
  pose proof (run_summary env burl curl sid w) as Hsum. cbv zeta in Hsum.
  unfold get_any_results, load_report, results_for in *.
  rewrite bool_decide_eq_true_2 by done.
  destruct (captured env burl curl) as [[base_dom compare_dom]|].
  - destruct Hsum as [(dom_diffs & Hd & Hrep) Hpix]. rewrite Hrep, Hd.
    assert (match (if report_writable env then Some (json_report dom_diffs)
                   else fs w !! report_path sid) with
            | Some (json_report d) => d
            | _ => []
            end = if report_writable env then default [] (Some dom_diffs) else [])
      as ->.
    { destruct (report_writable env); [done|]. by rewrite Hfs. }
    rewrite Hs0 in Hpix.
    destruct (pixel_outcome env burl curl) as [score|];
      destruct Hpix as [-> ->]; try rewrite Hs0.
    + rewrite lookup_insert_eq, List.filter_app, Hnone. simpl.
      by rewrite bool_decide_eq_true_2.
    + by rewrite lookup_insert_eq, Hnone.
  - destruct Hsum as (-> & -> & ->). by rewrite Hs0, Hnone, Hfs.
Qed.

Lemma results_endpoint_after_run_witness :
  get_any_results (Some "ann") "visual" "vis_1"
    (compare_images_logic (env_of both_up true) "http://a.test" "http://b.test"
       "vis_1" world0) =
  visual
    {| response_results :=
         match captured (env_of both_up true) "http://a.test" "http://b.test",
               pixel_outcome (env_of both_up true) "http://a.test" "http://b.test"
         with
         | Some _, Some s => [{| score := s; diff_img := diff_path "vis_1" |}]
         | _, _ => []
         end;
       dom_diffs :=
         match captured (env_of both_up true) "http://a.test" "http://b.test" with
         | Some (base_dom, compare_dom) =>
             if report_writable (env_of both_up true)
             then default [] (DomDiff.compare_dom_elements base_dom compare_dom)
             else []
         | None => []
         end |}.
Proof.
  apply (results_endpoint_after_run (env_of both_up true)
           "http://a.test" "http://b.test" "vis_1" world0 "ann").
  - exact world0_fresh.
  - by eexists.
Defined.

(** *** Stored scores *)

Lemma pixel_outcome_range env burl curl s :
  pixel_outcome env burl curl = Some s → 0 <= s <= 100.
Proof.
  unfold pixel_outcome.
  destruct (screenshot (web env burl) ≫= decode) as [img1|]; simpl; [|done].
  destruct (screenshot (web env curl) ≫= decode) as [img2|]; simpl; [|done].
  destruct (PixelDiff.render_diff (resize env) img1 img2) as [[out c]|] eqn:Hr;
    simpl; [|done].
  destruct (diff_saveable env); [|done].
  apply PixelDiffMoreFacts.diff_score_range.
  by apply PixelDiffMoreFacts.render_diff_count in Hr.
Qed.

(** X19: whatever the pages, the screenshots and the resampler are, a run
    keeps all stored scores percentages: if every result row has a score
    from 0 to 100 before, so has every row after. *)
Theorem run_keeps_scores_percentages env burl curl sid w :
  Forall (λ r, 0 <= diff_score r <= 100) (results w) →
  Forall (λ r, 0 <= diff_score r <= 100)
         (results (compare_images_logic env burl curl sid w)).
Proof.
  intros Hw. pose proof (run_summary env burl curl sid w) as Hsum.
  cbv zeta in Hsum.
  destruct (captured env burl curl) as [[base_dom compare_dom]|].
  - destruct Hsum as [_ Hpix].
    destruct (pixel_outcome env burl curl) as [score|] eqn:Hp;
      [|by destruct Hpix as [-> _]].
    destruct (sessions w !! sid); destruct Hpix as [-> _]; [|done].
    apply Forall_app. split; [done|]. repeat constructor; simpl;
      by apply (pixel_outcome_range env burl curl).
  - by destruct Hsum as (-> & _).
Qed.

Lemma run_keeps_scores_percentages_witness :
  Forall (λ r, 0 <= diff_score r <= 100)
         (results (compare_images_logic (env_of both_up true)
                     "http://a.test" "http://b.test" "vis_1" world2)).
Proof.
  apply (run_keeps_scores_percentages (env_of both_up true)
           "http://a.test" "http://b.test" "vis_1" world2).
  repeat constructor; simpl; lia.
Defined.

End VisualServeFacts.

(** ** Names for result files *)
Module UniqueNameFacts.
Import UniqueName.

(** *** Stripping and splitting *)

Lemma split_nonempty c s : split c s ≠ [].
Proof.
  destruct s as [|x rest]; simpl; [done|].
  case_bool_decide; [done|]. by destruct (split c rest).
Qed.

Lemma split_app c x y : split c (x ++ c :: y) = split c x ++ split c y.
Proof.
  induction x as [|x0 x IH]; simpl.
  - by rewrite bool_decide_eq_true_2.
  - case_bool_decide; [by rewrite IH|]. rewrite IH.
    pose proof (split_nonempty c x). by destruct (split c x).
Qed.

Lemma split_no_sep c s : c ∉ s → split c s = [s].
Proof.
  induction s as [|x s IH]; [done|]. intros Hn. simpl.
  apply not_elem_of_cons in Hn as [Hx Hs].
  rewrite bool_decide_eq_false_2 by done. by rewrite IH.
Qed.

Lemma lstrip_all c s : Forall (λ x, x = c) s → lstrip c s = [].
Proof.
  induction 1 as [|x s Hx _ IH]; [done|]. simpl.
  by rewrite bool_decide_eq_true_2.
Qed.

Lemma lstrip_clean c s : c ∉ s → lstrip c s = s.
Proof.
  destruct s as [|x s]; [done|]. intros Hn. simpl.
  apply not_elem_of_cons in Hn as [Hx _].
  by rewrite bool_decide_eq_false_2.
Qed.

Lemma lstrip_app_clean c seg rest :
  seg ≠ [] → c ∉ seg → lstrip c (seg ++ rest) = seg ++ rest.
Proof.
  destruct seg as [|x seg]; [done|]. intros _ Hn. simpl.
  apply not_elem_of_cons in Hn as [Hx _].
  by rewrite bool_decide_eq_false_2.
Qed.

Lemma rstrip_app_clean c pre seg :
  seg ≠ [] → c ∉ seg → rstrip c (pre ++ seg) = pre ++ seg.
Proof.
  intros Hne Hn. unfold rstrip. rewrite rev_app_distr.
  rewrite lstrip_app_clean.
  - by rewrite <-rev_app_distr, rev_involutive.
  - intros Hr. apply Hne. by rewrite <-(rev_involutive seg), Hr.
  - intros Hin. apply Hn. apply list_elem_of_In, in_rev.
    by apply list_elem_of_In.
Qed.

Lemma rstrip_clean c seg : seg ≠ [] → c ∉ seg → rstrip c seg = seg.
Proof. apply (rstrip_app_clean c []). Qed.

(** What is left of [dir/segment] after the leading slashes are gone. *)
Lemma lstrip_dir c dir seg :
  seg ≠ [] → c ∉ seg →
  lstrip c (dir ++ c :: seg) = seg ∨
  ∃ d, lstrip c (dir ++ c :: seg) = d ++ c :: seg.
Proof.
  intros Hne Hn. induction dir as [|x dir IH]; simpl.
  - rewrite bool_decide_eq_true_2 by done. left. by apply lstrip_clean.
  - case_bool_decide; [done|]. right. by exists (x :: dir).
Qed.

(** *** The last segment *)

Lemma last_segment c pre seg :
  seg ≠ [] → c ∉ seg →
  (pre = [] ∨ ∃ d, pre = d ++ [c]) →
  last (List.filter (λ s, negb (bool_decide (s = []))) (split c (pre ++ seg)))
  = Some seg.
Proof.
  intros Hne Hn [->|[d ->]].
  - simpl. rewrite split_no_sep by done. simpl.
    by rewrite bool_decide_eq_false_2.
  - rewrite <-app_assoc. simpl. rewrite split_app, (split_no_sep c seg) by done.
    rewrite List.filter_app. simpl. rewrite bool_decide_eq_false_2 by done.
    simpl. apply last_snoc.
Qed.

Lemma last_segment_alone c seg :
  seg ≠ [] → c ∉ seg →
  last (List.filter (λ s, negb (bool_decide (s = []))) (split c seg)) = Some seg.
Proof. intros Hne Hn. by apply (last_segment c []); [..|left]. Qed.

(** The stripped path of [dir/segment] and what the code reads off it. *)
Lemma stripped_dir dir seg :
  seg ≠ [] → slash ∉ seg →
  let p := strip slash (dir ++ slash :: seg) in
  p ≠ [] ∧ p ≠ py "/" ∧
  last (List.filter (λ s, negb (bool_decide (s = []))) (split slash p))
  = Some seg.
Proof.
  intros Hne Hn p. unfold p, strip. clear p.
  destruct (lstrip_dir slash dir seg Hne Hn) as [->|[d ->]].
  - rewrite rstrip_clean by done. split_and!.
    + done.
    + intros ->. apply Hn. by left.
    + by apply last_segment_alone.
  - change (d ++ slash :: seg) with (d ++ [slash] ++ seg).
    rewrite app_assoc, rstrip_app_clean by done. split_and!.
    + by destruct d.
    + intros Heq. apply (f_equal length) in Heq.
      rewrite !length_app in Heq. destruct seg; [done|].
      simpl in Heq. lia.
    + apply last_segment; [done..|]. right. by exists d.
Qed.

Lemma page_name_dir word lower dir seg :
  seg ≠ [] → slash ∉ seg →
  page_name word lower (dir ++ slash :: seg) = page_name word lower seg.
Proof.
  intros Hne Hn.
  destruct (stripped_dir dir seg Hne Hn) as (H1 & H2 & H3). cbv zeta in *.
  assert (strip slash seg = seg) as Hseg.
  { unfold strip. rewrite lstrip_clean by done. by apply rstrip_clean. }
  assert (seg ≠ py "/") as Hs by (intros ->; apply Hn; by left).
  unfold page_name. cbv zeta. rewrite Hseg, H3.
  rewrite (last_segment_alone slash seg Hne Hn).
  rewrite (bool_decide_eq_false_2 (strip slash (dir ++ slash :: seg) = [] ∨ _))
    by (by intros [?|?]).
  by rewrite (bool_decide_eq_false_2 (seg = [] ∨ _)) by (by intros [?|?]).
Qed.

Lemma remove_www netloc :
  remove_all (py "www.") (py "www." ++ netloc) = remove_all (py "www.") netloc.
Proof. reflexivity. Qed.

Lemma page_name_bounds word lower parsed_path :
  (1 <= length (page_name word lower parsed_path) <= 50)%nat.
Proof.
  unfold page_name. cbv zeta.
  assert (length (py "home") = 4%nat) as Hhome by done.
  case_bool_decide; [lia|].
  destruct (last _) as [segment|]; [|lia].
  set (q := lower _). clearbody q.
  case_bool_decide as Hq.
  - change (50 <? length (py "home"))%nat with false. lia.
  - destruct (Nat.ltb_spec 50 (length q)) as [Hlt|Hle].
    + rewrite length_app, length_take. change (length (py "...")) with 3%nat.
      lia.
    + destruct q; [|simpl in *; lia]. exfalso. apply Hq. by left.
Qed.

Lemma remove_go_length old skip s :
  (length (remove_go old skip s) <= length s)%nat.
Proof.
  revert skip. induction s as [|x s IH]; intros skip; [done|].
  cbn [remove_go length]. destruct skip as [|k].
  - destruct (startswith old (x :: s)); cbn [length].
    + etrans; [apply IH|lia].
    + pose proof (IH 0%nat). lia.
  - etrans; [apply IH|lia].
Qed.

Lemma domain_chars word netloc : Forall (domain_char word) (domain word netloc).
Proof.
  unfold domain, sub_outside. apply Forall_fmap, Forall_forall. intros x _.
  unfold domain_char. simpl.
  destruct (word x) eqn:Hw; [by left|]. simpl.
  case_bool_decide; [by right; left|]. simpl.
  case_bool_decide; by right; right.
Qed.

(** *** The file name *)

(** X20: every name returned is a page part, two underscores and a domain
    part; the page part has from 1 to 50 code points, and the domain part
    holds only word characters, dots and hyphens and is no longer than the
    host it comes from. *)
Theorem filename_shape word lower urlparse url name :
  get_unique_filename word lower urlparse url = Some name →
  ∃ parsed page dom,
    urlparse url = Some parsed ∧
    name = page ++ py "__" ++ dom ∧
    (1 <= length page <= 50)%nat ∧
    Forall (domain_char word) dom ∧
    (length dom <= length (netloc parsed))%nat.
Proof.
  unfold get_unique_filename.
  destruct (urlparse url) as [parsed|]; simpl; [|done]. intros [= <-].
  exists parsed, (page_name word lower (path parsed)),
    (domain word (netloc parsed)).
  refine (conj eq_refl (conj eq_refl (conj (page_name_bounds _ _ _)
            (conj (domain_chars _ _) _)))).
  unfold domain, sub_outside, remove_all. rewrite length_fmap.
  apply remove_go_length.
Qed.

Lemma filename_shape_witness :
  ∃ parsed page dom,
    sample_urlparse "https://www.shop.test/en/sale/Shoes.html" = Some parsed ∧
    py "shoes__shop.test" = page ++ py "__" ++ dom ∧
    (1 <= length page <= 50)%nat ∧
    Forall (domain_char ascii_word) dom ∧
    (length dom <= length (netloc parsed))%nat.
Proof.
  exact (filename_shape ascii_word ascii_lower sample_urlparse
           "https://www.shop.test/en/sale/Shoes.html" (py "shoes__shop.test")
           eq_refl).
Defined.

(** X21: the name is not unique to the URL: the directories before the
    last path segment and a [www.] in front of the host are dropped, so two
    URLs that differ in them get the same name. *)
Theorem distinct_urls_same_name word lower urlparse url1 url2 host dir1 dir2 seg :
  seg ≠ [] → slash ∉ seg →
  urlparse url1 = Some {| netloc := py "www." ++ host;
                          path := dir1 ++ slash :: seg |} →
  urlparse url2 = Some {| netloc := host; path := dir2 ++ slash :: seg |} →
  is_Some (get_unique_filename word lower urlparse url1) ∧
  get_unique_filename word lower urlparse url1 =
  get_unique_filename word lower urlparse url2.
Proof.
  intros Hne Hn H1 H2. unfold get_unique_filename. rewrite H1, H2.
  cbn [mbind option_bind netloc path].
  split; [by eexists|]. rewrite !page_name_dir by done.
  unfold domain. by rewrite remove_www.
Qed.

Lemma distinct_urls_same_name_witness :
  is_Some (get_unique_filename ascii_word ascii_lower sample_urlparse
             "https://www.shop.test/en/sale/Shoes.html") ∧
  get_unique_filename ascii_word ascii_lower sample_urlparse
    "https://www.shop.test/en/sale/Shoes.html" =
  get_unique_filename ascii_word ascii_lower sample_urlparse
    "https://shop.test/Shoes.html".
Proof.
  apply (distinct_urls_same_name ascii_word ascii_lower sample_urlparse
           "https://www.shop.test/en/sale/Shoes.html"
           "https://shop.test/Shoes.html"
           (py "shop.test") (py "/en/sale") [] (py "Shoes.html")).
  - discriminate.
  - by vm_compute; intros H; repeat (apply elem_of_cons in H as [H|H];
      [discriminate H|]); apply elem_of_nil in H.
  - reflexivity.
  - reflexivity.
Defined.

(** X22: a path that is empty or holds only slashes is named [home]. *)
Theorem bare_path_is_home word lower urlparse url parsed :
  urlparse url = Some parsed → Forall (λ x, x = slash) (path parsed) →
  get_unique_filename word lower urlparse url =
  Some (py "home" ++ py "__" ++ domain word (netloc parsed)).
Proof.
  intros Hu Hp. unfold get_unique_filename. rewrite Hu. simpl. do 2 f_equal.
  unfold page_name, strip. cbv zeta. rewrite (lstrip_all _ _ Hp).
  by rewrite bool_decide_eq_true_2 by (by left).
Qed.

Lemma bare_path_is_home_witness :
  get_unique_filename ascii_word ascii_lower sample_urlparse "https://shop.test/" =
  Some (py "home" ++ py "__" ++ domain ascii_word (py "shop.test")).
Proof.
  apply (bare_path_is_home ascii_word ascii_lower sample_urlparse
           "https://shop.test/" {| netloc := py "shop.test"; path := py "/" |}).
  - reflexivity.
  - by repeat constructor.
Defined.

End UniqueNameFacts.
